(** * InnoDB performance_schema data-lock instrumentation (handler/p_s.cc)

    A shallow embedding of the restartable batch scan over the transaction
    lists, of the two per-transaction enumerators (data locks, data lock
    waits) and of the lock-id codec, followed by the properties proved
    about them.

    Conventions.
    - [trx_id_t], [ulint], [size_t] are 64-bit unsigned and [long] is 64-bit
      signed (an LP64 build); [space_id_t] and [page_no_t] are 32-bit
      unsigned.  Values live in [Z]; wrap-around is written with [wrap64]
      and [wrap32].
    - [ut_error] and a failed [ut_a] abort the server: [Fatal].
    - [while] loops that the C++ code runs until a condition on the scan
      state changes take a fuel argument; running out of it is [OutOfFuel]. *)

From Stdlib Require Import ZArith List Bool Lia String Ascii Sorted
  Permutation.
Import ListNotations.
Local Open Scope Z_scope.

(* ================================================================= *)
(** ** Machine integers and outcomes *)

Definition wrap64 (z : Z) : Z := z mod 2 ^ 64.
Definition wrap32 (z : Z) : Z := z mod 2 ^ 32.

Inductive outcome (A : Type) : Type :=
| Ret (a : A)
| Fatal
| OutOfFuel.
Arguments Ret {A} a.
Arguments Fatal {A}.
Arguments OutOfFuel {A}.

Definition bind {A B : Type} (m : outcome A) (k : A -> outcome B) : outcome B :=
  match m with
  | Ret a => k a
  | Fatal => Fatal
  | OutOfFuel => OutOfFuel
  end.

(* ================================================================= *)
(** ** Innodb_trx_scan_state *)

(** [enum scan_pass]. *)
Inductive scan_pass : Type :=
| INIT_SCANNING
| SCANNING_RW_TRX_LIST
| SCANNING_MYSQL_TRX_LIST
| DONE_SCANNING.

Definition scan_pass_eqb (p q : scan_pass) : bool :=
  match p, q with
  | INIT_SCANNING, INIT_SCANNING
  | SCANNING_RW_TRX_LIST, SCANNING_RW_TRX_LIST
  | SCANNING_MYSQL_TRX_LIST, SCANNING_MYSQL_TRX_LIST
  | DONE_SCANNING, DONE_SCANNING => true
  | _, _ => false
  end.

Definition SCAN_RANGE : Z := 256.

(** Modelled from the spec: [TRX_ID_MAX] is declared in trx0types.h; the
    hint is "initialized to unknown/maximum", the largest 64-bit unsigned
    value. *)
Definition TRX_ID_MAX : Z := 2 ^ 64 - 1.

Record Innodb_trx_scan_state : Type := {
  m_scan_pass : scan_pass;
  m_start_trx_id_range : Z;
  m_end_trx_id_range : Z;
  m_next_trx_id_range : Z
}.

(** The constructor. *)
Definition scan_state_init : Innodb_trx_scan_state :=
  {| m_scan_pass := INIT_SCANNING;
     m_start_trx_id_range := 0;
     m_end_trx_id_range := SCAN_RANGE;
     m_next_trx_id_range := TRX_ID_MAX |}.

Definition get_pass (s : Innodb_trx_scan_state) : scan_pass := m_scan_pass s.

Definition prepare_next_scan (s : Innodb_trx_scan_state)
  : outcome Innodb_trx_scan_state :=
  if negb (m_next_trx_id_range s =? TRX_ID_MAX) then
    let start :=
      wrap64 (m_next_trx_id_range s - m_next_trx_id_range s mod SCAN_RANGE) in
    Ret {| m_scan_pass := m_scan_pass s;
           m_start_trx_id_range := start;
           m_end_trx_id_range := wrap64 (start + SCAN_RANGE);
           m_next_trx_id_range := TRX_ID_MAX |}
  else
    match m_scan_pass s with
    | INIT_SCANNING =>
        Ret {| m_scan_pass := SCANNING_RW_TRX_LIST;
               m_start_trx_id_range := 0;
               m_end_trx_id_range := SCAN_RANGE;
               m_next_trx_id_range := TRX_ID_MAX |}
    | SCANNING_RW_TRX_LIST =>
        Ret {| m_scan_pass := SCANNING_MYSQL_TRX_LIST;
               m_start_trx_id_range := 0;
               m_end_trx_id_range := SCAN_RANGE;
               m_next_trx_id_range := TRX_ID_MAX |}
    | SCANNING_MYSQL_TRX_LIST =>
        Ret {| m_scan_pass := DONE_SCANNING;
               m_start_trx_id_range := m_start_trx_id_range s;
               m_end_trx_id_range := m_end_trx_id_range s;
               m_next_trx_id_range := m_next_trx_id_range s |}
    | DONE_SCANNING => Fatal
    end.

(** Returns the answer and the state with the next-range hint updated.
    [ut_ad (trx_id < TRX_ID_MAX)] is a debug-build assertion and is left
    to the statements. *)
Definition trx_id_in_range (trx_id : Z) (s : Innodb_trx_scan_state)
  : bool * Innodb_trx_scan_state :=
  if (m_start_trx_id_range s <=? trx_id) && (trx_id <? m_end_trx_id_range s)
  then (true, s)
  else if (m_end_trx_id_range s <=? trx_id) && (trx_id <? m_next_trx_id_range s)
  then (false,
        {| m_scan_pass := m_scan_pass s;
           m_start_trx_id_range := m_start_trx_id_range s;
           m_end_trx_id_range := m_end_trx_id_range s;
           m_next_trx_id_range := trx_id |})
  else (false, s).

(** *** Sessions: sequences of calls on one scan state *)

Inductive scan_op : Type :=
| InRange (trx_id : Z)
| Advance.

Definition step (op : scan_op) (s : Innodb_trx_scan_state)
  : outcome Innodb_trx_scan_state :=
  match op with
  | InRange trx_id => Ret (snd (trx_id_in_range trx_id s))
  | Advance => prepare_next_scan s
  end.

Fixpoint run (ops : list scan_op) (s : Innodb_trx_scan_state)
  : outcome Innodb_trx_scan_state :=
  match ops with
  | [] => Ret s
  | op :: ops' => bind (step op s) (run ops')
  end.

(** Every state the session goes through, the starting one first; the
    session ends at the first call that aborts. *)
Fixpoint states (ops : list scan_op) (s : Innodb_trx_scan_state)
  : list Innodb_trx_scan_state :=
  s :: match ops with
       | [] => []
       | op :: ops' =>
           match step op s with
           | Ret s' => states ops' s'
           | _ => []
           end
       end.

(** The state after each [prepare_next_scan] of the session, that is, the
    successive ranges the session moves to. *)
Fixpoint ranges (ops : list scan_op) (s : Innodb_trx_scan_state)
  : list Innodb_trx_scan_state :=
  match ops with
  | [] => []
  | InRange trx_id :: ops' => ranges ops' (snd (trx_id_in_range trx_id s))
  | Advance :: ops' =>
      match prepare_next_scan s with
      | Ret s' => s' :: ranges ops' s'
      | _ => []
      end
  end.

(** Runs of equal passes collapsed to one occurrence: the passes in the
    order in which they are entered. *)
Fixpoint passes_entered (l : list scan_pass) : list scan_pass :=
  match l with
  | [] => []
  | p :: l' =>
      match l' with
      | [] => [p]
      | q :: _ => if scan_pass_eqb p q then passes_entered l'
                  else p :: passes_entered l'
      end
  end.

Definition all_passes : list scan_pass :=
  [INIT_SCANNING; SCANNING_RW_TRX_LIST; SCANNING_MYSQL_TRX_LIST; DONE_SCANNING].

(** [a] lies wholly below [b], and neither is empty. *)
Definition range_before (a b : Innodb_trx_scan_state) : Prop :=
  m_start_trx_id_range a < m_end_trx_id_range a
  /\ m_end_trx_id_range a <= m_start_trx_id_range b
  /\ m_start_trx_id_range b < m_end_trx_id_range b.

Definition in_same_pass_before (a b : Innodb_trx_scan_state) : Prop :=
  m_scan_pass a = m_scan_pass b -> range_before a b.

(** Transaction ids whose range does not reach the top of the 64-bit
    space: the end of their range does not wrap. *)
Definition id_below_top (op : scan_op) : Prop :=
  match op with
  | InRange trx_id => 0 <= trx_id < 2 ^ 64 - SCAN_RANGE
  | Advance => True
  end.

(* ================================================================= *)
(** ** Locks and transactions, as the instrumentation reads them *)

(** [lock_get_type]: the source dispatches on [LOCK_TABLE] and [LOCK_REC]
    and hits [ut_error] on anything else; a lock of the lock system is one
    of the two. *)
Inductive lock_type : Type :=
| LOCK_TABLE
| LOCK_REC.

Definition lock_type_eqb (a b : lock_type) : bool :=
  match a, b with
  | LOCK_TABLE, LOCK_TABLE | LOCK_REC, LOCK_REC => true
  | _, _ => false
  end.

(** [ULINT_UNDEFINED] (univ.i), [SPACE_UNKNOWN] and [FIL_NULL] (fil0fil.h)
    are the all-ones values of their types. *)
Definition ULINT_UNDEFINED : Z := 2 ^ 64 - 1.
Definition SPACE_UNKNOWN : Z := 2 ^ 32 - 1.
Definition FIL_NULL : Z := 2 ^ 32 - 1.

(** A [lock_t] as seen through the accessors p_s.cc calls.  [lock_addr] is
    the address of the object: [lock == wait_lock] compares addresses. *)
Record lock_t : Type := {
  lock_addr : Z;
  lock_get_type : lock_type;
  lock_get_trx_id : Z;
  lock_get_table_id : Z;
  lock_rec_get_space_id : Z;
  lock_rec_get_page_no : Z;
  lock_rec_bitmap : list bool;
  lock_psi_thread_id : Z;
  lock_psi_event_id : Z;
  lock_get_table_name : string;
  lock_rec_get_index_name : string;
  lock_get_mode_str : string;
  lock_get_type_str : string
}.

Definition lock_ptr_eqb (a : lock_t) (b : option lock_t) : bool :=
  match b with
  | Some b => lock_addr a =? lock_addr b
  | None => false
  end.

Fixpoint set_bits_from (bits : list bool) (i : Z) : list Z :=
  match bits with
  | [] => []
  | b :: bits' =>
      if b then i :: set_bits_from bits' (i + 1)
      else set_bits_from bits' (i + 1)
  end.

(** Modelled from the spec: [lock_rec_find_set_bit] and
    [lock_rec_find_next_set_bit] live in the lock system (lock0priv); the
    loop built from them visits "every set bit in the row-slot bitmap (in
    increasing order)".  [lock_rec_set_bits] is that sequence of heap
    numbers. *)
Definition lock_rec_set_bits (lock : lock_t) : list Z :=
  set_bits_from (lock_rec_bitmap lock) 0.

(** The first set bit, [ULINT_UNDEFINED] when there is none. *)
Definition lock_rec_find_set_bit (lock : lock_t) : Z :=
  hd ULINT_UNDEFINED (lock_rec_set_bits lock).

(** [trx->lock.que_state]. *)
Inductive trx_que_t : Type :=
| TRX_QUE_RUNNING
| TRX_QUE_LOCK_WAIT
| TRX_QUE_ROLLING_BACK
| TRX_QUE_COMMITTING.

Definition is_lock_wait (q : trx_que_t) : bool :=
  match q with
  | TRX_QUE_LOCK_WAIT => true
  | _ => false
  end.

Record trx_lock_t : Type := {
  que_state : trx_que_t;
  wait_lock : option lock_t;
  trx_locks : list lock_t
}.

(** [trx_is_started] and [trx_get_id_for_print] are accessors of
    trx0trx.h; the transaction carries their values. *)
Record trx_t : Type := {
  id : Z;
  read_only : bool;
  trx_is_started : bool;
  trx_get_id_for_print : Z;
  lock : trx_lock_t
}.

Record trx_sys_t : Type := {
  rw_trx_list : list trx_t;
  mysql_trx_list : list trx_t
}.

Definition discard_trx (trx : trx_t) (read_write : bool) : bool :=
  if negb (trx_is_started trx) then true
  else if negb read_write && negb (id trx =? 0) && negb (read_only trx)
  then true
  else false.

Fixpoint fetch_trx_in_trx_list (trx_id : Z) (read_write : bool)
    (trx_list : list trx_t) : option trx_t :=
  match trx_list with
  | [] => None
  | trx :: rest =>
      if discard_trx trx read_write
      then fetch_trx_in_trx_list trx_id read_write rest
      else if trx_id =? trx_get_id_for_print trx then Some trx
      else fetch_trx_in_trx_list trx_id read_write rest
  end.

(* ================================================================= *)
(** ** The lock-id codec *)

Local Open Scope string_scope.
Local Open Scope Z_scope.

Definition digit_char (d : Z) : ascii := ascii_of_N (Z.to_N (48 + d)).

(** Decimal digits of [n], most significant first, pushed in front of
    [acc]; [fuel] bounds the number of digits. *)
Fixpoint print_digits (fuel : nat) (n : Z) (acc : string) : string :=
  match fuel with
  | O => acc
  | S fuel' =>
      let acc' := String (digit_char (n mod 10)) acc in
      if n / 10 =? 0 then acc' else print_digits fuel' (n / 10) acc'
  end.

(** The conversions behind [TRX_ID_FMT], [UINT64PF] and [ULINTPF] (64-bit
    unsigned decimal, at most 20 digits) and behind [SPACE_ID_PF] and
    [PAGE_NO_PF] (32-bit unsigned decimal, at most 10 digits). *)
Definition fmt_u64 (n : Z) : string := print_digits 20 (wrap64 n) "".
Definition fmt_u32 (n : Z) : string := print_digits 10 (wrap32 n) "".

Fixpoint take (n : nat) (s : string) : string :=
  match n, s with
  | S n', String c s' => String c (take n' s')
  | _, _ => ""
  end.

(** [snprintf(buf, size, ...)] keeps at most [size - 1] characters. *)
Definition snprintf (size : nat) (s : string) : string := take (size - 1) s.

(** trx0i_s.h: [TRX_I_S_LOCK_ID_MAX_LEN] is [TRX_ID_MAX_LEN + 63], with
    [TRX_ID_MAX_LEN] 17. *)
Definition TRX_I_S_LOCK_ID_MAX_LEN : nat := 80.

(** [sizeof(engine_lock_id)] for the buffers of both [scan_trx]. *)
Definition engine_lock_id_size : nat := TRX_I_S_LOCK_ID_MAX_LEN + 1.

Definition print_table_lock_id (lock : lock_t) (lock_id_size : nat) : string :=
  snprintf lock_id_size
    (fmt_u64 (lock_get_trx_id lock) ++ ":" ++ fmt_u64 (lock_get_table_id lock)).

Definition print_record_lock_id (lock : lock_t) (heap_no : Z)
    (lock_id_size : nat) : string :=
  snprintf lock_id_size
    (fmt_u64 (lock_get_trx_id lock) ++ ":"
     ++ fmt_u32 (lock_rec_get_space_id lock) ++ ":"
     ++ fmt_u32 (lock_rec_get_page_no lock) ++ ":"
     ++ fmt_u64 heap_no).

Definition print_lock_id (lock : lock_t) (heap_no : Z) (lock_id_size : nat)
  : string :=
  match lock_get_type lock with
  | LOCK_TABLE => print_table_lock_id lock lock_id_size
  | LOCK_REC => print_record_lock_id lock heap_no lock_id_size
  end.

(** *** [strtol(nptr, &endptr, 10)] of the C library *)

Definition LONG_MAX : Z := 2 ^ 63 - 1.
Definition LONG_MIN : Z := - 2 ^ 63.

Definition is_space (c : ascii) : bool :=
  let n := N_of_ascii c in
  ((n =? 32) || ((9 <=? n) && (n <=? 13)))%N.

Definition digit_val (c : ascii) : option Z :=
  let n := Z.of_N (N_of_ascii c) in
  if (48 <=? n) && (n <=? 57) then Some (n - 48) else None.

Fixpoint skip_space (s : string) : string :=
  match s with
  | String c s' => if is_space c then skip_space s' else s
  | EmptyString => s
  end.

(** The digits in front of [s] folded into [acc]; whether a digit was
    seen; the first character that is not a digit onwards. *)
Fixpoint strtol_digits (s : string) (acc : Z) (seen : bool)
  : Z * bool * string :=
  match s with
  | String c s' =>
      match digit_val c with
      | Some d => strtol_digits s' (acc * 10 + d) true
      | None => (acc, seen, s)
      end
  | EmptyString => (acc, seen, s)
  end.

Definition clamp_long (v : Z) : Z :=
  if v >? LONG_MAX then LONG_MAX
  else if v <? LONG_MIN then LONG_MIN
  else v.

(** White space, an optional sign, decimal digits.  The value is clamped
    to the range of [long]; without any digit the value is 0 and [endptr]
    is [nptr]. *)
Definition strtol (nptr : string) : Z * string :=
  let s := skip_space nptr in
  let '(neg, s1) :=
    match s with
    | String "-"%char r => (true, r)
    | String "+"%char r => (false, r)
    | _ => (false, s)
    end in
  let '(v, seen, rest) := strtol_digits s1 0 false in
  if seen then (clamp_long (if neg then - v else v), rest)
  else (0, nptr).

(** [*ptr]: the terminating NUL at the end of the string. *)
Definition deref (ptr : string) : ascii :=
  match ptr with
  | String c _ => c
  | EmptyString => zero
  end.

(** [ptr++]. *)
Definition incr (ptr : string) : string :=
  match ptr with
  | String _ r => r
  | EmptyString => EmptyString
  end.

(** The out-parameters of [scan_lock_id] together with its return value;
    [None] is the return value 0, a format error. *)
Record lock_id_fields : Type := {
  id_record_type : lock_type;
  id_trx_id : Z;
  id_table_id : Z;
  id_space_id : Z;
  id_page_id : Z;
  id_heap_id : Z
}.

Definition scan_lock_id (lock_id : string) : option lock_id_fields :=
  let '(id_1, ptr) := strtol lock_id in
  if negb (Ascii.eqb (deref ptr) ":") then None
  else
    let ptr := incr ptr in
    let '(id_2, ptr) := strtol ptr in
    if Ascii.eqb (deref ptr) zero then
      Some {| id_record_type := LOCK_TABLE;
              id_trx_id := wrap64 id_1;
              id_table_id := wrap64 id_2;
              id_space_id := SPACE_UNKNOWN;
              id_page_id := FIL_NULL;
              id_heap_id := ULINT_UNDEFINED |}
    else
      let ptr := incr ptr in
      let '(id_3, ptr) := strtol ptr in
      if negb (Ascii.eqb (deref ptr) ":") then None
      else
        let ptr := incr ptr in
        let '(id_4, ptr) := strtol ptr in
        if Ascii.eqb (deref ptr) zero then
          Some {| id_record_type := LOCK_REC;
                  id_trx_id := wrap64 id_1;
                  id_table_id := 0;
                  id_space_id := wrap32 id_2;
                  id_page_id := wrap32 id_3;
                  id_heap_id := wrap64 id_4 |}
        else None.

(* ================================================================= *)
(** ** What p_s.cc takes from the lock system and the server *)

(** The four names [parse_table_path] hands to [accept_object] and to the
    row; a name is [None] when the path has no such part. *)
Record table_path_parts : Type := {
  table_schema : option string;
  table_name : option string;
  partition_name : option string;
  subpartition_name : option string
}.

(** Functions of the lock system and of the server that p_s.cc calls and
    that are not part of it.
    - [lock_has_to_wait wait_lock curr_lock]: the conflict predicate.
    - [lock_queue_prev wait_lock]: the locks that successive calls of
      [lock_queue_iterator_get_prev] return after
      [lock_queue_iterator_reset (&iter, wait_lock, ULINT_UNDEFINED)].
    - [parse_table_path]: the decomposition and conversion of a table path.
    - [p_s_fill_lock_data lock heap_no]: the LOCK_DATA column. *)
Class lock_sys_api : Type := {
  lock_has_to_wait : lock_t -> lock_t -> bool;
  lock_queue_prev : lock_t -> list lock_t;
  parse_table_path : string -> table_path_parts;
  p_s_fill_lock_data : lock_t -> Z -> option string
}.

Inductive mutex_event : Type :=
| lock_mutex_enter
| trx_sys_mutex_enter
| trx_sys_mutex_exit
| lock_mutex_exit.

(** What a call changes outside the iterator: the rows added to the
    container and the mutex operations performed, oldest first. *)
Record effects (R : Type) : Type := {
  rows : list R;
  mutex_log : list mutex_event
}.
Arguments rows {R} e.
Arguments mutex_log {R} e.

Definition mutex_op {R : Type} (ev : mutex_event) (e : effects R) : effects R :=
  {| rows := rows e; mutex_log := (mutex_log e ++ [ev])%list |}.

Definition set_rows {R : Type} (e : effects R) (rs : list R) : effects R :=
  {| rows := rs; mutex_log := mutex_log e |}.

Definition g_engine : string := "INNODB".

(* ================================================================= *)
(** ** Innodb_data_lock_iterator *)

Module Innodb_data_lock_iterator.

(** The predicates of the container; its rows are threaded through the
    functions below. *)
Record PSI_server_data_lock_container : Type := {
  accept_engine : string -> bool;
  accept_transaction_id : Z -> bool;
  accept_thread_id_event_id : Z -> Z -> bool;
  accept_object : table_path_parts -> bool;
  accept_lock_id : string -> bool
}.

(** The arguments of one [add_lock_row]; [row_identity] is the address of
    the lock. *)
Record data_lock_row : Type := {
  row_engine : string;
  row_engine_lock_id : string;
  row_trx_id : Z;
  row_thread_id : Z;
  row_event_id : Z;
  row_object : table_path_parts;
  row_index_name : option string;
  row_identity : Z;
  row_lock_mode : string;
  row_lock_type : string;
  row_lock_status : string;
  row_lock_data : option string
}.

Definition add_lock_row (rs : list data_lock_row) (r : data_lock_row)
  : list data_lock_row := (rs ++ [r])%list.

Section Enumerator.
Context `{lock_sys_api}.
Variable container : PSI_server_data_lock_container.
Variable with_lock_data : bool.

(** The [while (heap_no != ULINT_UNDEFINED)] loop of [scan_trx] over the
    set bits of one record lock; [mk] is the row but for its lock id and
    its lock data. *)
Fixpoint scan_rec_lock_bits (lock : lock_t) (filter : option lock_id_fields)
    (mk : string -> option string -> data_lock_row)
    (heap_nos : list Z) (found : nat) (rs : list data_lock_row)
  : nat * list data_lock_row :=
  match heap_nos with
  | [] => (found, rs)
  | heap_no :: rest =>
      if match filter with
         | None => true
         | Some f => heap_no =? id_heap_id f
         end
      then
        let engine_lock_id :=
          print_record_lock_id lock heap_no engine_lock_id_size in
        if accept_lock_id container engine_lock_id then
          let lock_data_str :=
            if with_lock_data then p_s_fill_lock_data lock heap_no
            else None in
          scan_rec_lock_bits lock filter mk rest (S found)
            (add_lock_row rs (mk engine_lock_id lock_data_str))
        else scan_rec_lock_bits lock filter mk rest found rs
      else scan_rec_lock_bits lock filter mk rest found rs
  end.

(** The [for] loop of [scan_trx] over the locks of the transaction.
    [lock_status_str] is declared before the loop and lives across its
    iterations. *)
Fixpoint scan_trx_locks (trx_id : Z) (wait_lock : option lock_t)
    (filter : option lock_id_fields) (locks : list lock_t)
    (lock_status_str : string) (found : nat) (rs : list data_lock_row)
  : nat * list data_lock_row :=
  match locks with
  | [] => (found, rs)
  | lock :: rest =>
      let continue := scan_trx_locks trx_id wait_lock filter rest in
      let record_type := lock_get_type lock in
      if match filter with
         | None => false
         | Some f =>
             if negb (lock_type_eqb record_type (id_record_type f)) then true
             else
               match record_type with
               | LOCK_TABLE =>
                   negb (lock_get_table_id lock =? id_table_id f)
               | LOCK_REC =>
                   negb (lock_rec_get_space_id lock =? id_space_id f)
                   || negb (lock_rec_get_page_no lock =? id_page_id f)
               end
         end
      then continue lock_status_str found rs
      else
        let thread_id := lock_psi_thread_id lock in
        let event_id := lock_psi_event_id lock in
        if negb (accept_thread_id_event_id container thread_id event_id)
        then continue lock_status_str found rs
        else
          let object := parse_table_path (lock_get_table_name lock) in
          if negb (accept_object container object)
          then continue lock_status_str found rs
          else
            let lock_status_str :=
              if lock_ptr_eqb lock wait_lock then "WAITING"
              else lock_status_str in
            let mk index_name engine_lock_id lock_data_str :=
              {| row_engine := g_engine;
                 row_engine_lock_id := engine_lock_id;
                 row_trx_id := trx_id;
                 row_thread_id := thread_id;
                 row_event_id := event_id;
                 row_object := object;
                 row_index_name := index_name;
                 row_identity := lock_addr lock;
                 row_lock_mode := lock_get_mode_str lock;
                 row_lock_type := lock_get_type_str lock;
                 row_lock_status := lock_status_str;
                 row_lock_data := lock_data_str |} in
            match record_type with
            | LOCK_TABLE =>
                let engine_lock_id :=
                  print_table_lock_id lock engine_lock_id_size in
                if accept_lock_id container engine_lock_id then
                  continue lock_status_str (S found)
                    (add_lock_row rs (mk None engine_lock_id None))
                else continue lock_status_str found rs
            | LOCK_REC =>
                let '(found, rs) :=
                  scan_rec_lock_bits lock filter
                    (mk (Some (lock_rec_get_index_name lock)))
                    (lock_rec_set_bits lock) found rs in
                continue lock_status_str found rs
            end
  end.

(** [with_filter] and the five [filter_*] arguments are [Some] of the
    decoded identifier, or [None] for [with_filter == false]. *)
Definition scan_trx (trx : trx_t) (filter : option lock_id_fields)
    (rs : list data_lock_row) : nat * list data_lock_row :=
  let wait_lock := wait_lock (lock trx) in
  let trx_id := trx_get_id_for_print trx in
  if negb (accept_transaction_id container trx_id) then (O, rs)
  else scan_trx_locks trx_id wait_lock filter (trx_locks (lock trx))
         "GRANTED" O rs.

Fixpoint scan_trx_list_from (read_write : bool) (trx_list : list trx_t)
    (st : Innodb_trx_scan_state) (found : nat) (rs : list data_lock_row)
  : nat * Innodb_trx_scan_state * list data_lock_row :=
  match trx_list with
  | [] => (found, st, rs)
  | trx :: rest =>
      if discard_trx trx read_write
      then scan_trx_list_from read_write rest st found rs
      else
        let trx_id := trx_get_id_for_print trx in
        let '(in_range, st) := trx_id_in_range trx_id st in
        if negb in_range
        then scan_trx_list_from read_write rest st found rs
        else
          let '(n, rs) := scan_trx trx None rs in
          scan_trx_list_from read_write rest st (found + n)%nat rs
  end.

Definition scan_trx_list (read_write : bool) (trx_list : list trx_t)
    (st : Innodb_trx_scan_state) (rs : list data_lock_row)
  : nat * Innodb_trx_scan_state * list data_lock_row :=
  scan_trx_list_from read_write trx_list st O rs.

(** One of the two loops of [scan]:
    [while (get_pass () == pass && found == 0)
       { found = scan_trx_list (...); prepare_next_scan (); }]. *)
Fixpoint scan_while (fuel : nat) (pass : scan_pass) (read_write : bool)
    (trx_list : list trx_t) (st : Innodb_trx_scan_state) (found : nat)
    (rs : list data_lock_row)
  : outcome (Innodb_trx_scan_state * nat * list data_lock_row) :=
  if scan_pass_eqb (get_pass st) pass && (found =? 0)%nat then
    match fuel with
    | O => OutOfFuel
    | S fuel' =>
        let '(found, st, rs) := scan_trx_list read_write trx_list st rs in
        bind (prepare_next_scan st)
          (fun st => scan_while fuel' pass read_write trx_list st found rs)
    end
  else Ret (st, found, rs).

(** [scan]; the result [true] tells the server that the iterator is
    done. *)
Definition scan (fuel : nat) (trx_sys : trx_sys_t)
    (m_scan_state : Innodb_trx_scan_state) (e : effects data_lock_row)
  : outcome (bool * Innodb_trx_scan_state * effects data_lock_row) :=
  let entered :=
    if scan_pass_eqb (get_pass m_scan_state) INIT_SCANNING then
      if negb (accept_engine container g_engine) then None
      else Some (prepare_next_scan m_scan_state)
    else Some (Ret m_scan_state) in
  match entered with
  | None => Ret (true, m_scan_state, e)
  | Some prepared =>
      bind prepared (fun st =>
        if scan_pass_eqb (get_pass st) DONE_SCANNING then Ret (true, st, e)
        else
          let e := mutex_op lock_mutex_enter e in
          let e := mutex_op trx_sys_mutex_enter e in
          bind (scan_while fuel SCANNING_RW_TRX_LIST true
                  (rw_trx_list trx_sys) st O (rows e))
            (fun '(st, found, rs) =>
               bind (scan_while fuel SCANNING_MYSQL_TRX_LIST false
                       (mysql_trx_list trx_sys) st found rs)
                 (fun '(st, found, rs) =>
                    let e := set_rows e rs in
                    let e := mutex_op trx_sys_mutex_exit e in
                    let e := mutex_op lock_mutex_exit e in
                    Ret (false, st, e))))
  end.

(** [fetch]; it returns [true] on every path. *)
Definition fetch (trx_sys : trx_sys_t) (engine_lock_id : string)
    (e : effects data_lock_row) : outcome (bool * effects data_lock_row) :=
  if negb (accept_engine container g_engine) then Ret (true, e)
  else
    match scan_lock_id engine_lock_id with
    | None => Ret (true, e)
    | Some f =>
        let e := mutex_op lock_mutex_enter e in
        let e := mutex_op trx_sys_mutex_enter e in
        let trx :=
          match fetch_trx_in_trx_list (id_trx_id f) true
                  (rw_trx_list trx_sys) with
          | Some trx => Some trx
          | None =>
              fetch_trx_in_trx_list (id_trx_id f) false
                (mysql_trx_list trx_sys)
          end in
        let e :=
          match trx with
          | Some trx => set_rows e (snd (scan_trx trx (Some f) (rows e)))
          | None => e
          end in
        let e := mutex_op trx_sys_mutex_exit e in
        let e := mutex_op lock_mutex_exit e in
        Ret (true, e)
    end.

End Enumerator.

End Innodb_data_lock_iterator.

(* ================================================================= *)
(** ** Innodb_data_lock_wait_iterator *)

Module Innodb_data_lock_wait_iterator.

Record PSI_server_data_lock_wait_container : Type := {
  accept_engine : string -> bool;
  accept_requesting_transaction_id : Z -> bool;
  accept_requesting_thread_id_event_id : Z -> Z -> bool;
  accept_requesting_lock_id : string -> bool;
  accept_blocking_transaction_id : Z -> bool;
  accept_blocking_thread_id_event_id : Z -> Z -> bool;
  accept_blocking_lock_id : string -> bool
}.

(** The arguments of one [add_lock_wait_row]; the identities are the
    addresses of the two locks. *)
Record data_lock_wait_row : Type := {
  row_engine : string;
  requesting_engine_lock_id : string;
  requesting_trx_id : Z;
  requesting_thread_id : Z;
  requesting_event_id : Z;
  requesting_identity : Z;
  blocking_engine_lock_id : string;
  blocking_trx_id : Z;
  blocking_thread_id : Z;
  blocking_event_id : Z;
  blocking_identity : Z
}.

Definition add_lock_wait_row (rs : list data_lock_wait_row)
    (r : data_lock_wait_row) : list data_lock_wait_row := (rs ++ [r])%list.

(** The test both sides of [scan_trx] apply to a lock when filtering:
    same type, and same table id, or same space id, page number and first
    set bit. *)
Definition filter_mismatch (l : lock_t) (f : lock_id_fields) : bool :=
  if negb (lock_type_eqb (lock_get_type l) (id_record_type f)) then true
  else
    match lock_get_type l with
    | LOCK_TABLE => negb (lock_get_table_id l =? id_table_id f)
    | LOCK_REC =>
        negb (lock_rec_get_space_id l =? id_space_id f)
        || negb (lock_rec_get_page_no l =? id_page_id f)
        || negb (lock_rec_find_set_bit l =? id_heap_id f)
    end.

Section Enumerator.
Context `{lock_sys_api}.
Variable container : PSI_server_data_lock_wait_container.

(** The [for] loop of [scan_trx] over the locks ahead of [wait_lock] in
    its queue.  [filter] is the blocking half of the filter; [mk] is the
    row but for its blocking side. *)
Fixpoint scan_lock_queue (wait_lock : lock_t) (heap_no : Z)
    (filter : option lock_id_fields)
    (mk : string -> Z -> Z -> Z -> Z -> data_lock_wait_row)
    (queue : list lock_t) (found : nat) (rs : list data_lock_wait_row)
  : nat * list data_lock_wait_row :=
  match queue with
  | [] => (found, rs)
  | curr_lock :: rest =>
      let continue := scan_lock_queue wait_lock heap_no filter mk rest in
      if match filter with
         | None => false
         | Some f => filter_mismatch curr_lock f
         end
      then continue found rs
      else if lock_has_to_wait wait_lock curr_lock then
        let blocking_trx_id := lock_get_trx_id curr_lock in
        if negb (accept_blocking_transaction_id container blocking_trx_id)
        then continue found rs
        else
          let blocking_thread_id := lock_psi_thread_id curr_lock in
          let blocking_event_id := lock_psi_event_id curr_lock in
          if negb (accept_blocking_thread_id_event_id container
                     blocking_thread_id blocking_event_id)
          then continue found rs
          else
            let blocking_identity := lock_addr curr_lock in
            let blocking_engine_lock_id :=
              print_lock_id curr_lock heap_no engine_lock_id_size in
            if negb (accept_blocking_lock_id container
                       blocking_engine_lock_id)
            then continue found rs
            else
              continue (S found)
                (add_lock_wait_row rs
                   (mk blocking_engine_lock_id blocking_trx_id
                      blocking_thread_id blocking_event_id
                      blocking_identity))
      else continue found rs
  end.

(** [with_filter] and the ten [filter_*] arguments are [Some] of the two
    decoded identifiers (requesting, blocking), or [None]. *)
Definition scan_trx (trx : trx_t)
    (filter : option (lock_id_fields * lock_id_fields))
    (rs : list data_lock_wait_row)
  : outcome (nat * list data_lock_wait_row) :=
  if negb (is_lock_wait (que_state (lock trx))) then Ret (O, rs)
  else
    match wait_lock (lock trx) with
    | None => Fatal
    | Some wait_lock =>
        let requesting_record_type := lock_get_type wait_lock in
        if match filter with
           | None => false
           | Some (f, _) => filter_mismatch wait_lock f
           end
        then Ret (O, rs)
        else
          let requesting_trx_id := trx_get_id_for_print trx in
          if negb (accept_requesting_transaction_id container
                     requesting_trx_id)
          then Ret (O, rs)
          else
            let requesting_thread_id := lock_psi_thread_id wait_lock in
            let requesting_event_id := lock_psi_event_id wait_lock in
            if negb (accept_requesting_thread_id_event_id container
                       requesting_thread_id requesting_event_id)
            then Ret (O, rs)
            else
              let heap_no :=
                match requesting_record_type with
                | LOCK_REC => lock_rec_find_set_bit wait_lock
                | LOCK_TABLE => 0
                end in
              let requesting_engine_lock_id :=
                print_lock_id wait_lock heap_no engine_lock_id_size in
              if negb (accept_requesting_lock_id container
                         requesting_engine_lock_id)
              then Ret (O, rs)
              else
                let requesting_identity := lock_addr wait_lock in
                let mk b_lock_id b_trx_id b_thread_id b_event_id b_identity :=
                  {| row_engine := g_engine;
                     requesting_engine_lock_id := requesting_engine_lock_id;
                     requesting_trx_id := requesting_trx_id;
                     requesting_thread_id := requesting_thread_id;
                     requesting_event_id := requesting_event_id;
                     requesting_identity := requesting_identity;
                     blocking_engine_lock_id := b_lock_id;
                     blocking_trx_id := b_trx_id;
                     blocking_thread_id := b_thread_id;
                     blocking_event_id := b_event_id;
                     blocking_identity := b_identity |} in
                Ret (scan_lock_queue wait_lock heap_no
                       (option_map snd filter) mk
                       (lock_queue_prev wait_lock) O rs)
    end.

(** [fetch]; it returns [true] on every path that returns. *)
Definition fetch (trx_sys : trx_sys_t) (requesting_engine_lock_id : string)
    (blocking_engine_lock_id : string) (e : effects data_lock_wait_row)
  : outcome (bool * effects data_lock_wait_row) :=
  if negb (accept_engine container g_engine) then Ret (true, e)
  else
    match scan_lock_id requesting_engine_lock_id with
    | None => Ret (true, e)
    | Some requesting =>
        match scan_lock_id blocking_engine_lock_id with
        | None => Ret (true, e)
        | Some blocking =>
            let e := mutex_op lock_mutex_enter e in
            let e := mutex_op trx_sys_mutex_enter e in
            let trx :=
              match fetch_trx_in_trx_list (id_trx_id requesting) true
                      (rw_trx_list trx_sys) with
              | Some trx => Some trx
              | None =>
                  fetch_trx_in_trx_list (id_trx_id requesting) false
                    (mysql_trx_list trx_sys)
              end in
            bind
              match trx with
              | Some trx =>
                  bind (scan_trx trx (Some (requesting, blocking)) (rows e))
                    (fun r => Ret (set_rows e (snd r)))
              | None => Ret e
              end
              (fun e =>
                 let e := mutex_op trx_sys_mutex_exit e in
                 let e := mutex_op lock_mutex_exit e in
                 Ret (true, e))
        end
    end.

End Enumerator.

(** *** The scan over the transaction lists *)

Section Scanner.
Context `{lock_sys_api}.
Variable container : PSI_server_data_lock_wait_container.

(** [scan_trx_list]: every transaction of the list that is not discarded
    and whose id is in range is scanned without a filter. *)
Fixpoint scan_trx_list_from (read_write : bool) (trx_list : list trx_t)
    (st : Innodb_trx_scan_state) (found : nat)
    (rs : list data_lock_wait_row)
  : outcome (nat * Innodb_trx_scan_state * list data_lock_wait_row) :=
  match trx_list with
  | [] => Ret (found, st, rs)
  | trx :: rest =>
      if discard_trx trx read_write
      then scan_trx_list_from read_write rest st found rs
      else
        let trx_id := trx_get_id_for_print trx in
        let '(in_range, st) := trx_id_in_range trx_id st in
        if negb in_range
        then scan_trx_list_from read_write rest st found rs
        else
          bind (scan_trx container trx None rs)
            (fun '(n, rs) =>
               scan_trx_list_from read_write rest st (found + n)%nat rs)
  end.

Definition scan_trx_list (read_write : bool) (trx_list : list trx_t)
    (st : Innodb_trx_scan_state) (rs : list data_lock_wait_row)
  : outcome (nat * Innodb_trx_scan_state * list data_lock_wait_row) :=
  scan_trx_list_from read_write trx_list st O rs.

(** One of the two loops of [scan]. *)
Fixpoint scan_while (fuel : nat) (pass : scan_pass) (read_write : bool)
    (trx_list : list trx_t) (st : Innodb_trx_scan_state) (found : nat)
    (rs : list data_lock_wait_row)
  : outcome (Innodb_trx_scan_state * nat * list data_lock_wait_row) :=
  if scan_pass_eqb (get_pass st) pass && (found =? 0)%nat then
    match fuel with
    | O => OutOfFuel
    | S fuel' =>
        bind (scan_trx_list read_write trx_list st rs)
          (fun '(found, st, rs) =>
             bind (prepare_next_scan st)
               (fun st =>
                  scan_while fuel' pass read_write trx_list st found rs))
    end
  else Ret (st, found, rs).

(** [scan]; the result [true] tells the server that the iterator is
    done. *)
Definition scan (fuel : nat) (trx_sys : trx_sys_t)
    (m_scan_state : Innodb_trx_scan_state) (e : effects data_lock_wait_row)
  : outcome (bool * Innodb_trx_scan_state * effects data_lock_wait_row) :=
  let entered :=
    if scan_pass_eqb (get_pass m_scan_state) INIT_SCANNING then
      if negb (accept_engine container g_engine) then None
      else Some (prepare_next_scan m_scan_state)
    else Some (Ret m_scan_state) in
  match entered with
  | None => Ret (true, m_scan_state, e)
  | Some prepared =>
      bind prepared (fun st =>
        if scan_pass_eqb (get_pass st) DONE_SCANNING then Ret (true, st, e)
        else
          let e := mutex_op lock_mutex_enter e in
          let e := mutex_op trx_sys_mutex_enter e in
          bind (scan_while fuel SCANNING_RW_TRX_LIST true
                  (rw_trx_list trx_sys) st O (rows e))
            (fun '(st, found, rs) =>
               bind (scan_while fuel SCANNING_MYSQL_TRX_LIST false
                       (mysql_trx_list trx_sys) st found rs)
                 (fun '(st, found, rs) =>
                    let e := set_rows e rs in
                    let e := mutex_op trx_sys_mutex_exit e in
                    let e := mutex_op lock_mutex_exit e in
                    Ret (false, st, e))))
  end.

End Scanner.

(** *** The wait edges [scan_trx] reports: the tests it applies *)

Section Edges.
Context `{lock_sys_api}.
Variable container : PSI_server_data_lock_wait_container.

(** The comparison [scan_trx] makes between a lock and a decoded
    identifier when it filters, on the requesting and on the blocking side
    (the negation of [filter_mismatch]): same kind, and same table id, or
    same space id, same page number and the first set bit of the lock's
    own bitmap equal to the slot of the identifier.  The transaction id of
    the identifier is not compared, and for a lock that covers several
    slots only the lowest one can be asked for. *)
Definition same_resource (l : lock_t) (f : lock_id_fields) : bool :=
  lock_type_eqb (lock_get_type l) (id_record_type f)
  && match lock_get_type l with
     | LOCK_TABLE => lock_get_table_id l =? id_table_id f
     | LOCK_REC =>
         (lock_rec_get_space_id l =? id_space_id f)
         && (lock_rec_get_page_no l =? id_page_id f)
         && (lock_rec_find_set_bit l =? id_heap_id f)
     end.

Definition matches_filter (l : lock_t) (f : option lock_id_fields) : bool :=
  match f with
  | None => true
  | Some f => same_resource l f
  end.

(** The slot number that goes into both identifiers of an edge. *)
Definition requesting_heap_no (wait_lock : lock_t) : Z :=
  match lock_get_type wait_lock with
  | LOCK_REC => lock_rec_find_set_bit wait_lock
  | LOCK_TABLE => 0
  end.

(** The requesting side passes the comparison with its half of the
    filter and every accept callback. *)
Definition requesting_accepted (trx : trx_t) (wait_lock : lock_t)
    (f : option lock_id_fields) : bool :=
  matches_filter wait_lock f
  && accept_requesting_transaction_id container (trx_get_id_for_print trx)
  && accept_requesting_thread_id_event_id container
       (lock_psi_thread_id wait_lock) (lock_psi_event_id wait_lock)
  && accept_requesting_lock_id container
       (print_lock_id wait_lock (requesting_heap_no wait_lock)
          engine_lock_id_size).

(** The blocking side passes the comparison with its half of the filter
    and every accept callback. *)
Definition blocking_accepted (wait_lock curr_lock : lock_t)
    (f : option lock_id_fields) : bool :=
  matches_filter curr_lock f
  && accept_blocking_transaction_id container (lock_get_trx_id curr_lock)
  && accept_blocking_thread_id_event_id container
       (lock_psi_thread_id curr_lock) (lock_psi_event_id curr_lock)
  && accept_blocking_lock_id container
       (print_lock_id curr_lock (requesting_heap_no wait_lock)
          engine_lock_id_size).

Definition wait_edge (trx : trx_t) (wait_lock : lock_t)
    (filter : option (lock_id_fields * lock_id_fields))
    (curr_lock : lock_t) : bool :=
  lock_has_to_wait wait_lock curr_lock
  && requesting_accepted trx wait_lock (option_map fst filter)
  && blocking_accepted wait_lock curr_lock (option_map snd filter).

Definition wait_row (trx : trx_t) (wait_lock curr_lock : lock_t)
  : data_lock_wait_row :=
  {| row_engine := g_engine;
     requesting_engine_lock_id :=
       print_lock_id wait_lock (requesting_heap_no wait_lock)
         engine_lock_id_size;
     requesting_trx_id := trx_get_id_for_print trx;
     requesting_thread_id := lock_psi_thread_id wait_lock;
     requesting_event_id := lock_psi_event_id wait_lock;
     requesting_identity := lock_addr wait_lock;
     blocking_engine_lock_id :=
       print_lock_id curr_lock (requesting_heap_no wait_lock)
         engine_lock_id_size;
     blocking_trx_id := lock_get_trx_id curr_lock;
     blocking_thread_id := lock_psi_thread_id curr_lock;
     blocking_event_id := lock_psi_event_id curr_lock;
     blocking_identity := lock_addr curr_lock |}.

End Edges.

End Innodb_data_lock_wait_iterator.

(* ================================================================= *)
(** ** Auxiliary definitions for the statements *)

Definition pass_rank (p : scan_pass) : nat :=
  match p with
  | INIT_SCANNING => 0
  | SCANNING_RW_TRX_LIST => 1
  | SCANNING_MYSQL_TRX_LIST => 2
  | DONE_SCANNING => 3
  end.

Definition next_pass (p : scan_pass) : option scan_pass :=
  match p with
  | INIT_SCANNING => Some SCANNING_RW_TRX_LIST
  | SCANNING_RW_TRX_LIST => Some SCANNING_MYSQL_TRX_LIST
  | SCANNING_MYSQL_TRX_LIST => Some DONE_SCANNING
  | DONE_SCANNING => None
  end.

(** The passes from [p] onwards. *)
Definition passes_from (p : scan_pass) : list scan_pass :=
  skipn (pass_rank p) all_passes.

(** The invariant of the scan state while transaction ids stay below
    [2 ^ 64 - SCAN_RANGE]: the range is [SCAN_RANGE] wide and aligned, and
    a recorded hint lies at or above its end. *)
Definition range_wf (s : Innodb_trx_scan_state) : Prop :=
  0 <= m_start_trx_id_range s
  /\ m_start_trx_id_range s mod SCAN_RANGE = 0
  /\ m_end_trx_id_range s = m_start_trx_id_range s + SCAN_RANGE
  /\ m_end_trx_id_range s < 2 ^ 64
  /\ (m_next_trx_id_range s = TRX_ID_MAX
      \/ m_end_trx_id_range s <= m_next_trx_id_range s < 2 ^ 64 - SCAN_RANGE).

(** The invariant that holds for all 64-bit transaction ids, wrap-around
    included. *)
Definition hint_wf (s : Innodb_trx_scan_state) : Prop :=
  0 <= m_end_trx_id_range s < 2 ^ 64
  /\ m_end_trx_id_range s mod SCAN_RANGE = 0
  /\ (m_next_trx_id_range s = TRX_ID_MAX
      \/ m_end_trx_id_range s <= m_next_trx_id_range s < 2 ^ 64).

Definition id_in_type (op : scan_op) : Prop :=
  match op with
  | InRange trx_id => 0 <= trx_id < 2 ^ 64
  | Advance => True
  end.

(** A session whose transaction id sits in the topmost range. *)
Definition top_of_range_session : list scan_op :=
  [Advance; InRange (2 ^ 64 - 2); Advance; InRange (2 ^ 64 - 2); Advance].

(** A session that ends its pass over the MySQL list in the second
    range. *)
Definition second_range_session : list scan_op :=
  [Advance; Advance; InRange 300; Advance; InRange 300].

(** The identity of a lock as an identifier has to carry it: what decoding
    the identifier of [lock] (of its row slot [heap_no], for a record
    lock) should give. *)
Definition lock_identity (lock : lock_t) (heap_no : Z) : lock_id_fields :=
  match lock_get_type lock with
  | LOCK_TABLE =>
      {| id_record_type := LOCK_TABLE;
         id_trx_id := lock_get_trx_id lock;
         id_table_id := lock_get_table_id lock;
         id_space_id := SPACE_UNKNOWN;
         id_page_id := FIL_NULL;
         id_heap_id := ULINT_UNDEFINED |}
  | LOCK_REC =>
      {| id_record_type := LOCK_REC;
         id_trx_id := lock_get_trx_id lock;
         id_table_id := 0;
         id_space_id := lock_rec_get_space_id lock;
         id_page_id := lock_rec_get_page_no lock;
         id_heap_id := heap_no |}
  end.

(** In the words of the specification: a lock matches a filter exactly
    when the filter is the identity its identifier encodes, that is, the
    kind, the owner transaction id, and the table id of a table lock, or
    the space id, the page id and a row slot of a record lock.  A record
    lock object has one identifier per row slot it covers. *)
Definition spec_matches_exactly (l : lock_t) (f : lock_id_fields) : bool :=
  lock_type_eqb (lock_get_type l) (id_record_type f)
  && (lock_get_trx_id l =? id_trx_id f)
  && match lock_get_type l with
     | LOCK_TABLE => lock_get_table_id l =? id_table_id f
     | LOCK_REC =>
         (lock_rec_get_space_id l =? id_space_id f)
         && (lock_rec_get_page_no l =? id_page_id f)
         && existsb (Z.eqb (id_heap_id f)) (lock_rec_set_bits l)
     end.

(** The printed fields fit the [long] they are parsed into, and the
    32-bit fields their type. *)
Definition fits_long (lock : lock_t) (heap_no : Z) : Prop :=
  0 <= lock_get_trx_id lock <= LONG_MAX
  /\ match lock_get_type lock with
     | LOCK_TABLE => 0 <= lock_get_table_id lock <= LONG_MAX
     | LOCK_REC =>
         0 <= lock_rec_get_space_id lock < 2 ^ 32
         /\ 0 <= lock_rec_get_page_no lock < 2 ^ 32
         /\ 0 <= heap_no <= LONG_MAX
     end.

(** *** The scan as a whole *)

(** The state in which [scan] is entered: a well-formed range and no hint
    recorded. *)
Definition scan_entry_wf (st : Innodb_trx_scan_state) : Prop :=
  range_wf st /\ m_next_trx_id_range st = TRX_ID_MAX.

Definition trx_ids_below_top (trx_list : list trx_t) : Prop :=
  Forall (fun trx => 0 <= trx_get_id_for_print trx < 2 ^ 64 - SCAN_RANGE)
         trx_list.

(** The transactions of a list that a scan of it has still to reach: not
    discarded, and at or above the end [e] of the current range. *)
Definition pending (read_write : bool) (trx_list : list trx_t) (e : Z) : nat :=
  List.length
    (filter (fun trx => negb (discard_trx trx read_write)
                        && (e <=? trx_get_id_for_print trx))
       trx_list).

(** Iterations that are enough for both loops of [scan]. *)
Definition scan_fuel (trx_sys : trx_sys_t) : nat :=
  S (Nat.max (List.length (rw_trx_list trx_sys))
             (List.length (mysql_trx_list trx_sys))).

(** When [scan] answers that the iterator is done. *)
Definition scan_is_done (accepts_engine : bool) (st : Innodb_trx_scan_state)
  : bool :=
  scan_pass_eqb (get_pass st) DONE_SCANNING
  || (scan_pass_eqb (get_pass st) INIT_SCANNING && negb accepts_engine).

(** [n] calls of [scan] in a row on one iterator: for each call its
    result, the pass it leaves the iterator in, and the transaction ids of
    the rows it added. *)
Fixpoint scan_calls `{lock_sys_api}
    (container : Innodb_data_lock_iterator.PSI_server_data_lock_container)
    (trx_sys : trx_sys_t) (n : nat) (st : Innodb_trx_scan_state)
    (e : effects Innodb_data_lock_iterator.data_lock_row)
  : list (bool * scan_pass * list Z) :=
  match n with
  | O => []
  | S n' =>
      match Innodb_data_lock_iterator.scan container false
              (scan_fuel trx_sys) trx_sys st e with
      | Ret (done, st', e') =>
          (done, get_pass st',
           map Innodb_data_lock_iterator.row_trx_id
             (skipn (List.length (rows e)) (rows e')))
          :: scan_calls container trx_sys n' st' e'
      | _ => []
      end
  end.

(* ================================================================= *)
(** ** Concrete inputs *)

Definition table_lock (addr trx_id table_id : Z) : lock_t :=
  {| lock_addr := addr;
     lock_get_type := LOCK_TABLE;
     lock_get_trx_id := trx_id;
     lock_get_table_id := table_id;
     lock_rec_get_space_id := 0;
     lock_rec_get_page_no := 0;
     lock_rec_bitmap := [];
     lock_psi_thread_id := 1;
     lock_psi_event_id := 1;
     lock_get_table_name := "test/t1";
     lock_rec_get_index_name := "";
     lock_get_mode_str := "X";
     lock_get_type_str := "TABLE" |}.

Definition rec_lock (addr trx_id space_id page_no : Z) (bitmap : list bool)
  : lock_t :=
  {| lock_addr := addr;
     lock_get_type := LOCK_REC;
     lock_get_trx_id := trx_id;
     lock_get_table_id := 0;
     lock_rec_get_space_id := space_id;
     lock_rec_get_page_no := page_no;
     lock_rec_bitmap := bitmap;
     lock_psi_thread_id := 1;
     lock_psi_event_id := 1;
     lock_get_table_name := "test/t1";
     lock_rec_get_index_name := "PRIMARY";
     lock_get_mode_str := "X";
     lock_get_type_str := "RECORD" |}.

(** A table lock on whose transaction id [strtol] overflows. *)
Definition far_trx_lock : lock_t := table_lock 1 (2 ^ 63) 7.


(** A container that accepts everything. *)
Definition accept_all_locks
  : Innodb_data_lock_iterator.PSI_server_data_lock_container :=
  {| Innodb_data_lock_iterator.accept_engine := fun _ => true;
     Innodb_data_lock_iterator.accept_transaction_id := fun _ => true;
     Innodb_data_lock_iterator.accept_thread_id_event_id := fun _ _ => true;
     Innodb_data_lock_iterator.accept_object := fun _ => true;
     Innodb_data_lock_iterator.accept_lock_id := fun _ => true |}.

Definition accept_all_waits
  : Innodb_data_lock_wait_iterator.PSI_server_data_lock_wait_container :=
  {| Innodb_data_lock_wait_iterator.accept_engine := fun _ => true;
     Innodb_data_lock_wait_iterator.accept_requesting_transaction_id :=
       fun _ => true;
     Innodb_data_lock_wait_iterator.accept_requesting_thread_id_event_id :=
       fun _ _ => true;
     Innodb_data_lock_wait_iterator.accept_requesting_lock_id := fun _ => true;
     Innodb_data_lock_wait_iterator.accept_blocking_transaction_id :=
       fun _ => true;
     Innodb_data_lock_wait_iterator.accept_blocking_thread_id_event_id :=
       fun _ _ => true;
     Innodb_data_lock_wait_iterator.accept_blocking_lock_id := fun _ => true |}.

(** Transaction 10 holds an intention lock on table 7, waits for slot 2
    of page 3 in space 5, and has since been given a lock on slot 1 of
    page 4 (an implicit lock of its own that another transaction turned
    into an explicit one). *)
Definition awaited_lock : lock_t := rec_lock 100 10 5 3 [false; false; true].

Definition waiting_trx : trx_t :=
  {| id := 10;
     read_only := false;
     trx_is_started := true;
     trx_get_id_for_print := 10;
     lock := {| que_state := TRX_QUE_LOCK_WAIT;
                wait_lock := Some awaited_lock;
                trx_locks := [table_lock 99 10 7;
                              awaited_lock;
                              rec_lock 101 10 5 4 [false; true]] |} |}.

(** The lock that blocks [awaited_lock]: transaction 11 holds slots 1 and
    2 of the page in one lock object, so its first set bit is 1. *)
Definition blocking_lock : lock_t := rec_lock 110 11 5 3 [false; true; true].

Definition one_blocker : lock_sys_api :=
  {| lock_has_to_wait := fun _ _ => true;
     lock_queue_prev := fun _ => [blocking_lock];
     parse_table_path := fun _ =>
       {| table_schema := Some "test";
          table_name := Some "t1";
          partition_name := None;
          subpartition_name := None |};
     p_s_fill_lock_data := fun _ _ => None |}.

(** 300 transactions with ids 0 to 299 in the RW list, one table lock
    each; nothing in the MySQL list. *)
Definition synthetic_trx (i : Z) : trx_t :=
  {| id := i;
     read_only := false;
     trx_is_started := true;
     trx_get_id_for_print := i;
     lock := {| que_state := TRX_QUE_RUNNING;
                wait_lock := None;
                trx_locks := [table_lock (1000 + i) i 7] |} |}.

Definition synthetic_trx_sys : trx_sys_t :=
  {| rw_trx_list := map (fun n => synthetic_trx (Z.of_nat n)) (seq 0 300);
     mysql_trx_list := [] |}.

Definition no_effects : effects Innodb_data_lock_iterator.data_lock_row :=
  {| rows := []; mutex_log := [] |}.

(** Two transactions in the RW list, one in the MySQL list. *)
Definition small_trx_sys : trx_sys_t :=
  {| rw_trx_list := [synthetic_trx 3; synthetic_trx 700];
     mysql_trx_list := [synthetic_trx 0] |}.

Definition waiting_trx_sys : trx_sys_t :=
  {| rw_trx_list := [waiting_trx]; mysql_trx_list := [] |}.


(* ================================================================= *)
(** ** Definitions for the further properties *)

Section ReportedLocks.
Context `{lock_sys_api}.
Variable container : Innodb_data_lock_iterator.PSI_server_data_lock_container.

(** A lock is taken into account by [scan_trx]: it matches the filter in
    kind and in table id, or in space id and page number, and the
    container accepts its thread and event and its table. *)
Definition lock_selected (filter : option lock_id_fields) (l : lock_t) : bool :=
  match filter with
  | None => true
  | Some f =>
      lock_type_eqb (lock_get_type l) (id_record_type f)
      && match lock_get_type l with
         | LOCK_TABLE => lock_get_table_id l =? id_table_id f
         | LOCK_REC =>
             (lock_rec_get_space_id l =? id_space_id f)
             && (lock_rec_get_page_no l =? id_page_id f)
         end
  end
  && Innodb_data_lock_iterator.accept_thread_id_event_id container
       (lock_psi_thread_id l) (lock_psi_event_id l)
  && Innodb_data_lock_iterator.accept_object container
       (parse_table_path (lock_get_table_name l)).

(** The row slots of a record lock that get a row. *)
Definition slot_selected (filter : option lock_id_fields) (l : lock_t)
    (heap_no : Z) : bool :=
  match filter with
  | None => true
  | Some f => heap_no =? id_heap_id f
  end
  && Innodb_data_lock_iterator.accept_lock_id container
       (print_record_lock_id l heap_no engine_lock_id_size).

(** Identity and identifier of the rows of one selected lock: one row for
    a table lock, one per selected set bit for a record lock. *)
Definition lock_row_ids (filter : option lock_id_fields) (l : lock_t)
  : list (Z * string) :=
  match lock_get_type l with
  | LOCK_TABLE =>
      if Innodb_data_lock_iterator.accept_lock_id container
           (print_table_lock_id l engine_lock_id_size)
      then [(lock_addr l, print_table_lock_id l engine_lock_id_size)]
      else []
  | LOCK_REC =>
      map (fun heap_no =>
             (lock_addr l, print_record_lock_id l heap_no engine_lock_id_size))
        (List.filter (slot_selected filter l) (lock_rec_set_bits l))
  end.

Definition trx_row_ids (filter : option lock_id_fields) (trx : trx_t)
  : list (Z * string) :=
  if Innodb_data_lock_iterator.accept_transaction_id container
       (trx_get_id_for_print trx)
  then flat_map (lock_row_ids filter)
         (List.filter (lock_selected filter) (trx_locks (lock trx)))
  else [].

End ReportedLocks.

Definition row_id (r : Innodb_data_lock_iterator.data_lock_row)
  : Z * string :=
  (Innodb_data_lock_iterator.row_identity r,
   Innodb_data_lock_iterator.row_engine_lock_id r).

(** The text of an identifier before [snprintf] cuts it to the buffer. *)
Definition lock_id_text (lock : lock_t) (heap_no : Z) : string :=
  match lock_get_type lock with
  | LOCK_TABLE =>
      fmt_u64 (lock_get_trx_id lock) ++ ":" ++ fmt_u64 (lock_get_table_id lock)
  | LOCK_REC =>
      fmt_u64 (lock_get_trx_id lock) ++ ":"
      ++ fmt_u32 (lock_rec_get_space_id lock) ++ ":"
      ++ fmt_u32 (lock_rec_get_page_no lock) ++ ":"
      ++ fmt_u64 heap_no
  end.

Section ReportedRows.
Context `{lock_sys_api}.
Variable container : Innodb_data_lock_iterator.PSI_server_data_lock_container.
Variable with_lock_data : bool.

(** The rows of one selected lock, given the status string in force. *)
Definition lock_rows (trx_id : Z) (filter : option lock_id_fields)
    (status : string) (l : lock_t)
  : list Innodb_data_lock_iterator.data_lock_row :=
  let mk index_name engine_lock_id lock_data_str :=
    {| Innodb_data_lock_iterator.row_engine := g_engine;
       Innodb_data_lock_iterator.row_engine_lock_id := engine_lock_id;
       Innodb_data_lock_iterator.row_trx_id := trx_id;
       Innodb_data_lock_iterator.row_thread_id := lock_psi_thread_id l;
       Innodb_data_lock_iterator.row_event_id := lock_psi_event_id l;
       Innodb_data_lock_iterator.row_object :=
         parse_table_path (lock_get_table_name l);
       Innodb_data_lock_iterator.row_index_name := index_name;
       Innodb_data_lock_iterator.row_identity := lock_addr l;
       Innodb_data_lock_iterator.row_lock_mode := lock_get_mode_str l;
       Innodb_data_lock_iterator.row_lock_type := lock_get_type_str l;
       Innodb_data_lock_iterator.row_lock_status := status;
       Innodb_data_lock_iterator.row_lock_data := lock_data_str |} in
  match lock_get_type l with
  | LOCK_TABLE =>
      if Innodb_data_lock_iterator.accept_lock_id container
           (print_table_lock_id l engine_lock_id_size)
      then [mk None (print_table_lock_id l engine_lock_id_size) None]
      else []
  | LOCK_REC =>
      map (fun heap_no =>
             mk (Some (lock_rec_get_index_name l))
               (print_record_lock_id l heap_no engine_lock_id_size)
               (if with_lock_data then p_s_fill_lock_data l heap_no
                else None))
        (List.filter (slot_selected container filter l) (lock_rec_set_bits l))
  end.

(** The rows of the locks of a transaction in walk order; the status
    string turns to "WAITING" at the first selected lock that is the
    awaited one and stays. *)
Fixpoint locks_rows (trx_id : Z) (wl : option lock_t)
    (filter : option lock_id_fields) (locks : list lock_t) (status : string)
  : list Innodb_data_lock_iterator.data_lock_row :=
  match locks with
  | [] => []
  | l :: rest =>
      if lock_selected container filter l then
        let status' :=
          if lock_ptr_eqb l wl then "WAITING" else status in
        (lock_rows trx_id filter status' l
         ++ locks_rows trx_id wl filter rest status')%list
      else locks_rows trx_id wl filter rest status
  end.

(** The rows [scan_trx] adds for a transaction. *)
Definition trx_rows (filter : option lock_id_fields) (trx : trx_t)
  : list Innodb_data_lock_iterator.data_lock_row :=
  if Innodb_data_lock_iterator.accept_transaction_id container
       (trx_get_id_for_print trx)
  then locks_rows (trx_get_id_for_print trx) (wait_lock (lock trx)) filter
         (trx_locks (lock trx)) "GRANTED"
  else [].

End ReportedRows.

(** [trx] is in [trx_list], is not discarded, and no other transaction of
    the list that is not discarded has its id. *)
Definition listed_once (read_write : bool) (trx_list : list trx_t)
    (trx : trx_t) : Prop :=
  In trx trx_list
  /\ discard_trx trx read_write = false
  /\ forall t, In t trx_list -> discard_trx t read_write = false ->
               trx_get_id_for_print t = trx_get_id_for_print trx -> t = trx.

(** The transaction system holds [trx] where [fetch] looks for it: in the
    RW list, or in the MySQL list while the RW list has no transaction
    with its id. *)
Definition trx_sys_holds (trx_sys : trx_sys_t) (trx : trx_t) : Prop :=
  listed_once true (rw_trx_list trx_sys) trx
  \/ (fetch_trx_in_trx_list (trx_get_id_for_print trx) true
        (rw_trx_list trx_sys) = None
      /\ listed_once false (mysql_trx_list trx_sys) trx).

(** *** The rows of a whole scan *)

Section SelectedRows.
Context {A : Type}.

(** What [scan_trx] adds for one transaction when it is not given a
    filter. *)
Variable per_trx : trx_t -> list A.

(** The rows, in list order, of the transactions of a list that are not
    discarded and whose id passes [sel]. *)
Definition selected_rows (read_write : bool) (sel : Z -> bool)
    (trx_list : list trx_t) : list A :=
  flat_map per_trx
    (List.filter
       (fun trx => negb (discard_trx trx read_write)
                   && sel (trx_get_id_for_print trx))
       trx_list).

Definition rows_from (read_write : bool) (trx_list : list trx_t) (first : Z)
  : list A :=
  selected_rows read_write (fun trx_id => first <=? trx_id) trx_list.

(** Every row of the transaction system: the RW list, then the MySQL
    list. *)
Definition all_rows (trx_sys : trx_sys_t) : list A :=
  (selected_rows true (fun _ => true) (rw_trx_list trx_sys)
   ++ selected_rows false (fun _ => true) (mysql_trx_list trx_sys))%list.

(** The rows a scan in state [st] has still to report. *)
Definition remaining (trx_sys : trx_sys_t) (st : Innodb_trx_scan_state)
  : list A :=
  match m_scan_pass st with
  | INIT_SCANNING => all_rows trx_sys
  | SCANNING_RW_TRX_LIST =>
      (rows_from true (rw_trx_list trx_sys) (m_start_trx_id_range st)
       ++ selected_rows false (fun _ => true) (mysql_trx_list trx_sys))%list
  | SCANNING_MYSQL_TRX_LIST =>
      rows_from false (mysql_trx_list trx_sys) (m_start_trx_id_range st)
  | DONE_SCANNING => []
  end.

End SelectedRows.

(** The ids of the range [[first, last)]. *)
Definition within (first last : Z) (trx_id : Z) : bool :=
  (first <=? trx_id) && (trx_id <? last).

(** Calls of [scan] in a row on one iterator, over a transaction system
    that does not change, until a call answers that the iterator is done;
    at most [calls] of them. *)
Fixpoint scan_until_done `{lock_sys_api}
    (container : Innodb_data_lock_iterator.PSI_server_data_lock_container)
    (with_lock_data : bool) (calls : nat) (trx_sys : trx_sys_t)
    (st : Innodb_trx_scan_state)
    (e : effects Innodb_data_lock_iterator.data_lock_row)
  : outcome (effects Innodb_data_lock_iterator.data_lock_row) :=
  match calls with
  | O => OutOfFuel
  | S calls' =>
      bind (Innodb_data_lock_iterator.scan container with_lock_data
              (scan_fuel trx_sys) trx_sys st e)
        (fun '(done, st, e) =>
           if (done : bool) then Ret e
           else scan_until_done container with_lock_data calls' trx_sys st e)
  end.

Section WaitRows.
Context `{lock_sys_api}.
Variable container
  : Innodb_data_lock_wait_iterator.PSI_server_data_lock_wait_container.

(** The rows of the wait iterator for one transaction when it is not
    given a filter: one per wait edge of its awaited lock. *)
Definition wait_trx_rows (trx : trx_t)
  : list Innodb_data_lock_wait_iterator.data_lock_wait_row :=
  if is_lock_wait (que_state (lock trx)) then
    match wait_lock (lock trx) with
    | Some wl =>
        map (Innodb_data_lock_wait_iterator.wait_row trx wl)
          (List.filter
             (Innodb_data_lock_wait_iterator.wait_edge container trx wl None)
             (lock_queue_prev wl))
    | None => []
    end
  else [].

(** Calls of [scan] of the wait iterator in a row, as
    [scan_until_done]. *)
Fixpoint wait_scan_until_done (calls : nat) (trx_sys : trx_sys_t)
    (st : Innodb_trx_scan_state)
    (e : effects Innodb_data_lock_wait_iterator.data_lock_wait_row)
  : outcome (effects Innodb_data_lock_wait_iterator.data_lock_wait_row) :=
  match calls with
  | O => OutOfFuel
  | S calls' =>
      bind (Innodb_data_lock_wait_iterator.scan container
              (scan_fuel trx_sys) trx_sys st e)
        (fun '(done, st, e) =>
           if (done : bool) then Ret e
           else wait_scan_until_done calls' trx_sys st e)
  end.

End WaitRows.

(** The transactions of a list that are in the lock-wait state have an
    awaited lock: what [ut_a (wait_lock != NULL)] asserts. *)
Definition waits_have_lock (trx_list : list trx_t) : Prop :=
  Forall (fun trx => is_lock_wait (que_state (lock trx)) = true ->
                     wait_lock (lock trx) <> None)
         trx_list.

(* ================================================================= *)
(** * Properties of the scan state *)

Section ScanStateFacts.

Lemma floor_range_bounds (n : Z) :
  0 <= n ->
  0 <= n - n mod SCAN_RANGE <= n
  /\ n < n - n mod SCAN_RANGE + SCAN_RANGE
  /\ (n - n mod SCAN_RANGE) mod SCAN_RANGE = 0.
Proof.
  unfold SCAN_RANGE. intros Hn.
  assert (Hm : 0 <= n mod 256 < 256) by (apply Z.mod_pos_bound; lia).
  assert (Hz : (n - n mod 256) mod 256 = 0)
    by (rewrite Zminus_mod_idemp_r, Z.sub_diag; reflexivity).
  assert (Hle : n mod 256 <= n) by (apply Z.mod_le; lia).
  generalize dependent (n mod 256). intros m Hm Hz Hle.
  repeat split; lia.
Qed.

Lemma wrap64_small (z : Z) : 0 <= z < 2 ^ 64 -> wrap64 z = z.
Proof. intros Hz. unfold wrap64. apply Z.mod_small. exact Hz. Qed.

Lemma scan_pass_eqb_eq (p q : scan_pass) : scan_pass_eqb p q = true <-> p = q.
Proof. destruct p, q; simpl; split; congruence. Qed.

Lemma scan_pass_eqb_refl (p : scan_pass) : scan_pass_eqb p p = true.
Proof. destruct p; reflexivity. Qed.

(** [trx_id_in_range] touches nothing but the hint. *)
Lemma trx_id_in_range_frame (trx_id : Z) (s : Innodb_trx_scan_state) :
  let s' := snd (trx_id_in_range trx_id s) in
  m_scan_pass s' = m_scan_pass s
  /\ m_start_trx_id_range s' = m_start_trx_id_range s
  /\ m_end_trx_id_range s' = m_end_trx_id_range s.
Proof.
  unfold trx_id_in_range.
  destruct (_ && _); [auto|]. destruct (_ && _); simpl; auto.
Qed.

Lemma trx_id_in_range_hint (trx_id : Z) (s : Innodb_trx_scan_state) :
  let s' := snd (trx_id_in_range trx_id s) in
  m_next_trx_id_range s' = m_next_trx_id_range s
  \/ (m_next_trx_id_range s' = trx_id /\ m_end_trx_id_range s <= trx_id).
Proof.
  unfold trx_id_in_range.
  destruct (_ && _); [auto|].
  destruct (_ && _) eqn:E; simpl; auto.
  apply andb_true_iff in E. destruct E as [E _]. right. split; [reflexivity|lia].
Qed.

(** [prepare_next_scan] keeps the pass or enters the next one. *)
Lemma prepare_next_scan_pass (s s' : Innodb_trx_scan_state) :
  prepare_next_scan s = Ret s' ->
  (m_next_trx_id_range s <> TRX_ID_MAX /\ m_scan_pass s' = m_scan_pass s)
  \/ (m_next_trx_id_range s = TRX_ID_MAX
      /\ next_pass (m_scan_pass s) = Some (m_scan_pass s')).
Proof.
  unfold prepare_next_scan.
  destruct (m_next_trx_id_range s =? TRX_ID_MAX) eqn:E; simpl.
  - apply Z.eqb_eq in E. destruct (m_scan_pass s); intros [=<-]; simpl; auto.
  - apply Z.eqb_neq in E. intros [=<-]; simpl; auto.
Qed.

Lemma step_pass (op : scan_op) (s s' : Innodb_trx_scan_state) :
  step op s = Ret s' ->
  m_scan_pass s' = m_scan_pass s
  \/ next_pass (m_scan_pass s) = Some (m_scan_pass s').
Proof.
  destruct op as [trx_id|]; simpl.
  - intros [=<-]. left. apply trx_id_in_range_frame.
  - intros Hs. apply prepare_next_scan_pass in Hs. tauto.
Qed.

Lemma passes_from_next (p q : scan_pass) :
  next_pass p = Some q -> passes_from p = p :: passes_from q.
Proof. destruct p; intros [=<-]; reflexivity. Qed.

Lemma next_pass_neq (p q : scan_pass) :
  next_pass p = Some q -> scan_pass_eqb p q = false.
Proof. destruct p; intros [=<-]; reflexivity. Qed.

Lemma states_head (ops : list scan_op) (s : Innodb_trx_scan_state) :
  states ops s = s :: tl (states ops s).
Proof. destruct ops; reflexivity. Qed.

(** From any state on, the passes entered are an initial segment of the
    passes that follow the current one. *)
Lemma passes_entered_segment (ops : list scan_op) :
  forall s, exists k,
    passes_entered (map m_scan_pass (states ops s))
    = firstn (S k) (passes_from (m_scan_pass s)).
Proof.
  induction ops as [|op ops IH]; intros s.
  - exists O. simpl. destruct (m_scan_pass s); reflexivity.
  - simpl states. destruct (step op s) as [s'| |] eqn:Hstep;
      try (exists O; simpl; destruct (m_scan_pass s); reflexivity).
    destruct (IH s') as [k Hk].
    rewrite states_head in Hk |- *.
    destruct (step_pass _ _ _ Hstep) as [Hsame|Hnext].
    + exists k.
      change (passes_entered (map m_scan_pass (s :: s' :: tl (states ops s'))))
        with (if scan_pass_eqb (m_scan_pass s) (m_scan_pass s')
              then passes_entered (map m_scan_pass (s' :: tl (states ops s')))
              else m_scan_pass s
                   :: passes_entered (map m_scan_pass (s' :: tl (states ops s')))).
      rewrite <- Hsame, scan_pass_eqb_refl. exact Hk.
    + exists (S k).
      change (passes_entered (map m_scan_pass (s :: s' :: tl (states ops s'))))
        with (if scan_pass_eqb (m_scan_pass s) (m_scan_pass s')
              then passes_entered (map m_scan_pass (s' :: tl (states ops s')))
              else m_scan_pass s
                   :: passes_entered (map m_scan_pass (s' :: tl (states ops s')))).
      rewrite (next_pass_neq _ _ Hnext), Hk, (passes_from_next _ _ Hnext).
      reflexivity.
Qed.

(** C4.  Over any session of [trx_id_in_range] and [prepare_next_scan]
    calls on a fresh scan state, the passes are entered in the order
    INIT_SCANNING, SCANNING_RW_TRX_LIST, SCANNING_MYSQL_TRX_LIST,
    DONE_SCANNING, each at most once: the passes entered are an initial
    segment of that list, and all of it once the session is done. *)
Theorem passes_never_revisited (ops : list scan_op) :
  let entered :=
    passes_entered (map m_scan_pass (states ops scan_state_init)) in
  (exists k, entered = firstn k all_passes)
  /\ (In DONE_SCANNING entered -> entered = all_passes).
Proof.
  destruct (passes_entered_segment ops scan_state_init) as [k Hk].
  change (passes_from (m_scan_pass scan_state_init)) with all_passes in Hk.
  cbv zeta. rewrite Hk. split.
  - exists (S k). reflexivity.
  - do 3 (destruct k as [|k]; [simpl; intuition discriminate|]).
    intros _. destruct k; reflexivity.
Qed.

Lemma passes_never_revisited_witness :
  In DONE_SCANNING
    (passes_entered
       (map m_scan_pass (states [Advance; Advance; Advance] scan_state_init)))
  /\ passes_entered
       (map m_scan_pass (states [Advance; Advance; Advance] scan_state_init))
     = all_passes.
Proof.
  split.
  - simpl. auto.
  - apply (passes_never_revisited [Advance; Advance; Advance]). simpl. auto.
Defined.

End ScanStateFacts.

Section RangeFacts.

(** C2 (amended).  [prepare_next_scan] on a state whose hint is a 64-bit
    value: with a recorded hint the pass is kept, the range starts at the
    hint rounded down to a multiple of [SCAN_RANGE] and ends [SCAN_RANGE]
    above its start in 64-bit arithmetic (exactly [SCAN_RANGE] above for
    hints below [2 ^ 64 - SCAN_RANGE]), and the hint is cleared; without a
    hint, INIT_SCANNING and SCANNING_RW_TRX_LIST move to the next pass
    with the range reset to [0, SCAN_RANGE), SCANNING_MYSQL_TRX_LIST moves
    to DONE_SCANNING and leaves the range as it is, and DONE_SCANNING
    aborts. *)
Theorem prepare_next_scan_cases (s : Innodb_trx_scan_state) :
  0 <= m_next_trx_id_range s <= TRX_ID_MAX ->
  (m_next_trx_id_range s <> TRX_ID_MAX ->
   let start :=
     m_next_trx_id_range s - m_next_trx_id_range s mod SCAN_RANGE in
   prepare_next_scan s
   = Ret {| m_scan_pass := m_scan_pass s;
            m_start_trx_id_range := start;
            m_end_trx_id_range := wrap64 (start + SCAN_RANGE);
            m_next_trx_id_range := TRX_ID_MAX |}
   /\ start mod SCAN_RANGE = 0
   /\ start <= m_next_trx_id_range s < start + SCAN_RANGE
   /\ (m_next_trx_id_range s < 2 ^ 64 - SCAN_RANGE ->
       wrap64 (start + SCAN_RANGE) = start + SCAN_RANGE))
  /\ (m_next_trx_id_range s = TRX_ID_MAX ->
      prepare_next_scan s
      = match m_scan_pass s with
        | INIT_SCANNING =>
            Ret {| m_scan_pass := SCANNING_RW_TRX_LIST;
                   m_start_trx_id_range := 0;
                   m_end_trx_id_range := SCAN_RANGE;
                   m_next_trx_id_range := TRX_ID_MAX |}
        | SCANNING_RW_TRX_LIST =>
            Ret {| m_scan_pass := SCANNING_MYSQL_TRX_LIST;
                   m_start_trx_id_range := 0;
                   m_end_trx_id_range := SCAN_RANGE;
                   m_next_trx_id_range := TRX_ID_MAX |}
        | SCANNING_MYSQL_TRX_LIST =>
            Ret {| m_scan_pass := DONE_SCANNING;
                   m_start_trx_id_range := m_start_trx_id_range s;
                   m_end_trx_id_range := m_end_trx_id_range s;
                   m_next_trx_id_range := TRX_ID_MAX |}
        | DONE_SCANNING => Fatal
        end).
Proof.
  intros Hnext. split.
  - intros Hhint start.
    destruct (floor_range_bounds (m_next_trx_id_range s)) as (Hb & Hlt & Hmod);
      [lia|].
    fold start in Hb, Hlt, Hmod.
    assert (Hw : wrap64 start = start)
      by (apply wrap64_small; unfold TRX_ID_MAX in Hnext; lia).
    repeat split; try lia; try assumption.
    + unfold prepare_next_scan.
      apply Z.eqb_neq in Hhint. rewrite Hhint. simpl negb. cbv iota.
      fold start. rewrite Hw. reflexivity.
    + intros Hlow. apply wrap64_small. unfold SCAN_RANGE in *. lia.
  - intros Hhint. unfold prepare_next_scan.
    rewrite Hhint, Z.eqb_refl. simpl negb. cbv iota.
    destruct (m_scan_pass s); reflexivity.
Qed.

Lemma prepare_next_scan_cases_witness :
  0 <= m_next_trx_id_range scan_state_init <= TRX_ID_MAX
  /\ prepare_next_scan scan_state_init
     = Ret {| m_scan_pass := SCANNING_RW_TRX_LIST;
              m_start_trx_id_range := 0;
              m_end_trx_id_range := SCAN_RANGE;
              m_next_trx_id_range := TRX_ID_MAX |}.
Proof.
  assert (H : 0 <= m_next_trx_id_range scan_state_init <= TRX_ID_MAX)
    by (vm_compute; split; discriminate).
  split; [exact H|].
  exact (proj2 (prepare_next_scan_cases scan_state_init H) eq_refl).
Defined.

(** C2, as stated, fails: at the end of the pass over the MySQL list no
    hint is recorded, the state moves to the next pass, and the range is
    left at [256, 512) instead of being reset to [0, 256). *)
Lemma prepare_next_scan_keeps_last_range :
  exists s s',
    run second_range_session scan_state_init = Ret s
    /\ m_next_trx_id_range s = TRX_ID_MAX
    /\ prepare_next_scan s = Ret s'
    /\ m_scan_pass s = SCANNING_MYSQL_TRX_LIST
    /\ m_scan_pass s' = DONE_SCANNING
    /\ m_start_trx_id_range s' = 256
    /\ m_end_trx_id_range s' = 512.
Proof.
  eexists. eexists. split; [vm_compute; reflexivity|].
  split; [reflexivity|]. split; [vm_compute; reflexivity|].
  repeat split.
Qed.

(** *** Ranges within a pass *)

Lemma range_wf_init : range_wf scan_state_init.
Proof.
  unfold range_wf. cbn [scan_state_init m_start_trx_id_range
    m_end_trx_id_range m_next_trx_id_range].
  repeat split; try reflexivity; try (vm_compute; discriminate).
  left. reflexivity.
Qed.

Lemma range_wf_in_range (trx_id : Z) (s : Innodb_trx_scan_state) :
  range_wf s -> 0 <= trx_id < 2 ^ 64 - SCAN_RANGE ->
  range_wf (snd (trx_id_in_range trx_id s)).
Proof.
  intros (H0 & Hal & He & Hlt & Hh) Hid.
  destruct (trx_id_in_range_frame trx_id s) as (_ & Hs & Hend).
  destruct (trx_id_in_range_hint trx_id s) as [Hn|[Hn Hle]];
    unfold range_wf; rewrite Hs, Hend, Hn; repeat split; auto; try lia.
Qed.

Lemma range_wf_prepare (s s' : Innodb_trx_scan_state) :
  range_wf s -> prepare_next_scan s = Ret s' ->
  range_wf s'
  /\ (pass_rank (m_scan_pass s) <= pass_rank (m_scan_pass s'))%nat
  /\ (m_scan_pass s' = m_scan_pass s ->
      m_end_trx_id_range s <= m_start_trx_id_range s').
Proof.
  intros (H0 & Hal & He & Hlt & Hh) Hs.
  unfold prepare_next_scan in Hs.
  destruct (m_next_trx_id_range s =? TRX_ID_MAX) eqn:E; simpl in Hs.
  - apply Z.eqb_eq in E.
    destruct (m_scan_pass s) eqn:Hp; inversion Hs; subst s'; clear Hs;
      unfold range_wf;
      cbn [m_scan_pass m_start_trx_id_range m_end_trx_id_range
           m_next_trx_id_range pass_rank];
      (split; [|split; [lia|discriminate]]);
      unfold SCAN_RANGE, TRX_ID_MAX in *;
      repeat split; try reflexivity; try lia; auto.
  - apply Z.eqb_neq in E. destruct Hh as [Hh|Hh]; [contradiction|].
    destruct (floor_range_bounds (m_next_trx_id_range s)) as (Hb & Hb' & Hmod);
      [unfold SCAN_RANGE in *; lia|].
    set (start := m_next_trx_id_range s - m_next_trx_id_range s mod SCAN_RANGE)
      in *.
    assert (Hge : m_end_trx_id_range s <= start).
    { unfold SCAN_RANGE in *.
      assert (Hq := Z.div_mod (m_start_trx_id_range s) 256 ltac:(lia)).
      assert (Hq' := Z.div_mod start 256 ltac:(lia)).
      rewrite Hal in Hq. rewrite Hmod in Hq'. lia. }
    rewrite (wrap64_small start) in Hs by (unfold SCAN_RANGE in *; lia).
    rewrite (wrap64_small (start + SCAN_RANGE)) in Hs
      by (unfold SCAN_RANGE in *; lia).
    inversion Hs; subst s'; clear Hs. unfold range_wf.
    cbn [m_scan_pass m_start_trx_id_range m_end_trx_id_range
         m_next_trx_id_range pass_rank].
    unfold SCAN_RANGE, TRX_ID_MAX in *. repeat split; auto; lia.
Qed.

Lemma pass_rank_inj (p q : scan_pass) : pass_rank p = pass_rank q -> p = q.
Proof. destruct p, q; simpl; congruence. Qed.

(** Every later range of the session is well formed, belongs to the same
    or a later pass, and in the same pass starts at or above the end of
    the current one. *)
Lemma ranges_above (ops : list scan_op) :
  forall s, range_wf s -> Forall id_below_top ops ->
  Forall (fun b =>
            range_wf b
            /\ (pass_rank (m_scan_pass s) <= pass_rank (m_scan_pass b))%nat
            /\ (m_scan_pass b = m_scan_pass s ->
                m_end_trx_id_range s <= m_start_trx_id_range b))
         (ranges ops s).
Proof.
  induction ops as [|op ops IH]; intros s Hwf Hops; [constructor|].
  inversion Hops as [|? ? Hop Hops']; subst.
  destruct op as [trx_id|]; simpl.
  - destruct (trx_id_in_range_frame trx_id s) as (Hp & _ & He).
    specialize (IH _ (range_wf_in_range trx_id s Hwf Hop) Hops').
    rewrite Hp, He in IH. exact IH.
  - destruct (prepare_next_scan s) as [s'| |] eqn:Hs; try constructor.
    + destruct (range_wf_prepare _ _ Hwf Hs) as (Hwf' & Hrk & Hab). tauto.
    + destruct (range_wf_prepare _ _ Hwf Hs) as (Hwf' & Hrk & Hab).
      specialize (IH _ Hwf' Hops').
      eapply Forall_impl; [|exact IH]. cbv beta.
      intros b (Hb & Hrk' & Hab'). split; [exact Hb|]. split; [lia|].
      intros Hpb.
      assert (Hps : m_scan_pass s' = m_scan_pass s)
        by (apply pass_rank_inj; rewrite Hpb in Hrk'; lia).
      destruct Hwf' as (_ & _ & He' & _).
      specialize (Hab Hps). rewrite Hpb, <- Hps in Hab'.
      specialize (Hab' eq_refl). unfold SCAN_RANGE in *. lia.
Qed.

Lemma range_wf_nonempty (s : Innodb_trx_scan_state) :
  range_wf s -> m_start_trx_id_range s < m_end_trx_id_range s.
Proof. intros (_ & _ & He & _). unfold SCAN_RANGE in He. lia. Qed.

Lemma ranges_sorted (ops : list scan_op) :
  forall s, range_wf s -> Forall id_below_top ops ->
  StronglySorted in_same_pass_before (s :: ranges ops s).
Proof.
  assert (Htail : forall ops s, range_wf s -> Forall id_below_top ops ->
            StronglySorted in_same_pass_before (ranges ops s)).
  { clear ops. induction ops as [|op ops IH]; intros s Hwf Hops;
      [constructor|].
    inversion Hops as [|? ? Hop Hops']; subst.
    destruct op as [trx_id|]; simpl.
    - apply IH; [apply range_wf_in_range|]; assumption.
    - destruct (prepare_next_scan s) as [s'| |] eqn:Hs; try constructor.
      + apply IH; [apply (range_wf_prepare _ _ Hwf Hs)|assumption].
      + destruct (range_wf_prepare _ _ Hwf Hs) as (Hwf' & _).
        eapply Forall_impl; [|exact (ranges_above ops s' Hwf' Hops')].
        cbv beta. intros b (Hb & _ & Hab) Hp.
        apply range_wf_nonempty in Hb. apply range_wf_nonempty in Hwf'.
        unfold range_before. symmetry in Hp. specialize (Hab Hp). lia. }
  intros s Hwf Hops. constructor; [apply Htail; assumption|].
  eapply Forall_impl; [|exact (ranges_above ops s Hwf Hops)].
  cbv beta. intros b (Hb & _ & Hab) Hp.
  apply range_wf_nonempty in Hb. apply range_wf_nonempty in Hwf.
  unfold range_before. symmetry in Hp. specialize (Hab Hp). lia.
Qed.

(** *** The hint invariant, for all 64-bit ids *)

Lemma hint_wf_init : hint_wf scan_state_init.
Proof.
  unfold hint_wf. cbn [scan_state_init m_end_trx_id_range m_next_trx_id_range].
  repeat split; try reflexivity; try (vm_compute; discriminate).
  left. reflexivity.
Qed.

Lemma hint_wf_step (op : scan_op) (s s' : Innodb_trx_scan_state) :
  hint_wf s -> id_in_type op -> step op s = Ret s' ->
  hint_wf s'
  /\ (op = Advance -> m_scan_pass s' = m_scan_pass s ->
      m_end_trx_id_range s <= m_start_trx_id_range s').
Proof.
  intros (He & Hal & Hh) Hop Hs. destruct op as [trx_id|]; simpl in *.
  - inversion Hs; subst s'; clear Hs. split; [|discriminate].
    destruct (trx_id_in_range_frame trx_id s) as (_ & _ & Hend).
    destruct (trx_id_in_range_hint trx_id s) as [Hn|[Hn Hle]];
      unfold hint_wf; rewrite Hend, Hn; repeat split; auto; try lia.
  - unfold prepare_next_scan in Hs.
    destruct (m_next_trx_id_range s =? TRX_ID_MAX) eqn:E; simpl in Hs.
    + apply Z.eqb_eq in E.
      destruct (m_scan_pass s) eqn:Hp; inversion Hs; subst s'; clear Hs;
        unfold hint_wf;
        cbn [m_scan_pass m_start_trx_id_range m_end_trx_id_range
             m_next_trx_id_range];
        (split; [|intros _; discriminate]);
        unfold SCAN_RANGE, TRX_ID_MAX in *;
        repeat split; try reflexivity; try lia; auto.
    + apply Z.eqb_neq in E. destruct Hh as [Hh|Hh]; [contradiction|].
      destruct (floor_range_bounds (m_next_trx_id_range s))
        as (Hb & Hb' & Hmod); [lia|].
      unfold SCAN_RANGE in Hal.
      set (start :=
             m_next_trx_id_range s - m_next_trx_id_range s mod SCAN_RANGE) in *.
      assert (Hge : m_end_trx_id_range s <= start).
      { unfold SCAN_RANGE in *.
        assert (Hq := Z.div_mod (m_end_trx_id_range s) 256 ltac:(lia)).
        assert (Hq' := Z.div_mod start 256 ltac:(lia)).
        rewrite Hal in Hq. rewrite Hmod in Hq'. lia. }
      rewrite (wrap64_small start) in Hs by lia.
      inversion Hs; subst s'; clear Hs. unfold hint_wf.
      cbn [m_scan_pass m_start_trx_id_range m_end_trx_id_range
           m_next_trx_id_range].
      split; [|intros _ _; exact Hge].
      unfold wrap64, SCAN_RANGE in *.
      assert (Hq' := Z.div_mod start 256 ltac:(lia)). rewrite Hmod in Hq'.
      assert (Hcase : start + 256 < 2 ^ 64 \/ start + 256 = 2 ^ 64) by lia.
      destruct Hcase as [Hc|Hc].
      * rewrite Z.mod_small by lia. repeat split; auto; try lia.
        rewrite <- Zplus_mod_idemp_l, Hmod. reflexivity.
      * rewrite Hc. repeat split; auto; try reflexivity; discriminate.
Qed.

Lemma hint_wf_run (ops : list scan_op) :
  forall s s', hint_wf s -> Forall id_in_type ops -> run ops s = Ret s' ->
  hint_wf s'.
Proof.
  induction ops as [|op ops IH]; intros s s' Hwf Hops; simpl.
  - intros [=<-]. exact Hwf.
  - inversion Hops as [|? ? Hop Hops']; subst.
    destruct (step op s) as [s1| |] eqn:Hstep; simpl; try discriminate.
    apply IH; [|exact Hops'].
    apply (hint_wf_step op s s1 Hwf Hop Hstep).
Qed.

(** C3 (amended).  In a session of [trx_id_in_range] and
    [prepare_next_scan] calls on a fresh scan state in which every
    transaction id queried is below [2 ^ 64 - SCAN_RANGE], the successive
    ranges of one pass are non-empty, strictly increasing and pairwise
    disjoint: each range of a pass ends at or below the start of every
    later range of that pass.  For any 64-bit transaction ids, a range
    entered within a pass still starts at or above the end of the range it
    replaces. *)
Theorem ranges_increase_within_pass (ops : list scan_op) :
  (Forall id_below_top ops ->
   StronglySorted in_same_pass_before
     (scan_state_init :: ranges ops scan_state_init))
  /\ (Forall id_in_type ops ->
      forall s s',
        run ops scan_state_init = Ret s ->
        prepare_next_scan s = Ret s' ->
        m_scan_pass s' = m_scan_pass s ->
        m_end_trx_id_range s <= m_start_trx_id_range s').
Proof.
  split.
  - apply ranges_sorted. exact range_wf_init.
  - intros Hops s s' Hrun Hprep Hpass.
    pose proof (hint_wf_run ops _ _ hint_wf_init Hops Hrun) as Hwf.
    destruct (hint_wf_step Advance s s' Hwf I Hprep) as [_ Hle].
    exact (Hle eq_refl Hpass).
Qed.

Lemma ranges_increase_within_pass_witness :
  Forall id_below_top [Advance; InRange 700; InRange 300; Advance]
  /\ StronglySorted in_same_pass_before
       (scan_state_init
        :: ranges [Advance; InRange 700; InRange 300; Advance]
             scan_state_init).
Proof.
  assert (H : Forall id_below_top [Advance; InRange 700; InRange 300; Advance]).
  { repeat constructor; vm_compute; discriminate. }
  split; [exact H|].
  exact (proj1 (ranges_increase_within_pass _) H).
Defined.

(** C3, as stated, fails at the top of the 64-bit id space: for the
    transaction id [2 ^ 64 - 2] the end of the range wraps to 0, the id is
    never in range, and the pass over the RW list moves to the same range
    again. *)
Lemma ranges_repeat_at_top :
  map (fun s => (m_scan_pass s, m_start_trx_id_range s, m_end_trx_id_range s))
      (ranges top_of_range_session scan_state_init)
  = [(SCANNING_RW_TRX_LIST, 0, 256);
     (SCANNING_RW_TRX_LIST, 2 ^ 64 - 256, 0);
     (SCANNING_RW_TRX_LIST, 2 ^ 64 - 256, 0)]
  /\ ~ StronglySorted in_same_pass_before
         (scan_state_init :: ranges top_of_range_session scan_state_init).
Proof.
  split; [vm_compute; reflexivity|].
  intros Hs.
  change (ranges top_of_range_session scan_state_init)
    with [{| m_scan_pass := SCANNING_RW_TRX_LIST;
             m_start_trx_id_range := 0;
             m_end_trx_id_range := 256;
             m_next_trx_id_range := TRX_ID_MAX |};
          {| m_scan_pass := SCANNING_RW_TRX_LIST;
             m_start_trx_id_range := 2 ^ 64 - 256;
             m_end_trx_id_range := 0;
             m_next_trx_id_range := TRX_ID_MAX |};
          {| m_scan_pass := SCANNING_RW_TRX_LIST;
             m_start_trx_id_range := 2 ^ 64 - 256;
             m_end_trx_id_range := 0;
             m_next_trx_id_range := TRX_ID_MAX |}] in Hs.
  apply StronglySorted_inv in Hs. destruct Hs as [Hs _].
  apply StronglySorted_inv in Hs. destruct Hs as [Hs _].
  apply StronglySorted_inv in Hs. destruct Hs as [_ Hall].
  apply Forall_inv in Hall.
  destruct (Hall eq_refl) as (Hlt & _).
  cbn [m_start_trx_id_range m_end_trx_id_range] in Hlt. lia.
Qed.

End RangeFacts.

(* ================================================================= *)
(** * Properties of the lock-id codec *)

Section CodecFacts.

Lemma append_assoc (a b c : string) :
  ((a ++ b) ++ c)%string = (a ++ (b ++ c))%string.
Proof. induction a as [|x a IH]; simpl; [reflexivity|]. now rewrite IH. Qed.

Lemma append_nil_r (a : string) : (a ++ "")%string = a.
Proof. induction a as [|x a IH]; simpl; [reflexivity|]. now rewrite IH. Qed.

Lemma length_append (a b : string) :
  String.length (a ++ b) = (String.length a + String.length b)%nat.
Proof. induction a as [|x a IH]; simpl; [reflexivity|]. now rewrite IH. Qed.

Lemma take_all (n : nat) (s : string) :
  (String.length s <= n)%nat -> take n s = s.
Proof.
  revert n. induction s as [|c s IH]; intros [|n] Hn; simpl in *;
    try reflexivity; try lia.
  rewrite IH by lia. reflexivity.
Qed.

Lemma digit_cases (d : Z) :
  0 <= d < 10 ->
  d = 0 \/ d = 1 \/ d = 2 \/ d = 3 \/ d = 4 \/ d = 5 \/ d = 6 \/ d = 7
  \/ d = 8 \/ d = 9.
Proof. lia. Qed.

Lemma digit_val_char (d : Z) :
  0 <= d < 10 -> digit_val (digit_char d) = Some d.
Proof.
  intros Hd. destruct (digit_cases d Hd) as [H|[H|[H|[H|[H|[H|[H|[H|[H|H]]]]]]]]];
    subst d; reflexivity.
Qed.

Lemma strtol_digits_seen (s : string) :
  forall a v seen rest,
    strtol_digits s a true = (v, seen, rest) -> seen = true.
Proof.
  induction s as [|c s IH]; intros a v seen rest; simpl.
  - congruence.
  - destruct (digit_val c); [apply IH|congruence].
Qed.

Lemma strtol_digits_stop (s : string) (a : Z) (seen : bool) :
  digit_val (deref s) = None -> strtol_digits s a seen = (a, seen, s).
Proof. destruct s as [|c s]; simpl; [reflexivity|]. now intros ->. Qed.

(** On a string that starts with a digit, [strtol] skips nothing and
    reads no sign. *)
Lemma strtol_digit_head (c : ascii) (r : string) (v : Z) (seen : bool)
    (rest : string) :
  digit_val c <> None ->
  strtol_digits (String c r) 0 false = (v, seen, rest) ->
  strtol (String c r) = (clamp_long v, rest).
Proof.
  intros Hc Hd.
  assert (Hseen : seen = true).
  { simpl in Hd. destruct (digit_val c); [|congruence].
    apply (strtol_digits_seen _ _ _ _ _ Hd). }
  subst seen. unfold strtol.
  assert (Hsp : skip_space (String c r) = String c r).
  { destruct c as [[] [] [] [] [] [] [] []]; try reflexivity;
      exfalso; apply Hc; reflexivity. }
  rewrite Hsp.
  assert (Hsg : match String c r with
                | String "-"%char r0 => (true, r0)
                | String "+"%char r0 => (false, r0)
                | _ => (false, String c r)
                end = (false, String c r)).
  { destruct c as [[] [] [] [] [] [] [] []]; try reflexivity;
      exfalso; apply Hc; reflexivity. }
  rewrite Hsg, Hd. reflexivity.
Qed.

(** Parsing the digits [print_digits] wrote gives the number back. *)
Lemma strtol_digits_print (fuel : nat) :
  forall n tl, 0 <= n < 10 ^ Z.of_nat (S fuel) ->
  exists k, 0 <= k /\ forall a seen,
    strtol_digits (print_digits (S fuel) n tl) a seen
    = strtol_digits tl (a * 10 ^ k + n) true.
Proof.
  induction fuel as [|fuel IH]; intros n tl Hn.
  - exists 1. split; [lia|]. intros a seen.
    assert (Hq : n / 10 = 0) by (apply Z.div_small; simpl in Hn; lia).
    assert (Hr : n mod 10 = n) by (apply Z.mod_small; simpl in Hn; lia).
    simpl. rewrite Hq, Hr. simpl.
    rewrite digit_val_char by (simpl in Hn; lia).
    f_equal; lia.
  - assert (Hm : 0 <= n mod 10 < 10) by (apply Z.mod_pos_bound; lia).
    assert (Hdm := Z.div_mod n 10 ltac:(lia)).
    cbn [print_digits]. destruct (n / 10 =? 0) eqn:Hq.
    + apply Z.eqb_eq in Hq. exists 1. split; [lia|]. intros a seen.
      cbn [strtol_digits]. rewrite digit_val_char by lia.
      f_equal; lia.
    + apply Z.eqb_neq in Hq.
      assert (Hn' : 0 <= n / 10 < 10 ^ Z.of_nat (S fuel)).
      { split; [apply Z.div_pos; lia|].
        apply Z.div_lt_upper_bound; [lia|].
        replace (Z.of_nat (S (S fuel))) with (Z.of_nat (S fuel) + 1) in Hn
          by lia.
        rewrite Z.pow_add_r in Hn by lia. lia. }
      destruct (IH (n / 10) (String (digit_char (n mod 10)) tl) Hn')
        as (k & Hk & Hparse).
      exists (k + 1). split; [lia|]. intros a seen.
      rewrite Hparse. cbn [strtol_digits]. rewrite digit_val_char by lia.
      f_equal. rewrite Z.pow_add_r by lia. lia.
Qed.

Lemma print_digits_head (fuel : nat) :
  forall n tl, 0 <= n ->
  exists c r, digit_val c <> None /\ print_digits (S fuel) n tl = String c r.
Proof.
  induction fuel as [|fuel IH]; intros n tl Hn.
  - assert (Hm : 0 <= n mod 10 < 10) by (apply Z.mod_pos_bound; lia).
    exists (digit_char (n mod 10)), tl. split.
    + rewrite digit_val_char by lia. discriminate.
    + simpl. destruct (n / 10 =? 0); reflexivity.
  - cbn [print_digits]. destruct (n / 10 =? 0).
    + assert (Hm : 0 <= n mod 10 < 10) by (apply Z.mod_pos_bound; lia).
      exists (digit_char (n mod 10)), tl. split; [|reflexivity].
      rewrite digit_val_char by lia. discriminate.
    + apply IH. apply Z.div_pos; lia.
Qed.

Lemma print_digits_app (fuel : nat) :
  forall n tl, print_digits fuel n tl = (print_digits fuel n "" ++ tl)%string.
Proof.
  induction fuel as [|fuel IH]; intros n tl; [reflexivity|].
  cbn [print_digits]. destruct (n / 10 =? 0); [reflexivity|].
  rewrite (IH _ (String _ tl)), (IH _ (String _ "")), append_assoc.
  reflexivity.
Qed.

Lemma print_digits_length (fuel : nat) :
  forall n tl,
    (String.length (print_digits fuel n tl) <= fuel + String.length tl)%nat.
Proof.
  induction fuel as [|fuel IH]; intros n tl; [simpl; lia|].
  cbn [print_digits]. destruct (n / 10 =? 0); [simpl; lia|].
  specialize (IH (n / 10) (String (digit_char (n mod 10)) tl)).
  simpl in IH. lia.
Qed.

(** [strtol] on a printed number followed by something that is not a
    digit: the number, clamped to [long], and what follows. *)
Lemma strtol_print (fuel : nat) (n : Z) (tl : string) :
  0 <= n < 10 ^ Z.of_nat (S fuel) ->
  digit_val (deref tl) = None ->
  strtol (print_digits (S fuel) n tl) = (clamp_long n, tl).
Proof.
  intros Hn Htl.
  destruct (print_digits_head fuel n tl) as (c & r & Hc & Hp); [lia|].
  destruct (strtol_digits_print fuel n tl Hn) as (k & _ & Hparse).
  specialize (Hparse 0 false).
  rewrite (strtol_digits_stop tl) in Hparse by exact Htl.
  rewrite Hp in Hparse |- *.
  rewrite (strtol_digit_head _ _ _ _ _ Hc Hparse).
  rewrite Z.mul_0_l, Z.add_0_l. reflexivity.
Qed.

Lemma strtol_fmt_u64 (n : Z) (tl : string) :
  0 <= n < 2 ^ 64 -> digit_val (deref tl) = None ->
  strtol (fmt_u64 n ++ tl) = (clamp_long n, tl).
Proof.
  intros Hn Htl. unfold fmt_u64. rewrite <- print_digits_app.
  rewrite wrap64_small by exact Hn.
  apply strtol_print; [|exact Htl].
  change (10 ^ Z.of_nat 20) with 100000000000000000000.
  change (2 ^ 64) with 18446744073709551616 in Hn. lia.
Qed.

Lemma strtol_fmt_u32 (n : Z) (tl : string) :
  0 <= n < 2 ^ 32 -> digit_val (deref tl) = None ->
  strtol (fmt_u32 n ++ tl) = (clamp_long n, tl).
Proof.
  intros Hn Htl. unfold fmt_u32. rewrite <- print_digits_app.
  unfold wrap32. rewrite Z.mod_small by exact Hn.
  apply strtol_print; [|exact Htl].
  change (10 ^ Z.of_nat 10) with 10000000000.
  change (2 ^ 32) with 4294967296 in Hn. lia.
Qed.

Lemma clamp_long_fits (n : Z) : 0 <= n <= LONG_MAX -> clamp_long n = n.
Proof.
  intros Hn. unfold clamp_long, LONG_MIN.
  destruct (n >? LONG_MAX) eqn:E1; [lia|].
  destruct (n <? - 2 ^ 63) eqn:E2; [lia|reflexivity].
Qed.

Lemma fmt_u64_length (n : Z) : (String.length (fmt_u64 n) <= 20)%nat.
Proof.
  unfold fmt_u64. pose proof (print_digits_length 20 (wrap64 n) "") as Hl.
  cbn [String.length] in Hl. lia.
Qed.

Lemma fmt_u32_length (n : Z) : (String.length (fmt_u32 n) <= 10)%nat.
Proof.
  unfold fmt_u32. pose proof (print_digits_length 10 (wrap32 n) "") as Hl.
  cbn [String.length] in Hl. lia.
Qed.

(** The buffers of p_s.cc are large enough: nothing is cut off. *)
Lemma print_table_lock_id_whole (lock : lock_t) (size : nat) :
  (42 <= size)%nat ->
  print_table_lock_id lock size
  = (fmt_u64 (lock_get_trx_id lock) ++ ":"
     ++ fmt_u64 (lock_get_table_id lock))%string.
Proof.
  intros Hs. unfold print_table_lock_id, snprintf. apply take_all.
  rewrite length_append. simpl String.length.
  pose proof (fmt_u64_length (lock_get_trx_id lock)).
  pose proof (fmt_u64_length (lock_get_table_id lock)). lia.
Qed.

Lemma print_record_lock_id_whole (lock : lock_t) (heap_no : Z) (size : nat) :
  (64 <= size)%nat ->
  print_record_lock_id lock heap_no size
  = (fmt_u64 (lock_get_trx_id lock) ++ ":"
     ++ fmt_u32 (lock_rec_get_space_id lock) ++ ":"
     ++ fmt_u32 (lock_rec_get_page_no lock) ++ ":"
     ++ fmt_u64 heap_no)%string.
Proof.
  intros Hs. unfold print_record_lock_id, snprintf. apply take_all.
  rewrite length_append. simpl String.length.
  rewrite length_append. simpl String.length.
  rewrite length_append. simpl String.length.
  pose proof (fmt_u64_length (lock_get_trx_id lock)).
  pose proof (fmt_u32_length (lock_rec_get_space_id lock)).
  pose proof (fmt_u32_length (lock_rec_get_page_no lock)).
  pose proof (fmt_u64_length heap_no). lia.
Qed.

Lemma long_max_lt : LONG_MAX < 2 ^ 64.
Proof. reflexivity. Qed.

(** Decoding what [print_table_lock_id] writes. *)
Lemma scan_table_lock_id (lock : lock_t) (size : nat) :
  (42 <= size)%nat ->
  0 <= lock_get_trx_id lock <= LONG_MAX ->
  0 <= lock_get_table_id lock <= LONG_MAX ->
  scan_lock_id (print_table_lock_id lock size)
  = Some {| id_record_type := LOCK_TABLE;
            id_trx_id := lock_get_trx_id lock;
            id_table_id := lock_get_table_id lock;
            id_space_id := SPACE_UNKNOWN;
            id_page_id := FIL_NULL;
            id_heap_id := ULINT_UNDEFINED |}.
Proof.
  intros Hs Htrx Htab. pose proof long_max_lt as Hmax.
  rewrite print_table_lock_id_whole by lia.
  unfold scan_lock_id.
  rewrite strtol_fmt_u64 by (try reflexivity; lia).
  cbn [deref incr append Ascii.eqb Bool.eqb negb].
  rewrite <- (append_nil_r (fmt_u64 (lock_get_table_id lock))).
  rewrite strtol_fmt_u64 by (try reflexivity; lia).
  cbn [deref Ascii.eqb Bool.eqb zero].
  rewrite (clamp_long_fits (lock_get_trx_id lock)) by lia.
  rewrite (clamp_long_fits (lock_get_table_id lock)) by lia.
  rewrite (wrap64_small (lock_get_trx_id lock)) by lia.
  rewrite (wrap64_small (lock_get_table_id lock)) by lia.
  reflexivity.
Qed.

(** Decoding what [print_record_lock_id] writes. *)
Lemma scan_record_lock_id (lock : lock_t) (heap_no : Z) (size : nat) :
  (64 <= size)%nat ->
  0 <= lock_get_trx_id lock <= LONG_MAX ->
  0 <= lock_rec_get_space_id lock < 2 ^ 32 ->
  0 <= lock_rec_get_page_no lock < 2 ^ 32 ->
  0 <= heap_no <= LONG_MAX ->
  scan_lock_id (print_record_lock_id lock heap_no size)
  = Some {| id_record_type := LOCK_REC;
            id_trx_id := lock_get_trx_id lock;
            id_table_id := 0;
            id_space_id := lock_rec_get_space_id lock;
            id_page_id := lock_rec_get_page_no lock;
            id_heap_id := heap_no |}.
Proof.
  intros Hs Htrx Hsp Hpg Hhp. pose proof long_max_lt as Hmax.
  rewrite print_record_lock_id_whole by lia.
  unfold scan_lock_id.
  rewrite strtol_fmt_u64 by (try reflexivity; lia).
  cbn [deref incr append Ascii.eqb Bool.eqb negb].
  rewrite strtol_fmt_u32 by (try reflexivity; lia).
  cbn [deref incr append Ascii.eqb Bool.eqb negb].
  rewrite strtol_fmt_u32 by (try reflexivity; lia).
  cbn [deref incr append Ascii.eqb Bool.eqb negb].
  rewrite <- (append_nil_r (fmt_u64 heap_no)).
  rewrite strtol_fmt_u64 by (try reflexivity; lia).
  cbn [deref Ascii.eqb Bool.eqb zero].
  assert (H32 : 2 ^ 32 < LONG_MAX) by reflexivity.
  rewrite (clamp_long_fits (lock_get_trx_id lock)) by lia.
  rewrite (clamp_long_fits (lock_rec_get_space_id lock)) by lia.
  rewrite (clamp_long_fits (lock_rec_get_page_no lock)) by lia.
  rewrite (clamp_long_fits heap_no) by lia.
  rewrite (wrap64_small (lock_get_trx_id lock)) by lia.
  rewrite (wrap64_small heap_no) by lia.
  unfold wrap32.
  rewrite (Z.mod_small (lock_rec_get_space_id lock)) by lia.
  rewrite (Z.mod_small (lock_rec_get_page_no lock)) by lia.
  reflexivity.
Qed.

(** C5 (amended).  For every lock whose transaction id, and whose table
    id or row-slot number, are at most [LONG_MAX], the largest value
    [strtol] returns (the space id and page number being 32-bit values),
    and for every buffer of at least 64 bytes, decoding the identifier
    printed for the lock gives back its kind and its resource key: the
    transaction id and the table id of a table lock; the transaction id,
    space id, page number and row-slot number of a record lock. *)
Theorem scan_print_lock_id (lock : lock_t) (heap_no : Z) (size : nat) :
  (64 <= size)%nat ->
  fits_long lock heap_no ->
  scan_lock_id (print_lock_id lock heap_no size)
  = Some (lock_identity lock heap_no).
Proof.
  intros Hs (Htrx & Hkey).
  unfold print_lock_id, lock_identity.
  destruct (lock_get_type lock).
  - apply scan_table_lock_id; [lia|exact Htrx|exact Hkey].
  - destruct Hkey as (Hsp & Hpg & Hhp).
    apply scan_record_lock_id; assumption.
Qed.

End CodecFacts.

(* ================================================================= *)
(** * Properties of the per-transaction enumerators *)

Section DataLockFacts.

Import Innodb_data_lock_iterator.
Context `{lock_sys_api}.

(** C1.  The claim fails on the code: [lock_status_str] is set to
    "WAITING" at the awaited lock and never set back, so the row of a
    lock that is walked after the awaited lock carries "WAITING" as well.
    Transaction 10 waits for lock 100; its lock 101, which it holds, is
    reported as waiting. *)
Theorem waiting_status_sticks :
  lock_ptr_eqb (rec_lock 101 10 5 4 [false; true])
    (wait_lock (lock waiting_trx)) = false
  /\ map (fun r => (row_identity r, row_engine_lock_id r, row_lock_status r))
       (snd (scan_trx accept_all_locks false waiting_trx None []))
     = [(99, "10:7", "GRANTED");
        (100, "10:5:3:2", "WAITING");
        (101, "10:5:4:1", "WAITING")]%string.
Proof. split; vm_compute; reflexivity. Qed.

(** The rows one record lock contributes are all built by [mk]. *)
Lemma scan_rec_lock_bits_rows (container : PSI_server_data_lock_container)
    (with_lock_data : bool) (lck : lock_t) (filter : option lock_id_fields)
    (mk : string -> option string -> data_lock_row) (heap_nos : list Z) :
  forall found rs,
  exists new,
    scan_rec_lock_bits container with_lock_data lck filter mk heap_nos found rs
    = ((found + List.length new)%nat, (rs ++ new)%list)
    /\ Forall (fun r => exists i d, r = mk i d) new.
Proof.
  induction heap_nos as [|h hs IH]; intros found rs; simpl.
  - exists []. rewrite app_nil_r, Nat.add_0_r. auto.
  - destruct (match filter with
              | Some f => h =? id_heap_id f
              | None => true
              end); [|apply IH].
    destruct (accept_lock_id container _); [|apply IH].
    destruct (IH (S found) (add_lock_row rs (mk
      (print_record_lock_id lck h engine_lock_id_size)
      (if with_lock_data then p_s_fill_lock_data lck h else None))))
      as (new & Hnew & Hall).
    eexists (_ :: new). rewrite Hnew. unfold add_lock_row.
    rewrite <- app_assoc. simpl. split.
    + f_equal. lia.
    + constructor; [eauto|exact Hall].
Qed.

(** The rows of the locks walked before the awaited lock is reached
    carry the status the loop was entered with: "GRANTED". *)
Lemma scan_trx_locks_status (container : PSI_server_data_lock_container)
    (with_lock_data : bool) (trx_id : Z) (wl : option lock_t)
    (filter : option lock_id_fields) (locks : list lock_t) :
  forall status found rs,
  exists new,
    scan_trx_locks container with_lock_data trx_id wl filter locks
      status found rs
    = ((found + List.length new)%nat, (rs ++ new)%list)
    /\ (Forall (fun l => lock_ptr_eqb l wl = false) locks ->
        Forall (fun r => row_lock_status r = status) new).
Proof.
  induction locks as [|l locks IH]; intros status found rs.
  - exists []. simpl. rewrite app_nil_r, Nat.add_0_r. auto.
  - assert (Htail : forall status' found rs,
              (lock_ptr_eqb l wl = false -> status' = status) ->
              exists new,
                scan_trx_locks container with_lock_data trx_id wl filter
                  locks status' found rs
                = ((found + List.length new)%nat, (rs ++ new)%list)
                /\ (Forall (fun l => lock_ptr_eqb l wl = false) (l :: locks) ->
                    Forall (fun r => row_lock_status r = status) new)).
    { intros status' f r Hst. destruct (IH status' f r) as (new & Hnew & Hall).
      exists new. split; [exact Hnew|]. intros Hl.
      inversion Hl; subst. rewrite <- Hst by assumption. auto. }
    cbn [scan_trx_locks].
    destruct (match filter with
              | Some f =>
                  if negb (lock_type_eqb (lock_get_type l) (id_record_type f))
                  then true
                  else
                    match lock_get_type l with
                    | LOCK_TABLE => negb (lock_get_table_id l =? id_table_id f)
                    | LOCK_REC =>
                        negb (lock_rec_get_space_id l =? id_space_id f)
                        || negb (lock_rec_get_page_no l =? id_page_id f)
                    end
              | None => false
              end); [apply Htail; auto|].
    destruct (negb (accept_thread_id_event_id container _ _));
      [apply Htail; auto|].
    destruct (negb (accept_object container _)); [apply Htail; auto|].
    assert (Hst : lock_ptr_eqb l wl = false ->
                  (if lock_ptr_eqb l wl then "WAITING"%string else status)
                  = status) by (intros ->; reflexivity).
    destruct (lock_get_type l).
    + destruct (accept_lock_id container _); [|apply Htail; exact Hst].
      match goal with
      | |- context [scan_trx_locks _ _ _ _ _ _ ?s ?f ?r] =>
          destruct (Htail s f r Hst) as (new & Hnew & Hall)
      end.
      eexists (_ :: new). rewrite Hnew. unfold add_lock_row.
      rewrite <- app_assoc. simpl. split; [f_equal; lia|].
      intros Hl. constructor; [|auto]. simpl.
      inversion Hl; subst. auto.
    + match goal with
      | |- context [scan_rec_lock_bits ?c ?w ?l ?f ?m ?h ?n ?r] =>
          destruct (scan_rec_lock_bits_rows c w l f m h n r)
            as (new1 & Hnew1 & Hmk)
      end.
      rewrite Hnew1.
      match goal with
      | |- context [scan_trx_locks _ _ _ _ _ _ ?s ?f ?r] =>
          destruct (Htail s f r Hst) as (new & Hnew & Hall)
      end.
      exists (new1 ++ new)%list. rewrite Hnew, length_app, app_assoc.
      split; [f_equal; lia|]. intros Hl. apply Forall_app. split; [|auto].
      eapply Forall_impl; [|exact Hmk]. cbv beta.
      intros r (i & d & ->). simpl. inversion Hl; subst. auto.
Qed.

End DataLockFacts.

Section WaitFacts.

Import Innodb_data_lock_wait_iterator.
Context `{lock_sys_api}.
Variable container : PSI_server_data_lock_wait_container.

Lemma filter_mismatch_spec (l : lock_t) (f : lock_id_fields) :
  filter_mismatch l f = negb (same_resource l f).
Proof.
  unfold filter_mismatch, same_resource.
  destruct (lock_type_eqb (lock_get_type l) (id_record_type f));
    cbn [negb andb]; [|reflexivity].
  destruct (lock_get_type l); [reflexivity|].
  rewrite !negb_andb. reflexivity.
Qed.

(** The loop over the queue adds the row of each lock of the queue that
    passes the blocking filter, conflicts with [wait_lock] and is accepted
    on the blocking side, in queue order. *)
Lemma scan_lock_queue_rows (trx : trx_t) (wl : lock_t)
    (fb : option lock_id_fields) (queue : list lock_t) :
  forall found rs,
    scan_lock_queue container wl (requesting_heap_no wl) fb
      (fun b_lock_id b_trx_id b_thread_id b_event_id b_identity =>
         {| row_engine := g_engine;
            requesting_engine_lock_id :=
              print_lock_id wl (requesting_heap_no wl) engine_lock_id_size;
            requesting_trx_id := trx_get_id_for_print trx;
            requesting_thread_id := lock_psi_thread_id wl;
            requesting_event_id := lock_psi_event_id wl;
            requesting_identity := lock_addr wl;
            blocking_engine_lock_id := b_lock_id;
            blocking_trx_id := b_trx_id;
            blocking_thread_id := b_thread_id;
            blocking_event_id := b_event_id;
            blocking_identity := b_identity |})
      queue found rs
    = ((found
        + List.length
            (filter (fun curr => lock_has_to_wait wl curr
                                 && blocking_accepted container wl curr fb)
               queue))%nat,
       (rs ++ map (wait_row trx wl)
                (filter (fun curr => lock_has_to_wait wl curr
                                     && blocking_accepted container wl curr fb)
                   queue))%list).
Proof.
  induction queue as [|curr queue IH]; intros found rs.
  - simpl. rewrite app_nil_r, Nat.add_0_r. reflexivity.
  - cbn [scan_lock_queue filter].
    set (m := match fb with
              | Some f => filter_mismatch curr f
              | None => false
              end).
    assert (Hb : blocking_accepted container wl curr fb
                 = negb m
                   && accept_blocking_transaction_id container
                        (lock_get_trx_id curr)
                   && accept_blocking_thread_id_event_id container
                        (lock_psi_thread_id curr) (lock_psi_event_id curr)
                   && accept_blocking_lock_id container
                        (print_lock_id curr (requesting_heap_no wl)
                           engine_lock_id_size)).
    { unfold blocking_accepted, matches_filter, m.
      destruct fb; [|reflexivity].
      rewrite filter_mismatch_spec, negb_involutive. reflexivity. }
    rewrite Hb. clear Hb.
    destruct m; cbn [negb andb]; [rewrite andb_false_r; apply IH|].
    destruct (lock_has_to_wait wl curr); cbn [andb]; [|apply IH].
    destruct (accept_blocking_transaction_id container _); cbn [negb andb];
      [|apply IH].
    destruct (accept_blocking_thread_id_event_id container _ _);
      cbn [negb andb]; [|apply IH].
    destruct (accept_blocking_lock_id container _); cbn [negb andb];
      [|apply IH].
    rewrite IH. unfold add_lock_wait_row.
    rewrite <- app_assoc. cbn [map List.length app]. f_equal. lia.
Qed.

Lemma filter_none {A : Type} (f : A -> bool) (l : list A) :
  (forall x, f x = false) -> filter f l = [].
Proof.
  intros Hf. induction l as [|x l IH]; simpl; [reflexivity|].
  now rewrite Hf.
Qed.

(** What [scan_trx] returns for a transaction that waits for [wl]. *)
Lemma scan_trx_waiting (trx : trx_t) (wl : lock_t)
    (filter : option (lock_id_fields * lock_id_fields))
    (rs : list data_lock_wait_row) :
  is_lock_wait (que_state (lock trx)) = true ->
  wait_lock (lock trx) = Some wl ->
  scan_trx container trx filter rs
  = let edges :=
      List.filter (wait_edge container trx wl filter) (lock_queue_prev wl) in
    Ret (List.length edges, (rs ++ map (wait_row trx wl) edges)%list).
Proof.
  intros Hq Hw. unfold scan_trx. rewrite Hq, Hw. cbn [negb]. cbn zeta.
  assert (Hno : requesting_accepted container trx wl (option_map fst filter)
                = false ->
                Ret (O, rs)
                = Ret (List.length
                         (List.filter (wait_edge container trx wl filter)
                            (lock_queue_prev wl)),
                       (rs ++ map (wait_row trx wl)
                          (List.filter (wait_edge container trx wl filter)
                             (lock_queue_prev wl)))%list)).
  { intros Hr. rewrite filter_none.
    - simpl. rewrite app_nil_r. reflexivity.
    - intros curr. unfold wait_edge. rewrite Hr.
      rewrite andb_false_r. reflexivity. }
  unfold requesting_accepted, matches_filter in Hno.
  assert (Hf : match filter with
               | Some (f, _) => filter_mismatch wl f
               | None => false
               end
               = negb match option_map fst filter with
                      | Some f => same_resource wl f
                      | None => true
                      end).
  { destruct filter as [[f b]|]; simpl; [|reflexivity].
    apply filter_mismatch_spec. }
  rewrite Hf. clear Hf.
  destruct (match option_map fst filter with
            | Some f => same_resource wl f
            | None => true
            end) eqn:Hm; cbn [negb andb] in *; [|apply Hno; reflexivity].
  destruct (accept_requesting_transaction_id container _) eqn:Ht;
    cbn [negb andb] in *; [|apply Hno; reflexivity].
  destruct (accept_requesting_thread_id_event_id container _ _) eqn:Hth;
    cbn [negb andb] in *; [|apply Hno; reflexivity].
  fold (requesting_heap_no wl).
  destruct (accept_requesting_lock_id container _) eqn:Hid;
    cbn [negb andb] in *; [|apply Hno; reflexivity].
  rewrite (scan_lock_queue_rows trx wl). cbn zeta. rewrite Nat.add_0_l.
  assert (Hsame : forall curr,
            (lock_has_to_wait wl curr
             && blocking_accepted container wl curr (option_map snd filter))
            = wait_edge container trx wl filter curr).
  { intros curr. unfold wait_edge, requesting_accepted, matches_filter.
    rewrite Hm, Ht, Hth, Hid. cbn [andb]. rewrite andb_true_r. reflexivity. }
  rewrite (filter_ext _ _ Hsame). reflexivity.
Qed.

(** What [scan_trx] of the wait iterator reports.  A transaction that is
    not in the lock-wait state contributes no row.  For one that is,
    waiting for [wl], [scan_trx] adds exactly the rows of the locks of the
    queue, in queue order, for which [lock_has_to_wait] holds between
    [wl] and the lock and both sides pass the comparison of the code with
    their half of the filter ([same_resource]) and their three accept
    callbacks.  Without a filter this is: the conflict predicate and the
    six accept callbacks. *)
Lemma wait_rows_are_wait_edges (trx : trx_t)
    (filter : option (lock_id_fields * lock_id_fields))
    (rs : list data_lock_wait_row) :
  (is_lock_wait (que_state (lock trx)) = false ->
   scan_trx container trx filter rs = Ret (O, rs))
  /\ (forall wl,
        is_lock_wait (que_state (lock trx)) = true ->
        wait_lock (lock trx) = Some wl ->
        exists edges,
          scan_trx container trx filter rs
          = Ret (List.length edges, (rs ++ map (wait_row trx wl) edges)%list)
          /\ edges = List.filter (wait_edge container trx wl filter)
                       (lock_queue_prev wl)
          /\ forall curr,
               In curr edges <->
               In curr (lock_queue_prev wl)
               /\ lock_has_to_wait wl curr = true
               /\ requesting_accepted container trx wl (option_map fst filter)
                  = true
               /\ blocking_accepted container wl curr (option_map snd filter)
                  = true).
Proof.
  split.
  - intros Hq. unfold scan_trx. rewrite Hq. reflexivity.
  - intros wl Hq Hw. eexists. split; [|split; [reflexivity|]].
    + exact (scan_trx_waiting trx wl filter rs Hq Hw).
    + intros curr. rewrite filter_In. unfold wait_edge.
      rewrite !andb_true_iff. tauto.
Qed.

End WaitFacts.

(* ================================================================= *)
(** * Properties of [scan] and [fetch] *)

Section ScanFacts.

Import Innodb_data_lock_iterator.
Context `{lock_sys_api}.
Variable container : PSI_server_data_lock_container.
Variable with_lock_data : bool.

Lemma prepare_clears_hint (s s' : Innodb_trx_scan_state) :
  prepare_next_scan s = Ret s' -> m_next_trx_id_range s' = TRX_ID_MAX.
Proof.
  unfold prepare_next_scan.
  destruct (m_next_trx_id_range s =? TRX_ID_MAX) eqn:E; simpl.
  - apply Z.eqb_eq in E. destruct (m_scan_pass s); intros [=<-]; simpl; auto.
  - intros [=<-]. reflexivity.
Qed.

Lemma prepare_returns (s : Innodb_trx_scan_state) :
  m_scan_pass s <> DONE_SCANNING -> exists s', prepare_next_scan s = Ret s'.
Proof.
  intros Hp. unfold prepare_next_scan.
  destruct (negb _); [eauto|].
  destruct (m_scan_pass s); eauto. contradiction.
Qed.

(** With a hint, the next range contains the hint. *)
Lemma prepare_with_hint (s s' : Innodb_trx_scan_state) :
  range_wf s -> m_next_trx_id_range s <> TRX_ID_MAX ->
  prepare_next_scan s = Ret s' ->
  m_scan_pass s' = m_scan_pass s
  /\ m_end_trx_id_range s <= m_end_trx_id_range s'
  /\ m_next_trx_id_range s < m_end_trx_id_range s'.
Proof.
  intros Hwf Hh Hs.
  destruct (range_wf_prepare _ _ Hwf Hs) as (Hwf' & _ & Hab).
  destruct (prepare_next_scan_pass _ _ Hs) as [[_ Hp]|[Hmax _]];
    [|contradiction].
  specialize (Hab Hp). split; [exact Hp|].
  destruct Hwf as (H0 & _ & He & _ & [Hn|Hn]); [contradiction|].
  destruct Hwf' as (_ & _ & He' & Hlt' & _).
  destruct (floor_range_bounds (m_next_trx_id_range s)) as (Hb & Hb' & _);
    [unfold SCAN_RANGE in *; lia|].
  assert (Hstart : m_start_trx_id_range s'
                   = m_next_trx_id_range s
                     - m_next_trx_id_range s mod SCAN_RANGE).
  { unfold prepare_next_scan in Hs. apply Z.eqb_neq in Hh. rewrite Hh in Hs.
    cbn [negb] in Hs. inversion Hs; subst s'; clear Hs.
    cbn [m_start_trx_id_range]. apply wrap64_small.
    unfold SCAN_RANGE in *. lia. }
  unfold SCAN_RANGE in *. lia.
Qed.

Lemma pending_le (read_write : bool) (l : list trx_t) (e e' : Z) :
  e <= e' -> (pending read_write l e' <= pending read_write l e)%nat.
Proof.
  intros He. unfold pending. induction l as [|t l IH]; simpl; [lia|].
  destruct (discard_trx t read_write); simpl; [exact IH|].
  destruct (e' <=? trx_get_id_for_print t) eqn:E1;
    destruct (e <=? trx_get_id_for_print t) eqn:E2; simpl; lia.
Qed.

Lemma pending_lt (read_write : bool) (l : list trx_t) (e e' : Z)
    (trx : trx_t) :
  e <= e' -> In trx l -> discard_trx trx read_write = false ->
  e <= trx_get_id_for_print trx < e' ->
  (pending read_write l e' < pending read_write l e)%nat.
Proof.
  intros He Hin Hd Hid. induction l as [|t l IH]; [contradiction|].
  pose proof (pending_le read_write l e e' He) as Hle.
  unfold pending in *. simpl. destruct Hin as [->|Hin].
  - rewrite Hd. simpl.
    destruct (e' <=? trx_get_id_for_print trx) eqn:E1; [lia|].
    destruct (e <=? trx_get_id_for_print trx) eqn:E2; [simpl; lia|lia].
  - specialize (IH Hin).
    destruct (discard_trx t read_write); simpl; [exact IH|].
    destruct (e' <=? trx_get_id_for_print t) eqn:E1;
      destruct (e <=? trx_get_id_for_print t) eqn:E2; simpl; lia.
Qed.

Lemma pending_length (read_write : bool) (l : list trx_t) (e : Z) :
  (pending read_write l e <= List.length l)%nat.
Proof. unfold pending. apply filter_length_le. Qed.

(** One walk over a list leaves pass and range alone; the hint is the one
    it started with or the id of a transaction of the list that is not
    discarded and lies at or above the end of the range. *)
Lemma scan_trx_list_from_state (read_write : bool) (l : list trx_t) :
  forall st found rs,
    let st' := snd (fst (scan_trx_list_from container with_lock_data
                           read_write l st found rs)) in
    m_scan_pass st' = m_scan_pass st
    /\ m_start_trx_id_range st' = m_start_trx_id_range st
    /\ m_end_trx_id_range st' = m_end_trx_id_range st
    /\ (m_next_trx_id_range st' = m_next_trx_id_range st
        \/ exists trx,
             In trx l /\ discard_trx trx read_write = false
             /\ m_next_trx_id_range st' = trx_get_id_for_print trx
             /\ m_end_trx_id_range st <= trx_get_id_for_print trx).
Proof.
  induction l as [|t l IH]; intros st found rs; cbn zeta.
  - simpl. auto.
  - cbn [scan_trx_list_from].
    destruct (discard_trx t read_write) eqn:Hd.
    + destruct (IH st found rs) as (Hp & Hs & He & Hh).
      repeat split; auto.
      destruct Hh as [Hh|(trx & Hin & Hd' & Hn & Hle)]; [auto|].
      right. exists trx. simpl. auto.
    + pose proof (trx_id_in_range_frame (trx_get_id_for_print t) st) as Hfr.
      pose proof (trx_id_in_range_hint (trx_get_id_for_print t) st) as Hhi.
      destruct (trx_id_in_range (trx_get_id_for_print t) st) as [b st1].
      cbn [snd] in Hfr, Hhi. cbv zeta in Hfr, Hhi.
      destruct Hfr as (Hp1 & Hs1 & He1).
      assert (Hgoal : forall found rs,
                let st' := snd (fst (scan_trx_list_from container
                                       with_lock_data read_write l st1
                                       found rs)) in
                m_scan_pass st' = m_scan_pass st
                /\ m_start_trx_id_range st' = m_start_trx_id_range st
                /\ m_end_trx_id_range st' = m_end_trx_id_range st
                /\ (m_next_trx_id_range st' = m_next_trx_id_range st
                    \/ exists trx,
                         In trx (t :: l) /\ discard_trx trx read_write = false
                         /\ m_next_trx_id_range st' = trx_get_id_for_print trx
                         /\ m_end_trx_id_range st <= trx_get_id_for_print trx)).
      { intros f r. destruct (IH st1 f r) as (Hp & Hs & He & Hh). cbv zeta.
        rewrite Hp, Hs, He, Hp1, Hs1, He1. repeat split.
        destruct Hh as [Hh|(trx & Hin & Hd' & Hn & Hle)].
        - rewrite Hh. destruct Hhi as [Hhi|[Hhi Hle]]; [auto|].
          right. exists t. simpl. auto.
        - right. exists trx. rewrite <- He1. simpl. auto. }
      destruct (negb b); [apply Hgoal|].
      destruct (scan_trx container with_lock_data t None rs) as [n rs1].
      apply Hgoal.
Qed.

Lemma scan_while_exit (fuel : nat) (pass : scan_pass) (read_write : bool)
    (l : list trx_t) (st : Innodb_trx_scan_state) (found : nat)
    (rs : list data_lock_row) :
  scan_pass_eqb (get_pass st) pass && (found =? 0)%nat = false ->
  scan_while container with_lock_data fuel pass read_write l st found rs
  = Ret (st, found, rs).
Proof. intros Hc. destruct fuel; simpl; rewrite Hc; reflexivity. Qed.

(** Each loop of [scan] ends, and leaves a state in which [scan] can be
    entered again. *)
Lemma scan_while_returns (pass : scan_pass) (read_write : bool)
    (l : list trx_t) :
  pass <> DONE_SCANNING -> trx_ids_below_top l ->
  forall fuel st found rs,
    scan_entry_wf st ->
    (pending read_write l (m_end_trx_id_range st) < fuel)%nat ->
    exists st' found' rs',
      scan_while container with_lock_data fuel pass read_write l st found rs
      = Ret (st', found', rs')
      /\ scan_entry_wf st'.
Proof.
  intros Hpass Hids. induction fuel as [|fuel IH]; intros st found rs Hwf Hfuel;
    [lia|].
  cbn [scan_while].
  destruct (scan_pass_eqb (get_pass st) pass && (found =? 0)%nat) eqn:Hc;
    [|eauto 6].
  apply andb_true_iff in Hc. destruct Hc as [Hp _].
  apply scan_pass_eqb_eq in Hp. unfold get_pass in Hp.
  unfold scan_trx_list.
  pose proof (scan_trx_list_from_state read_write l st O rs) as Hst.
  destruct (scan_trx_list_from container with_lock_data read_write l st O rs)
    as [[found1 st1] rs1].
  cbn [fst snd] in Hst. cbv zeta in Hst.
  destruct Hst as (Hp1 & Hs1 & He1 & Hh1).
  destruct Hwf as (Hwf & Hhint).
  assert (Hwf1 : range_wf st1).
  { destruct Hwf as (H0 & Hal & He & Hlt & _).
    unfold range_wf. rewrite Hs1, He1. repeat split; auto.
    destruct Hh1 as [Hh1|(trx & Hin & _ & Hn & Hle)]; [left; congruence|].
    right. rewrite Hn. split; [exact Hle|].
    unfold trx_ids_below_top in Hids. rewrite Forall_forall in Hids.
    apply (Hids trx Hin). }
  destruct (prepare_returns st1) as [st2 Hprep]; [congruence|].
  rewrite Hprep. cbn [bind].
  pose proof (prepare_clears_hint _ _ Hprep) as Hclear.
  destruct (range_wf_prepare _ _ Hwf1 Hprep) as (Hwf2 & _ & _).
  destruct (Z.eq_dec (m_next_trx_id_range st1) TRX_ID_MAX) as [Hmax|Hmax].
  - (* no transaction above the range: the pass changes, the loop ends *)
    destruct (prepare_next_scan_pass _ _ Hprep) as [[Hne _]|[_ Hnext]];
      [contradiction|].
    rewrite scan_while_exit.
    + exists st2, found1, rs1. split; [reflexivity|]. split; assumption.
    + apply andb_false_intro1. unfold get_pass.
      rewrite Hp1, Hp in Hnext.
      destruct pass; simpl in Hnext; inversion Hnext as [Hq]; reflexivity.
  - destruct Hh1 as [Hh1|(trx & Hin & Hd & Hn & Hle)]; [congruence|].
    destruct (prepare_with_hint _ _ Hwf1 Hmax Hprep) as (_ & Hee & Hlt).
    apply IH; [split; assumption|].
    assert (Hdec : (pending read_write l (m_end_trx_id_range st2)
                    < pending read_write l (m_end_trx_id_range st))%nat).
    { apply (pending_lt read_write l _ _ trx); try assumption; lia. }
    lia.
Qed.

End ScanFacts.

Section ScanResult.

Import Innodb_data_lock_iterator.
Context `{lock_sys_api}.
Variable container : PSI_server_data_lock_container.
Variable with_lock_data : bool.

(** [scan] on an iterator that is done: nothing happens. *)
Lemma scan_when_done (fuel : nat) (trx_sys : trx_sys_t)
    (st : Innodb_trx_scan_state) (e : effects data_lock_row) :
  m_scan_pass st = DONE_SCANNING ->
  scan container with_lock_data fuel trx_sys st e = Ret (true, st, e).
Proof.
  intros Hp. unfold scan, get_pass. rewrite Hp. cbn [scan_pass_eqb bind].
  rewrite Hp. reflexivity.
Qed.

(** The two loops of [scan], entered between the mutex operations. *)
Lemma scan_loops_return (fuel : nat) (trx_sys : trx_sys_t)
    (st : Innodb_trx_scan_state) (e : effects data_lock_row) :
  scan_entry_wf st ->
  trx_ids_below_top (rw_trx_list trx_sys) ->
  trx_ids_below_top (mysql_trx_list trx_sys) ->
  (List.length (rw_trx_list trx_sys) < fuel)%nat ->
  (List.length (mysql_trx_list trx_sys) < fuel)%nat ->
  exists st' e',
    bind (scan_while container with_lock_data fuel SCANNING_RW_TRX_LIST true
            (rw_trx_list trx_sys) st O
            (rows (mutex_op trx_sys_mutex_enter
                     (mutex_op lock_mutex_enter e))))
      (fun '(st, found, rs) =>
         bind (scan_while container with_lock_data fuel
                 SCANNING_MYSQL_TRX_LIST false
                 (mysql_trx_list trx_sys) st found rs)
           (fun '(st, found, rs) =>
              Ret (false, st,
                   mutex_op lock_mutex_exit
                     (mutex_op trx_sys_mutex_exit
                        (set_rows
                           (mutex_op trx_sys_mutex_enter
                              (mutex_op lock_mutex_enter e)) rs)))))
    = Ret (false, st', e')
    /\ scan_entry_wf st'
    /\ mutex_log e'
       = (mutex_log e
          ++ [lock_mutex_enter; trx_sys_mutex_enter;
              trx_sys_mutex_exit; lock_mutex_exit])%list.
Proof.
  intros Hwf Hrw Hmy Hf1 Hf2.
  destruct (scan_while_returns container with_lock_data SCANNING_RW_TRX_LIST
              true (rw_trx_list trx_sys) ltac:(discriminate) Hrw fuel st O
              (rows (mutex_op trx_sys_mutex_enter
                       (mutex_op lock_mutex_enter e))) Hwf)
    as (st1 & found1 & rs1 & Hloop1 & Hwf1).
  { pose proof (pending_length true (rw_trx_list trx_sys)
                  (m_end_trx_id_range st)). lia. }
  rewrite Hloop1. cbn [bind].
  destruct (scan_while_returns container with_lock_data
              SCANNING_MYSQL_TRX_LIST false (mysql_trx_list trx_sys)
              ltac:(discriminate) Hmy fuel st1 found1 rs1 Hwf1)
    as (st2 & found2 & rs2 & Hloop2 & Hwf2).
  { pose proof (pending_length false (mysql_trx_list trx_sys)
                  (m_end_trx_id_range st1)). lia. }
  rewrite Hloop2. cbn [bind].
  eexists. eexists. split; [reflexivity|]. split; [exact Hwf2|].
  simpl. rewrite <- !app_assoc. reflexivity.
Qed.

(** What a call of [scan] returns, on transaction lists whose ids stay
    below [2 ^ 64 - SCAN_RANGE] and with fuel above their lengths. *)
Lemma scan_returns (fuel : nat) (trx_sys : trx_sys_t)
    (st : Innodb_trx_scan_state) (e : effects data_lock_row) :
  scan_entry_wf st ->
  trx_ids_below_top (rw_trx_list trx_sys) ->
  trx_ids_below_top (mysql_trx_list trx_sys) ->
  (List.length (rw_trx_list trx_sys) < fuel)%nat ->
  (List.length (mysql_trx_list trx_sys) < fuel)%nat ->
  exists st' e',
    scan container with_lock_data fuel trx_sys st e
    = Ret (scan_is_done (accept_engine container g_engine) st, st', e')
    /\ scan_entry_wf st'
    /\ (scan_is_done (accept_engine container g_engine) st = true ->
        st' = st /\ e' = e)
    /\ (scan_is_done (accept_engine container g_engine) st = false ->
        mutex_log e'
        = (mutex_log e
           ++ [lock_mutex_enter; trx_sys_mutex_enter;
               trx_sys_mutex_exit; lock_mutex_exit])%list).
Proof.
  intros Hwf Hrw Hmy Hf1 Hf2.
  unfold scan, scan_is_done, get_pass.
  destruct (m_scan_pass st) eqn:Hp; cbn [scan_pass_eqb orb andb].
  - (* first call *)
    destruct (accept_engine container g_engine); cbn [negb].
    + destruct Hwf as (Hwf & Hhint).
      destruct (prepare_returns st) as [st0 Hprep]; [congruence|].
      rewrite Hprep. cbn [bind].
      destruct (prepare_next_scan_pass _ _ Hprep) as [[Hne _]|[_ Hnext]];
        [contradiction|].
      rewrite Hp in Hnext. simpl in Hnext. inversion Hnext as [Hp0].
      cbn [scan_pass_eqb].
      assert (Hwf0 : scan_entry_wf st0).
      { split; [apply (range_wf_prepare _ _ Hwf Hprep)|].
        apply (prepare_clears_hint _ _ Hprep). }
      destruct (scan_loops_return fuel trx_sys st0 e Hwf0 Hrw Hmy Hf1 Hf2)
        as (st' & e' & Hret & Hwf' & Hlog).
      exists st', e'.
      split; [exact Hret|split; [exact Hwf'|split; [discriminate|auto]]].
    + exists st, e.
      split; [reflexivity|split; [exact Hwf|split; [auto|discriminate]]].
  - cbn [bind]. rewrite Hp. cbn [scan_pass_eqb].
    destruct (scan_loops_return fuel trx_sys st e Hwf Hrw Hmy Hf1 Hf2)
      as (st' & e' & Hret & Hwf' & Hlog).
    exists st', e'.
    split; [exact Hret|split; [exact Hwf'|split; [discriminate|auto]]].
  - cbn [bind]. rewrite Hp. cbn [scan_pass_eqb].
    destruct (scan_loops_return fuel trx_sys st e Hwf Hrw Hmy Hf1 Hf2)
      as (st' & e' & Hret & Hwf' & Hlog).
    exists st', e'.
    split; [exact Hret|split; [exact Hwf'|split; [discriminate|auto]]].
  - cbn [bind]. rewrite Hp. cbn [scan_pass_eqb].
    exists st, e.
    split; [reflexivity|split; [exact Hwf|split; [auto|discriminate]]].
Qed.

End ScanResult.

Lemma scan_entry_wf_init : scan_entry_wf scan_state_init.
Proof. split; [exact range_wf_init|reflexivity]. Qed.

Lemma synthetic_ids_below_top :
  trx_ids_below_top (rw_trx_list synthetic_trx_sys).
Proof.
  unfold trx_ids_below_top, synthetic_trx_sys. cbn [rw_trx_list].
  apply Forall_forall. intros trx Hin. apply in_map_iff in Hin.
  destruct Hin as (n & <- & Hn). apply in_seq in Hn.
  cbn [synthetic_trx trx_get_id_for_print]. unfold SCAN_RANGE. lia.
Qed.

(** C8 (amended).  On transaction lists whose ids stay below
    [2 ^ 64 - SCAN_RANGE], a call of [scan] returns, and it answers "done"
    exactly when it is entered with the pass already DONE_SCANNING, or
    entered for the first time with a container that rejects the engine;
    it then touches neither rows nor mutexes nor the scan state.  Every
    other call takes and releases the two mutexes and answers "more
    pending", also when it leaves the pass at DONE_SCANNING.  With ids 0
    to 299 in the RW list, one table lock each, an empty MySQL list and a
    container that accepts everything: the first call reports the ids 0 to
    255 and answers "more pending"; the second reports the ids 256 to 299
    and answers "more pending"; the third reports nothing, leaves the pass
    at DONE_SCANNING and answers "more pending"; every call on an iterator
    whose pass is DONE_SCANNING, so every later call, reports nothing and
    answers "done". *)
Theorem scan_answers `{lock_sys_api}
    (container : Innodb_data_lock_iterator.PSI_server_data_lock_container)
    (with_lock_data : bool) :
  (forall fuel trx_sys st e,
     scan_entry_wf st ->
     trx_ids_below_top (rw_trx_list trx_sys) ->
     trx_ids_below_top (mysql_trx_list trx_sys) ->
     (List.length (rw_trx_list trx_sys) < fuel)%nat ->
     (List.length (mysql_trx_list trx_sys) < fuel)%nat ->
     exists st' e',
       Innodb_data_lock_iterator.scan container with_lock_data fuel trx_sys
         st e
       = Ret (scan_is_done
                (Innodb_data_lock_iterator.accept_engine container g_engine)
                st, st', e')
       /\ scan_entry_wf st'
       /\ (scan_is_done
             (Innodb_data_lock_iterator.accept_engine container g_engine) st
           = true -> st' = st /\ e' = e)
       /\ (scan_is_done
             (Innodb_data_lock_iterator.accept_engine container g_engine) st
           = false ->
           mutex_log e'
           = (mutex_log e
              ++ [lock_mutex_enter; trx_sys_mutex_enter;
                  trx_sys_mutex_exit; lock_mutex_exit])%list))
  /\ scan_calls accept_all_locks synthetic_trx_sys 3 scan_state_init no_effects
     = [(false, SCANNING_RW_TRX_LIST, map Z.of_nat (seq 0 256));
        (false, SCANNING_MYSQL_TRX_LIST, map Z.of_nat (seq 256 44));
        (false, DONE_SCANNING, [])]
  /\ (forall trx_sys n st e,
        m_scan_pass st = DONE_SCANNING ->
        scan_calls container trx_sys n st e
        = repeat (true, DONE_SCANNING, []) n).
Proof.
  split; [intros; apply scan_returns; assumption|].
  split; [vm_compute; reflexivity|].
  intros trx_sys n st e Hp. revert e.
  induction n as [|n IH]; intros e; [reflexivity|].
  cbn [scan_calls]. rewrite scan_when_done by exact Hp.
  cbn [repeat]. unfold get_pass. rewrite Hp, skipn_all, IH. reflexivity.
Qed.

Lemma scan_answers_witness :
  scan_entry_wf scan_state_init
  /\ trx_ids_below_top (rw_trx_list small_trx_sys)
  /\ trx_ids_below_top (mysql_trx_list small_trx_sys)
  /\ exists st' e',
       Innodb_data_lock_iterator.scan (H:=one_blocker) accept_all_locks false
         3 small_trx_sys scan_state_init no_effects
       = Ret (false, st', e')
       /\ scan_entry_wf st'.
Proof.
  assert (H0 : scan_entry_wf scan_state_init).
  { split; [|reflexivity]. unfold range_wf.
    cbn [scan_state_init m_start_trx_id_range m_end_trx_id_range
         m_next_trx_id_range].
    repeat split; try reflexivity; try (vm_compute; discriminate).
    left. reflexivity. }
  assert (H1 : trx_ids_below_top (rw_trx_list small_trx_sys)).
  { repeat constructor; vm_compute; discriminate. }
  assert (H2 : trx_ids_below_top (mysql_trx_list small_trx_sys)).
  { repeat constructor; vm_compute; discriminate. }
  split; [exact H0|]. split; [exact H1|]. split; [exact H2|].
  destruct (proj1 (scan_answers (H:=one_blocker) accept_all_locks false)
              3%nat small_trx_sys scan_state_init no_effects H0 H1 H2
              ltac:(simpl; lia) ltac:(simpl; lia))
    as (st' & e' & Hret & Hwf & _).
  exists st', e'. split; [exact Hret|exact Hwf].
Defined.

(** C8, as stated, fails: the third call on the 300 transactions reports
    nothing and leaves the pass at DONE_SCANNING, yet answers "more
    pending"; only the fourth call answers "done". *)
Lemma scan_pending_though_done :
  scan_calls (H:=one_blocker) accept_all_locks synthetic_trx_sys 4
    scan_state_init no_effects
  = [(false, SCANNING_RW_TRX_LIST, map Z.of_nat (seq 0 256));
     (false, SCANNING_MYSQL_TRX_LIST, map Z.of_nat (seq 256 44));
     (false, DONE_SCANNING, []);
     (true, DONE_SCANNING, [])].
Proof. vm_compute. reflexivity. Qed.

(** C9.  When the identifier does not decode, [fetch] of the data-lock
    iterator returns normally, having added no row and performed no mutex
    operation; so does [fetch] of the data-lock-wait iterator when either
    of its two identifiers does not decode. *)
Theorem fetch_undecodable_id `{lock_sys_api} :
  (forall container with_lock_data trx_sys engine_lock_id e,
     scan_lock_id engine_lock_id = None ->
     Innodb_data_lock_iterator.fetch container with_lock_data trx_sys
       engine_lock_id e
     = Ret (true, e))
  /\ (forall container trx_sys requesting_id blocking_id e,
        scan_lock_id requesting_id = None
        \/ scan_lock_id blocking_id = None ->
        Innodb_data_lock_wait_iterator.fetch container trx_sys
          requesting_id blocking_id e
        = Ret (true, e)).
Proof.
  split.
  - intros container with_lock_data trx_sys engine_lock_id e Hid.
    unfold Innodb_data_lock_iterator.fetch. rewrite Hid.
    destruct (negb _); reflexivity.
  - intros container trx_sys requesting_id blocking_id e Hid.
    unfold Innodb_data_lock_wait_iterator.fetch.
    destruct (negb _); [reflexivity|].
    destruct (scan_lock_id requesting_id); [|reflexivity].
    destruct Hid as [Hid|Hid]; [discriminate|]. rewrite Hid. reflexivity.
Qed.

Lemma fetch_undecodable_id_witness :
  scan_lock_id "10:5:3" = None
  /\ Innodb_data_lock_iterator.fetch (H:=one_blocker) accept_all_locks false
       waiting_trx_sys "10:5:3" no_effects
     = Ret (true, no_effects).
Proof.
  assert (Hid : scan_lock_id "10:5:3" = None) by (vm_compute; reflexivity).
  split; [exact Hid|].
  exact (proj1 (fetch_undecodable_id (H:=one_blocker)) accept_all_locks false
           waiting_trx_sys "10:5:3"%string no_effects Hid).
Defined.

Section BlockingId.

Import Innodb_data_lock_wait_iterator.
Context `{lock_sys_api}.
Variable container : PSI_server_data_lock_wait_container.

(** C10.  For a transaction that waits for a record lock [wl], every row
    [scan_trx] adds names a lock of the queue as blocking and carries, as
    blocking identifier, the identifier printed for that lock with the
    first set bit of [wl], the requesting lock; where the blocking lock is
    a record lock whose fields fit the decoder, the identifier decodes to
    the blocking lock's transaction, space and page and to the requesting
    lock's row slot. *)
Theorem blocking_id_has_requesting_slot (trx : trx_t) (wl : lock_t)
    (filter : option (lock_id_fields * lock_id_fields))
    (rs : list data_lock_wait_row) :
  is_lock_wait (que_state (lock trx)) = true ->
  wait_lock (lock trx) = Some wl ->
  lock_get_type wl = LOCK_REC ->
  exists new,
    scan_trx container trx filter rs = Ret (List.length new, (rs ++ new)%list)
    /\ Forall
         (fun row =>
            exists curr,
              In curr (lock_queue_prev wl)
              /\ blocking_identity row = lock_addr curr
              /\ blocking_engine_lock_id row
                 = print_lock_id curr (lock_rec_find_set_bit wl)
                     engine_lock_id_size
              /\ (lock_get_type curr = LOCK_REC ->
                  fits_long curr (lock_rec_find_set_bit wl) ->
                  scan_lock_id (blocking_engine_lock_id row)
                  = Some {| id_record_type := LOCK_REC;
                            id_trx_id := lock_get_trx_id curr;
                            id_table_id := 0;
                            id_space_id := lock_rec_get_space_id curr;
                            id_page_id := lock_rec_get_page_no curr;
                            id_heap_id := lock_rec_find_set_bit wl |}))
         new.
Proof.
  intros Hq Hw Hty.
  rewrite (scan_trx_waiting container trx wl filter rs Hq Hw). cbv zeta.
  eexists. split; [rewrite length_map; reflexivity|].
  apply Forall_forall. intros row Hin. apply in_map_iff in Hin.
  destruct Hin as (curr & <- & Hin). apply filter_In in Hin.
  exists curr. split; [apply Hin|]. split; [reflexivity|].
  unfold wait_row, requesting_heap_no. rewrite Hty.
  cbn [blocking_engine_lock_id]. split; [reflexivity|].
  intros Hc (Htrx & Hkey). rewrite Hc in Hkey.
  destruct Hkey as (Hsp & Hpg & Hhp).
  unfold print_lock_id. rewrite Hc.
  apply scan_record_lock_id; try assumption.
  unfold engine_lock_id_size, TRX_I_S_LOCK_ID_MAX_LEN. lia.
Qed.

End BlockingId.

(** The blocking lock of the example has slots 1 and 2 set, the awaited
    lock slot 2: the blocking identifier ends in 2, not in 1. *)
Lemma blocking_id_has_requesting_slot_witness :
  lock_rec_find_set_bit blocking_lock = 1
  /\ lock_rec_find_set_bit awaited_lock = 2
  /\ exists new,
       Innodb_data_lock_wait_iterator.scan_trx (H:=one_blocker)
         accept_all_waits waiting_trx None []
       = Ret (List.length new, new)
       /\ map Innodb_data_lock_wait_iterator.blocking_engine_lock_id new
          = ["11:5:3:2"%string].
Proof.
  split; [reflexivity|]. split; [reflexivity|].
  destruct (blocking_id_has_requesting_slot (H:=one_blocker) accept_all_waits
              waiting_trx awaited_lock None [] eq_refl eq_refl eq_refl)
    as (new & Hret & _).
  exists new. split; [exact Hret|].
  vm_compute in Hret. inversion Hret as [[Hlen Hnew]]. reflexivity.
Defined.

(** C7.  The claim fails on the code when filtering.  Transaction 10
    waits for slot 2 of page 3 in space 5; transaction 11 holds slots 1
    and 2 of that page in one lock object, which the awaited lock has to
    wait for.  Without a filter [scan_trx] reports the edge, under the
    identifiers "10:5:3:2" and "11:5:3:2".  Both locks match these
    identifiers exactly, the conflict predicate holds and the container
    accepts everything, yet [fetch] of this pair adds no row: the blocking
    side is compared by the first set bit of its own bitmap, which is 1.
    And [fetch] of "10:5:3:2" and "99:5:3:1", which names another
    transaction and another slot, adds the row of the edge: the
    transaction id decoded from the blocking identifier is never
    compared. *)
Theorem wait_fetch_misses_reported_edge :
  Innodb_data_lock_wait_iterator.scan_trx (H:=one_blocker) accept_all_waits
    waiting_trx None []
  = Ret (1%nat,
         [Innodb_data_lock_wait_iterator.wait_row waiting_trx awaited_lock
            blocking_lock])
  /\ (Innodb_data_lock_wait_iterator.requesting_engine_lock_id
        (Innodb_data_lock_wait_iterator.wait_row waiting_trx awaited_lock
           blocking_lock),
      Innodb_data_lock_wait_iterator.blocking_engine_lock_id
        (Innodb_data_lock_wait_iterator.wait_row waiting_trx awaited_lock
           blocking_lock))
     = ("10:5:3:2", "11:5:3:2")%string
  /\ lock_has_to_wait (lock_sys_api := one_blocker) awaited_lock blocking_lock
     = true
  /\ option_map (spec_matches_exactly awaited_lock) (scan_lock_id "10:5:3:2")
     = Some true
  /\ option_map (spec_matches_exactly blocking_lock) (scan_lock_id "11:5:3:2")
     = Some true
  /\ Innodb_data_lock_wait_iterator.fetch (H:=one_blocker) accept_all_waits
       waiting_trx_sys "10:5:3:2" "11:5:3:2"
       {| rows := []; mutex_log := [] |}
     = Ret (true,
            {| rows := [];
               mutex_log := [lock_mutex_enter; trx_sys_mutex_enter;
                             trx_sys_mutex_exit; lock_mutex_exit] |})
  /\ option_map (spec_matches_exactly blocking_lock) (scan_lock_id "99:5:3:1")
     = Some false
  /\ Innodb_data_lock_wait_iterator.fetch (H:=one_blocker) accept_all_waits
       waiting_trx_sys "10:5:3:2" "99:5:3:1"
       {| rows := []; mutex_log := [] |}
     = Ret (true,
            {| rows := [Innodb_data_lock_wait_iterator.wait_row waiting_trx
                          awaited_lock blocking_lock];
               mutex_log := [lock_mutex_enter; trx_sys_mutex_enter;
                             trx_sys_mutex_exit; lock_mutex_exit] |}).
Proof. repeat split; vm_compute; reflexivity. Qed.

Lemma scan_print_lock_id_witness :
  (64 <= engine_lock_id_size)%nat
  /\ fits_long awaited_lock 2
  /\ scan_lock_id (print_lock_id awaited_lock 2 engine_lock_id_size)
     = Some (lock_identity awaited_lock 2).
Proof.
  assert (Hs : (64 <= engine_lock_id_size)%nat)
    by (unfold engine_lock_id_size, TRX_I_S_LOCK_ID_MAX_LEN; lia).
  assert (Hf : fits_long awaited_lock 2).
  { unfold fits_long. cbn. repeat split; vm_compute; discriminate. }
  split; [exact Hs|]. split; [exact Hf|].
  exact (scan_print_lock_id awaited_lock 2 engine_lock_id_size Hs Hf).
Defined.

(** C5, as stated, fails where [strtol] overflows: the transaction id
    [2 ^ 63] is printed in full and read back as [LONG_MAX]. *)
Lemma scan_print_lock_id_clamps :
  print_lock_id far_trx_lock 0 engine_lock_id_size
  = "9223372036854775808:7"%string
  /\ option_map id_trx_id
       (scan_lock_id (print_lock_id far_trx_lock 0 engine_lock_id_size))
     = Some (2 ^ 63 - 1)
  /\ scan_lock_id (print_lock_id far_trx_lock 0 engine_lock_id_size)
     <> Some (lock_identity far_trx_lock 0).
Proof.
  split; [vm_compute; reflexivity|]. split; [vm_compute; reflexivity|].
  vm_compute. discriminate.
Qed.

(** C6.  The claim fails on the code: the character after the second
    field is skipped without being looked at (the first and the third
    separator are compared with a colon), and a field without digits
    reads as 0.  "1:2x3:4" decodes as a record lock and ":" as a table
    lock. *)
Theorem scan_lock_id_accepts_malformed :
  scan_lock_id "1:2x3:4"
  = Some {| id_record_type := LOCK_REC;
            id_trx_id := 1;
            id_table_id := 0;
            id_space_id := 2;
            id_page_id := 3;
            id_heap_id := 4 |}
  /\ scan_lock_id ":"
     = Some {| id_record_type := LOCK_TABLE;
               id_trx_id := 0;
               id_table_id := 0;
               id_space_id := SPACE_UNKNOWN;
               id_page_id := FIL_NULL;
               id_heap_id := ULINT_UNDEFINED |}.
Proof. split; vm_compute; reflexivity. Qed.

(** The malformed identifiers the decoder does reject: one field, three
    fields, five fields, a wrong first or third separator, trailing
    characters. *)
Lemma scan_lock_id_rejects :
  scan_lock_id "1" = None
  /\ scan_lock_id "1:2:3" = None
  /\ scan_lock_id "1:2:3:4:5" = None
  /\ scan_lock_id "1;2" = None
  /\ scan_lock_id "1:2:3;4" = None
  /\ scan_lock_id "1:2:3:4x" = None.
Proof. repeat split; vm_compute; reflexivity. Qed.

(* ================================================================= *)
(** * Further properties: looking a transaction up *)

Lemma fetch_trx_lookup (trx_id : Z) (read_write : bool)
    (trx_list : list trx_t) :
  match fetch_trx_in_trx_list trx_id read_write trx_list with
  | Some trx =>
      exists before after,
        trx_list = (before ++ trx :: after)%list
        /\ discard_trx trx read_write = false
        /\ trx_get_id_for_print trx = trx_id
        /\ Forall (fun t => discard_trx t read_write = true
                            \/ trx_get_id_for_print t <> trx_id) before
  | None =>
      Forall (fun t => discard_trx t read_write = true
                       \/ trx_get_id_for_print t <> trx_id) trx_list
  end.
Proof.
  induction trx_list as [|t l IH]; simpl; [constructor|].
  destruct (discard_trx t read_write) eqn:Hd.
  - destruct (fetch_trx_in_trx_list trx_id read_write l) as [trx|].
    + destruct IH as (before & after & -> & Hlive & Hid & Hall).
      exists (t :: before), after. repeat split; auto.
    + constructor; auto.
  - destruct (trx_id =? trx_get_id_for_print t) eqn:He.
    + apply Z.eqb_eq in He. exists [], l. repeat split; auto.
    + apply Z.eqb_neq in He.
      destruct (fetch_trx_in_trx_list trx_id read_write l) as [trx|].
      * destruct IH as (before & after & -> & Hlive & Hid & Hall).
        exists (t :: before), after. repeat split; auto.
      * constructor; auto.
Qed.

(** Where the ids of the transactions that are not discarded are
    distinct, the lookup finds each of them. *)
Lemma fetch_trx_finds (read_write : bool) (trx_list : list trx_t)
    (trx : trx_t) :
  In trx trx_list -> discard_trx trx read_write = false ->
  (forall t, In t trx_list -> discard_trx t read_write = false ->
             trx_get_id_for_print t = trx_get_id_for_print trx -> t = trx) ->
  fetch_trx_in_trx_list (trx_get_id_for_print trx) read_write trx_list
  = Some trx.
Proof.
  intros Hin Hd Huniq.
  pose proof (fetch_trx_lookup (trx_get_id_for_print trx)
                read_write trx_list) as Hspec.
  destruct (fetch_trx_in_trx_list _ read_write trx_list) as [t|].
  - destruct Hspec as (before & after & Heq & Hlive & Hid & _).
    f_equal. apply Huniq; auto. rewrite Heq. apply in_elt.
  - rewrite Forall_forall in Hspec. destruct (Hspec trx Hin); congruence.
Qed.

(** The lookup of the two [fetch] functions: the RW list first, then the
    MySQL list. *)
Lemma fetch_trx_in_lists (trx_sys : trx_sys_t) (trx_id : Z) (trx : trx_t) :
  match fetch_trx_in_trx_list trx_id true (rw_trx_list trx_sys) with
  | Some t => Some t
  | None => fetch_trx_in_trx_list trx_id false (mysql_trx_list trx_sys)
  end = Some trx ->
  (In trx (rw_trx_list trx_sys) \/ In trx (mysql_trx_list trx_sys))
  /\ trx_get_id_for_print trx = trx_id.
Proof.
  pose proof (fetch_trx_lookup trx_id true (rw_trx_list trx_sys)) as H1.
  pose proof (fetch_trx_lookup trx_id false (mysql_trx_list trx_sys)) as H2.
  destruct (fetch_trx_in_trx_list trx_id true _) as [t1|].
  - intros [=<-]. destruct H1 as (b & a & Heq & _ & Hid & _).
    split; [left; rewrite Heq; apply in_elt|exact Hid].
  - destruct (fetch_trx_in_trx_list trx_id false _) as [t2|];
      [|discriminate].
    intros [=<-]. destruct H2 as (b & a & Heq & _ & Hid & _).
    split; [right; rewrite Heq; apply in_elt|exact Hid].
Qed.

(** X1.  [fetch_trx_in_trx_list] answers with a transaction exactly when
    the list holds one that is not discarded and has the id asked for; the
    answer is the first such transaction of the list, so a transaction
    that is discarded (not started, or in the MySQL list with a nonzero id
    and not read-only) is never returned. *)
Theorem fetch_trx_in_trx_list_first (trx_id : Z) (read_write : bool)
    (trx_list : list trx_t) :
  (forall trx,
     fetch_trx_in_trx_list trx_id read_write trx_list = Some trx ->
     exists before after,
       trx_list = (before ++ trx :: after)%list
       /\ discard_trx trx read_write = false
       /\ trx_get_id_for_print trx = trx_id
       /\ Forall (fun t => discard_trx t read_write = true
                           \/ trx_get_id_for_print t <> trx_id) before)
  /\ (fetch_trx_in_trx_list trx_id read_write trx_list = None <->
      forall t, In t trx_list ->
                discard_trx t read_write = true
                \/ trx_get_id_for_print t <> trx_id).
Proof.
  pose proof (fetch_trx_lookup trx_id read_write trx_list) as Hspec.
  split.
  - intros trx Hf. rewrite Hf in Hspec. exact Hspec.
  - split.
    + intros Hf. rewrite Hf in Hspec. apply Forall_forall. exact Hspec.
    + intros Hnone.
      destruct (fetch_trx_in_trx_list trx_id read_write trx_list) as [trx|];
        [|reflexivity].
      destruct Hspec as (before & after & Heq & Hlive & Hid & _).
      destruct (Hnone trx); [rewrite Heq; apply in_elt|congruence|congruence].
Qed.

Lemma fetch_trx_in_trx_list_first_witness :
  fetch_trx_in_trx_list 700 true (rw_trx_list small_trx_sys)
  = Some (synthetic_trx 700)
  /\ exists before after,
       rw_trx_list small_trx_sys
       = (before ++ synthetic_trx 700 :: after)%list
       /\ discard_trx (synthetic_trx 700) true = false
       /\ trx_get_id_for_print (synthetic_trx 700) = 700
       /\ Forall (fun t => discard_trx t true = true
                           \/ trx_get_id_for_print t <> 700) before.
Proof.
  assert (Hf : fetch_trx_in_trx_list 700 true (rw_trx_list small_trx_sys)
               = Some (synthetic_trx 700)) by reflexivity.
  split; [exact Hf|].
  exact (proj1 (fetch_trx_in_trx_list_first 700 true
                  (rw_trx_list small_trx_sys)) _ Hf).
Defined.

(* ================================================================= *)
(** * Further properties: the rows of a transaction *)

Section DataLockRows.

Import Innodb_data_lock_iterator.
Context `{lock_sys_api}.
Variable container : PSI_server_data_lock_container.
Variable with_lock_data : bool.

Lemma scan_rec_lock_bits_exact (l : lock_t) (filter : option lock_id_fields)
    (mk : string -> option string -> data_lock_row) (heap_nos : list Z) :
  forall found rs,
    scan_rec_lock_bits container with_lock_data l filter mk heap_nos found rs
    = ((found
        + List.length (List.filter (slot_selected container filter l)
                         heap_nos))%nat,
       (rs ++ map (fun heap_no =>
                     mk (print_record_lock_id l heap_no engine_lock_id_size)
                       (if with_lock_data then p_s_fill_lock_data l heap_no
                        else None))
                (List.filter
                    (slot_selected container filter l) heap_nos))%list).
Proof.
  induction heap_nos as [|h hs IH]; intros found rs.
  - simpl. rewrite app_nil_r, Nat.add_0_r. reflexivity.
  - cbn [scan_rec_lock_bits List.filter].
    change (slot_selected container filter l h)
      with (match filter with
            | Some f => h =? id_heap_id f
            | None => true
            end
            && accept_lock_id container
                 (print_record_lock_id l h engine_lock_id_size)).
    destruct (match filter with
              | Some f => h =? id_heap_id f
              | None => true
              end); cbn [andb]; [|apply IH].
    destruct (accept_lock_id container _); [|apply IH].
    rewrite IH. unfold add_lock_row. rewrite <- app_assoc.
    cbn [map List.length app]. f_equal. lia.
Qed.

(** The test at the head of the loop of [scan_trx], and
    [lock_selected]. *)
Lemma lock_selected_filter (filter : option lock_id_fields) (l : lock_t) :
  lock_selected container filter l
  = negb match filter with
         | Some f =>
             if negb (lock_type_eqb (lock_get_type l) (id_record_type f))
             then true
             else
               match lock_get_type l with
               | LOCK_TABLE => negb (lock_get_table_id l =? id_table_id f)
               | LOCK_REC =>
                   negb (lock_rec_get_space_id l =? id_space_id f)
                   || negb (lock_rec_get_page_no l =? id_page_id f)
               end
         | None => false
         end
    && accept_thread_id_event_id container
         (lock_psi_thread_id l) (lock_psi_event_id l)
    && accept_object container (parse_table_path (lock_get_table_name l)).
Proof.
  unfold lock_selected. f_equal. f_equal.
  destruct filter as [f|]; [|reflexivity].
  destruct (lock_type_eqb (lock_get_type l) (id_record_type f));
    cbn [negb andb]; [|reflexivity].
  destruct (lock_get_type l).
  - now rewrite negb_involutive.
  - rewrite negb_orb, !negb_involutive. reflexivity.
Qed.

(** The loop of [scan_trx] appends [locks_rows] and counts them. *)
Lemma scan_trx_locks_exact (trx_id : Z) (wl : option lock_t)
    (filter : option lock_id_fields) (locks : list lock_t) :
  forall status found rs,
    scan_trx_locks container with_lock_data trx_id wl filter locks
      status found rs
    = ((found
        + List.length (locks_rows container with_lock_data trx_id wl filter
                         locks status))%nat,
       (rs ++ locks_rows container with_lock_data trx_id wl filter locks
                status)%list).
Proof.
  induction locks as [|l locks IH]; intros status found rs.
  - simpl. rewrite app_nil_r, Nat.add_0_r. reflexivity.
  - cbn [scan_trx_locks locks_rows]. rewrite lock_selected_filter.
    destruct (match filter with
              | Some f =>
                  if negb (lock_type_eqb (lock_get_type l) (id_record_type f))
                  then true
                  else
                    match lock_get_type l with
                    | LOCK_TABLE => negb (lock_get_table_id l =? id_table_id f)
                    | LOCK_REC =>
                        negb (lock_rec_get_space_id l =? id_space_id f)
                        || negb (lock_rec_get_page_no l =? id_page_id f)
                    end
              | None => false
              end); cbn [negb andb]; [apply IH|].
    destruct (accept_thread_id_event_id container _ _); cbn [negb andb];
      [|apply IH].
    destruct (accept_object container _); cbn [negb]; [|apply IH].
    unfold lock_rows. destruct (lock_get_type l).
    + destruct (accept_lock_id container _).
      * rewrite IH. unfold add_lock_row. rewrite <- app_assoc.
        cbn [List.length app]. f_equal. lia.
      * rewrite IH. reflexivity.
    + rewrite scan_rec_lock_bits_exact, IH.
      rewrite length_app, length_map, <- app_assoc. f_equal. lia.
Qed.

Lemma scan_trx_exact (trx : trx_t) (filter : option lock_id_fields)
    (rs : list data_lock_row) :
  scan_trx container with_lock_data trx filter rs
  = (List.length (trx_rows container with_lock_data filter trx),
     (rs ++ trx_rows container with_lock_data filter trx)%list).
Proof.
  unfold scan_trx, trx_rows.
  destruct (accept_transaction_id container _); cbn [negb].
  - rewrite scan_trx_locks_exact. reflexivity.
  - simpl. rewrite app_nil_r. reflexivity.
Qed.

Lemma lock_rows_ids (trx_id : Z) (filter : option lock_id_fields)
    (status : string) (l : lock_t) :
  map row_id (lock_rows container with_lock_data trx_id filter status l)
  = lock_row_ids container filter l
  /\ Forall (fun r =>
               row_engine r = g_engine
               /\ row_trx_id r = trx_id
               /\ row_thread_id r = lock_psi_thread_id l
               /\ row_event_id r = lock_psi_event_id l
               /\ row_object r = parse_table_path (lock_get_table_name l)
               /\ accept_lock_id container (row_engine_lock_id r) = true)
       (lock_rows container with_lock_data trx_id filter status l).
Proof.
  unfold lock_rows, lock_row_ids. destruct (lock_get_type l).
  - destruct (accept_lock_id container _) eqn:Ha; split; try constructor;
      simpl; auto 10.
  - split; [rewrite map_map; reflexivity|].
    apply Forall_forall. intros r Hin. apply in_map_iff in Hin.
    destruct Hin as (h & <- & Hh). apply filter_In in Hh.
    destruct Hh as [_ Hsel]. unfold slot_selected in Hsel.
    apply andb_true_iff in Hsel. simpl. tauto.
Qed.

Lemma locks_rows_ids (trx_id : Z) (wl : option lock_t)
    (filter : option lock_id_fields) (locks : list lock_t) :
  forall status,
    map row_id
      (locks_rows container with_lock_data trx_id wl filter locks status)
    = flat_map (lock_row_ids container filter)
        (List.filter (lock_selected container filter) locks)
    /\ Forall (fun r =>
                 row_engine r = g_engine
                 /\ row_trx_id r = trx_id
                 /\ accept_thread_id_event_id container
                      (row_thread_id r) (row_event_id r) = true
                 /\ accept_object container (row_object r) = true
                 /\ accept_lock_id container (row_engine_lock_id r) = true
                 /\ exists l, In l locks /\ row_identity r = lock_addr l)
         (locks_rows container with_lock_data trx_id wl filter locks status).
Proof.
  induction locks as [|l locks IH]; intros status; [split; constructor|].
  cbn [locks_rows List.filter].
  destruct (lock_selected container filter l) eqn:Hsel.
  - destruct (IH (if lock_ptr_eqb l wl then "WAITING"%string else status))
      as (Hids & Hall).
    destruct (lock_rows_ids trx_id filter
                (if lock_ptr_eqb l wl then "WAITING"%string else status) l)
      as (Hids1 & Hall1).
    split.
    + rewrite map_app, Hids, Hids1. reflexivity.
    + apply Forall_app. split.
      * assert (Hid : Forall (fun r => row_identity r = lock_addr l)
                        (lock_rows container with_lock_data trx_id filter
                           (if lock_ptr_eqb l wl then "WAITING"%string
                            else status) l)).
        { unfold lock_rows. destruct (lock_get_type l).
          - destruct (accept_lock_id container _); repeat constructor.
          - apply Forall_forall. intros r Hin. apply in_map_iff in Hin.
            destruct Hin as (h & <- & _). reflexivity. }
        unfold lock_selected in Hsel. rewrite !andb_true_iff in Hsel.
        destruct Hsel as ((_ & Hth) & Hob).
        rewrite Forall_forall in *. intros r Hin.
        destruct (Hall1 r Hin) as (He & Ht & Hti & Hev & Hobj & Hlid).
        rewrite Hti, Hev, Hobj. repeat split; auto.
        exists l. split; [left; reflexivity|apply Hid; exact Hin].
      * eapply Forall_impl; [|exact Hall]. cbv beta.
        intros r (He & Ht & Hth & Hob & Hlid & l' & Hin & Hid).
        repeat split; auto. exists l'. split; [right; exact Hin|exact Hid].
  - destruct (IH status) as (Hids & Hall). split; [exact Hids|].
    eapply Forall_impl; [|exact Hall]. cbv beta.
    intros r (He & Ht & Hth & Hob & Hlid & l' & Hin & Hid).
    repeat split; auto. exists l'. split; [right; exact Hin|exact Hid].
Qed.

Lemma scan_trx_reports_rows_aux (trx : trx_t)
    (filter : option lock_id_fields) :
  map row_id (trx_rows container with_lock_data filter trx)
  = trx_row_ids container filter trx
  /\ Forall (fun r =>
               row_engine r = g_engine
               /\ row_trx_id r = trx_get_id_for_print trx
               /\ accept_transaction_id container (row_trx_id r) = true
               /\ accept_thread_id_event_id container
                    (row_thread_id r) (row_event_id r) = true
               /\ accept_object container (row_object r) = true
               /\ accept_lock_id container (row_engine_lock_id r) = true
               /\ exists l, In l (trx_locks (lock trx))
                            /\ row_identity r = lock_addr l)
       (trx_rows container with_lock_data filter trx).
Proof.
  unfold trx_rows, trx_row_ids.
  destruct (accept_transaction_id container (trx_get_id_for_print trx))
    eqn:Hacc; [|split; constructor].
  destruct (locks_rows_ids (trx_get_id_for_print trx) (wait_lock (lock trx))
              filter (trx_locks (lock trx)) "GRANTED"%string) as (Hids & Hall).
  split; [exact Hids|].
  eapply Forall_impl; [|exact Hall]. cbv beta.
  intros r (He & Ht & Hrest). rewrite Ht. auto.
Qed.

(** X2.  [scan_trx] of the data-lock iterator leaves the rows it is given
    in place and appends new ones, and it returns their number.  The new
    rows are, in walk order, one row per table lock and one per set bit of
    a record lock, for the locks that match the filter and that the
    container accepts (transaction id, thread and event, table, lock id);
    each carries the id of the transaction and the address of its lock. *)
Theorem scan_trx_reports_selected_locks (trx : trx_t)
    (filter : option lock_id_fields) (rs : list data_lock_row) :
  exists new,
    scan_trx container with_lock_data trx filter rs
    = (List.length new, (rs ++ new)%list)
    /\ map row_id new = trx_row_ids container filter trx
    /\ Forall (fun r =>
                 row_engine r = g_engine
                 /\ row_trx_id r = trx_get_id_for_print trx
                 /\ accept_transaction_id container (row_trx_id r) = true
                 /\ accept_thread_id_event_id container
                      (row_thread_id r) (row_event_id r) = true
                 /\ accept_object container (row_object r) = true
                 /\ accept_lock_id container (row_engine_lock_id r) = true
                 /\ exists l, In l (trx_locks (lock trx))
                              /\ row_identity r = lock_addr l)
         new.
Proof.
  exists (trx_rows container with_lock_data filter trx).
  split; [apply scan_trx_exact|].
  apply scan_trx_reports_rows_aux.
Qed.

End DataLockRows.

(* ================================================================= *)
(** * Further properties: the status reported *)

Section StatusFacts.

Import Innodb_data_lock_iterator.
Context `{lock_sys_api}.
Variable container : PSI_server_data_lock_container.
Variable with_lock_data : bool.

(** The rows of one lock carry its address and the status in force. *)
Lemma lock_rows_status (trx_id : Z) (filter : option lock_id_fields)
    (status : string) (l : lock_t) :
  Forall (fun r => row_identity r = lock_addr l
                   /\ row_lock_status r = status)
    (lock_rows container with_lock_data trx_id filter status l).
Proof.
  unfold lock_rows. destruct (lock_get_type l).
  - destruct (accept_lock_id container _); repeat constructor.
  - apply Forall_forall. intros r Hin. apply in_map_iff in Hin.
    destruct Hin as (h & <- & _). split; reflexivity.
Qed.

(** Once the status is "WAITING" it stays. *)
Lemma locks_rows_waiting (trx_id : Z) (wl : option lock_t)
    (filter : option lock_id_fields) (locks : list lock_t) :
  Forall (fun r => row_lock_status r = "WAITING")
    (locks_rows container with_lock_data trx_id wl filter locks "WAITING").
Proof.
  induction locks as [|l locks IH]; [constructor|].
  cbn [locks_rows]. destruct (lock_selected container filter l); [|exact IH].
  replace (if lock_ptr_eqb l wl then "WAITING" else "WAITING")
    with "WAITING" by (destruct (lock_ptr_eqb l wl); reflexivity).
  apply Forall_app. split; [|exact IH].
  eapply Forall_impl; [|apply lock_rows_status]. cbv beta. tauto.
Qed.

(** From "GRANTED": rows of locks other than the awaited one that say
    "GRANTED", then rows that say "WAITING". *)
Lemma locks_rows_granted (trx_id : Z) (wl : option lock_t)
    (filter : option lock_id_fields) (locks : list lock_t) :
  exists granted waiting,
    locks_rows container with_lock_data trx_id wl filter locks "GRANTED"
    = (granted ++ waiting)%list
    /\ Forall (fun r => row_lock_status r = "GRANTED"
                        /\ forall w, wl = Some w ->
                                     row_identity r <> lock_addr w)
         granted
    /\ Forall (fun r => row_lock_status r = "WAITING") waiting
    /\ (wl = None -> waiting = []).
Proof.
  induction locks as [|l locks IH].
  - exists [], []. repeat split; constructor.
  - cbn [locks_rows].
    destruct (lock_selected container filter l); [|exact IH].
    destruct (lock_ptr_eqb l wl) eqn:Hptr.
    + exists [],
        (lock_rows container with_lock_data trx_id filter "WAITING" l
         ++ locks_rows container with_lock_data trx_id wl filter locks
              "WAITING")%list.
      split; [reflexivity|]. split; [constructor|]. split.
      * apply Forall_app. split; [|apply locks_rows_waiting].
        eapply Forall_impl; [|apply lock_rows_status]. cbv beta. tauto.
      * intros ->. discriminate.
    + destruct IH as (granted & waiting & Heq & Hg & Hw & Hnone).
      exists (lock_rows container with_lock_data trx_id filter "GRANTED" l
              ++ granted)%list, waiting.
      split; [rewrite Heq, app_assoc; reflexivity|].
      split; [|split; assumption].
      apply Forall_app. split; [|exact Hg].
      eapply Forall_impl; [|apply lock_rows_status]. cbv beta.
      intros r (Hid & Hst). split; [exact Hst|].
      intros w ->. rewrite Hid. cbn in Hptr. apply Z.eqb_neq. exact Hptr.
Qed.

(** X3.  The status [scan_trx] reports turns from "GRANTED" to "WAITING"
    once and never back: the rows added for a transaction are rows that
    say "GRANTED", none of them of the awaited lock, followed by rows
    that say "WAITING".  So every row of the awaited lock says "WAITING",
    and a transaction without an awaited lock gets "GRANTED" on every
    row. *)
Theorem status_turns_waiting_once (trx : trx_t)
    (filter : option lock_id_fields) (rs : list data_lock_row) :
  exists granted waiting,
    scan_trx container with_lock_data trx filter rs
    = (List.length (granted ++ waiting), (rs ++ granted ++ waiting)%list)
    /\ Forall (fun r => row_lock_status r = "GRANTED"
                        /\ forall wl, wait_lock (lock trx) = Some wl ->
                                      row_identity r <> lock_addr wl)
         granted
    /\ Forall (fun r => row_lock_status r = "WAITING") waiting
    /\ (wait_lock (lock trx) = None -> waiting = []).
Proof.
  rewrite scan_trx_exact. unfold trx_rows.
  destruct (accept_transaction_id container (trx_get_id_for_print trx)).
  - destruct (locks_rows_granted (trx_get_id_for_print trx)
                (wait_lock (lock trx)) filter (trx_locks (lock trx)))
      as (granted & waiting & Heq & Hg & Hw & Hnone).
    exists granted, waiting. rewrite Heq. auto.
  - exists [], []. repeat split; constructor.
Qed.

End StatusFacts.

(* ================================================================= *)
(** * Further properties: identifiers and [fetch] *)

Lemma decode_printed (lock : lock_t) (heap_no : Z) (size : nat) :
  (64 <= size)%nat -> fits_long lock heap_no ->
  scan_lock_id (print_lock_id lock heap_no size)
  = Some (lock_identity lock heap_no).
Proof.
  intros Hs (Htrx & Hkey). unfold print_lock_id, lock_identity.
  destruct (lock_get_type lock).
  - apply scan_table_lock_id; [lia|exact Htrx|exact Hkey].
  - destruct Hkey as (Hsp & Hpg & Hhp). apply scan_record_lock_id; assumption.
Qed.

Lemma engine_lock_id_size_enough : (64 <= engine_lock_id_size)%nat.
Proof. unfold engine_lock_id_size, TRX_I_S_LOCK_ID_MAX_LEN. lia. Qed.

Lemma take_length (n : nat) (s : string) :
  (String.length (take n s) <= n)%nat.
Proof.
  revert s. induction n as [|n IH]; intros [|c s]; simpl; try lia.
  specialize (IH s). lia.
Qed.

Lemma lock_id_text_length (lock : lock_t) (heap_no : Z) :
  (String.length (lock_id_text lock heap_no) <= 63)%nat.
Proof.
  unfold lock_id_text.
  pose proof (fmt_u64_length (lock_get_trx_id lock)).
  pose proof (fmt_u64_length (lock_get_table_id lock)).
  pose proof (fmt_u32_length (lock_rec_get_space_id lock)).
  pose proof (fmt_u32_length (lock_rec_get_page_no lock)).
  pose proof (fmt_u64_length heap_no).
  destruct (lock_get_type lock).
  - rewrite length_append. simpl String.length. lia.
  - rewrite length_append. simpl String.length.
    rewrite length_append. simpl String.length.
    rewrite length_append. simpl String.length. lia.
Qed.

(** X4.  Whatever the values of its fields, the identifier of a lock has
    at most 63 characters, so the buffers of [TRX_I_S_LOCK_ID_MAX_LEN + 1]
    bytes that p_s.cc prints into hold it whole: nothing is cut off.  In
    a buffer of any size the text printed stays within [size - 1]
    characters. *)
Theorem print_lock_id_fits_buffer (lock : lock_t) (heap_no : Z) :
  (String.length (lock_id_text lock heap_no) <= 63)%nat
  /\ print_lock_id lock heap_no engine_lock_id_size
     = lock_id_text lock heap_no
  /\ forall size,
       (String.length (print_lock_id lock heap_no size) <= size - 1)%nat.
Proof.
  split; [apply lock_id_text_length|]. split.
  - unfold print_lock_id, lock_id_text.
    pose proof engine_lock_id_size_enough.
    destruct (lock_get_type lock).
    + apply print_table_lock_id_whole. lia.
    + apply print_record_lock_id_whole. lia.
  - intros size. unfold print_lock_id, print_table_lock_id,
      print_record_lock_id, snprintf.
    destruct (lock_get_type lock); apply take_length.
Qed.

(** X5.  Identifiers name locks uniquely: two locks whose fields fit the
    decoder and whose identifiers are equal are of the same kind and have
    the same transaction id and the same table id, or the same space id,
    page number and row slot. *)
Theorem print_lock_id_injective (l1 l2 : lock_t) (h1 h2 : Z) (size : nat) :
  (64 <= size)%nat ->
  fits_long l1 h1 -> fits_long l2 h2 ->
  print_lock_id l1 h1 size = print_lock_id l2 h2 size ->
  lock_identity l1 h1 = lock_identity l2 h2.
Proof.
  intros Hs Hf1 Hf2 Heq.
  pose proof (decode_printed l1 h1 size Hs Hf1) as Hd1.
  pose proof (decode_printed l2 h2 size Hs Hf2) as Hd2.
  rewrite Heq, Hd2 in Hd1. inversion Hd1 as [Hid]. reflexivity.
Qed.

Lemma print_lock_id_injective_witness :
  (64 <= engine_lock_id_size)%nat
  /\ fits_long awaited_lock 2
  /\ fits_long (rec_lock 555 10 5 3 [true]) 2
  /\ print_lock_id awaited_lock 2 engine_lock_id_size
     = print_lock_id (rec_lock 555 10 5 3 [true]) 2 engine_lock_id_size
  /\ lock_identity awaited_lock 2
     = lock_identity (rec_lock 555 10 5 3 [true]) 2.
Proof.
  assert (Hs : (64 <= engine_lock_id_size)%nat)
    by (unfold engine_lock_id_size, TRX_I_S_LOCK_ID_MAX_LEN; lia).
  assert (Hf1 : fits_long awaited_lock 2).
  { unfold fits_long. cbn. repeat split; vm_compute; discriminate. }
  assert (Hf2 : fits_long (rec_lock 555 10 5 3 [true]) 2).
  { unfold fits_long. cbn. repeat split; vm_compute; discriminate. }
  assert (Heq : print_lock_id awaited_lock 2 engine_lock_id_size
                = print_lock_id (rec_lock 555 10 5 3 [true]) 2
                    engine_lock_id_size) by (vm_compute; reflexivity).
  split; [exact Hs|]. split; [exact Hf1|]. split; [exact Hf2|].
  split; [exact Heq|].
  exact (print_lock_id_injective _ _ _ _ _ Hs Hf1 Hf2 Heq).
Defined.

Section DataLockFetch.

Import Innodb_data_lock_iterator.
Context `{lock_sys_api}.
Variable container : PSI_server_data_lock_container.
Variable with_lock_data : bool.

(** Under a filter, a row id belongs to a lock that matches the filter
    in every field, and for a record lock to the slot asked for. *)
Lemma trx_row_ids_filtered (f : lock_id_fields) (trx : trx_t) (a : Z)
    (s : string) :
  In (a, s) (trx_row_ids container (Some f) trx) ->
  exists l,
    In l (trx_locks (lock trx))
    /\ a = lock_addr l
    /\ lock_get_type l = id_record_type f
    /\ s = print_lock_id l (id_heap_id f) engine_lock_id_size
    /\ match lock_get_type l with
       | LOCK_TABLE => lock_get_table_id l = id_table_id f
       | LOCK_REC =>
           lock_rec_get_space_id l = id_space_id f
           /\ lock_rec_get_page_no l = id_page_id f
           /\ In (id_heap_id f) (lock_rec_set_bits l)
       end.
Proof.
  unfold trx_row_ids.
  destruct (accept_transaction_id container _); [|contradiction].
  intros Hin. apply in_flat_map in Hin. destruct Hin as (l & Hl & Hin).
  apply filter_In in Hl. destruct Hl as (Hl & Hsel).
  unfold lock_selected in Hsel. rewrite !andb_true_iff in Hsel.
  destruct Hsel as (((Hty & Hkey) & _) & _).
  assert (Hty' : lock_get_type l = id_record_type f)
    by (destruct (lock_get_type l), (id_record_type f);
        simpl in Hty; congruence).
  exists l. split; [exact Hl|].
  unfold lock_row_ids, print_lock_id in *.
  destruct (lock_get_type l).
  - destruct (accept_lock_id container _); [|contradiction].
    destruct Hin as [Hin|[]]. inversion Hin; subst.
    apply Z.eqb_eq in Hkey. auto.
  - apply in_map_iff in Hin. destruct Hin as (h & Hin & Hh).
    apply filter_In in Hh. destruct Hh as (Hbit & Hsl).
    unfold slot_selected in Hsl. apply andb_true_iff in Hsl.
    destruct Hsl as (Hh & _). apply Z.eqb_eq in Hh. subst h.
    inversion Hin; subst.
    rewrite andb_true_iff, !Z.eqb_eq in Hkey. tauto.
Qed.

(** X6.  [fetch] of the data-lock iterator always returns, with [true];
    it keeps the rows it is given and appends new ones; it takes the two
    mutexes, and releases them in reverse order, exactly when the
    container accepts the engine and the identifier decodes.  Every row
    it adds belongs to a lock of the kind named by the identifier, with
    the same table id or the same space id, page number and set row slot,
    held by a transaction with the decoded id, and carries the identifier
    printed for that lock and slot. *)
Theorem fetch_reports_the_lock_asked_for (trx_sys : trx_sys_t)
    (engine_lock_id : string) (e : effects data_lock_row) :
  exists e' new,
    fetch container with_lock_data trx_sys engine_lock_id e = Ret (true, e')
    /\ rows e' = (rows e ++ new)%list
    /\ mutex_log e'
       = (if accept_engine container g_engine
          then match scan_lock_id engine_lock_id with
               | Some _ =>
                   (mutex_log e
                    ++ [lock_mutex_enter; trx_sys_mutex_enter;
                        trx_sys_mutex_exit; lock_mutex_exit])%list
               | None => mutex_log e
               end
          else mutex_log e)
    /\ Forall
         (fun r =>
            exists f trx l,
              scan_lock_id engine_lock_id = Some f
              /\ (In trx (rw_trx_list trx_sys)
                  \/ In trx (mysql_trx_list trx_sys))
              /\ trx_get_id_for_print trx = id_trx_id f
              /\ row_trx_id r = id_trx_id f
              /\ In l (trx_locks (lock trx))
              /\ row_identity r = lock_addr l
              /\ lock_get_type l = id_record_type f
              /\ row_engine_lock_id r
                 = print_lock_id l (id_heap_id f) engine_lock_id_size
              /\ match lock_get_type l with
                 | LOCK_TABLE => lock_get_table_id l = id_table_id f
                 | LOCK_REC =>
                     lock_rec_get_space_id l = id_space_id f
                     /\ lock_rec_get_page_no l = id_page_id f
                     /\ In (id_heap_id f) (lock_rec_set_bits l)
                 end)
         new.
Proof.
  unfold fetch.
  destruct (accept_engine container g_engine); cbn [negb].
  2: { exists e, []. rewrite app_nil_r. repeat split; constructor. }
  destruct (scan_lock_id engine_lock_id) as [f|].
  2: { exists e, []. rewrite app_nil_r. repeat split; constructor. }
  set (found :=
         match fetch_trx_in_trx_list (id_trx_id f) true (rw_trx_list trx_sys)
         with
         | Some trx => Some trx
         | None =>
             fetch_trx_in_trx_list (id_trx_id f) false
               (mysql_trx_list trx_sys)
         end).
  assert (Hfound : forall trx, found = Some trx ->
            (In trx (rw_trx_list trx_sys) \/ In trx (mysql_trx_list trx_sys))
            /\ trx_get_id_for_print trx = id_trx_id f)
    by (intros trx; apply fetch_trx_in_lists).
  destruct found as [trx|].
  - destruct (Hfound trx eq_refl) as (Hin & Hid).
    eexists. exists (trx_rows container with_lock_data (Some f) trx).
    split; [reflexivity|]. rewrite scan_trx_exact. cbn [snd rows mutex_log
      mutex_op set_rows]. split; [reflexivity|].
    split; [rewrite <- !app_assoc; reflexivity|].
    destruct (scan_trx_reports_rows_aux container with_lock_data trx (Some f))
      as (Hids & Hall).
    apply Forall_forall. intros r Hr.
    assert (Hrid : In (row_id r) (trx_row_ids container (Some f) trx))
      by (rewrite <- Hids; apply in_map; exact Hr).
    unfold row_id in Hrid.
    destruct (trx_row_ids_filtered f trx _ _ Hrid)
      as (l & Hl & Ha & Hty & Hs & Hkey).
    rewrite Forall_forall in Hall. destruct (Hall r Hr) as (_ & Ht & _).
    exists f, trx, l. rewrite Ht. repeat split; auto.
  - eexists. exists []. split; [reflexivity|].
    cbn [rows mutex_log mutex_op set_rows]. rewrite app_nil_r.
    split; [reflexivity|]. split; [rewrite <- !app_assoc; reflexivity|].
    constructor.
Qed.

End DataLockFetch.

Section DataLockFetchFinds.

Import Innodb_data_lock_iterator.
Context `{lock_sys_api}.
Variable container : PSI_server_data_lock_container.
Variable with_lock_data : bool.

Lemma trx_sys_holds_found (trx_sys : trx_sys_t) (trx : trx_t) :
  trx_sys_holds trx_sys trx ->
  match fetch_trx_in_trx_list (trx_get_id_for_print trx) true
          (rw_trx_list trx_sys) with
  | Some t => Some t
  | None =>
      fetch_trx_in_trx_list (trx_get_id_for_print trx) false
        (mysql_trx_list trx_sys)
  end = Some trx.
Proof.
  intros [(Hin & Hd & Hu)|(Hnone & Hin & Hd & Hu)].
  - rewrite (fetch_trx_finds true _ trx Hin Hd Hu). reflexivity.
  - rewrite Hnone. apply (fetch_trx_finds false _ trx Hin Hd Hu).
Qed.

(** The row ids of a transaction under the filter made of the identity of
    one of its locks include that lock. *)
Lemma trx_row_ids_own_lock (trx : trx_t) (l : lock_t) (heap_no : Z) :
  In l (trx_locks (lock trx)) ->
  (lock_get_type l = LOCK_REC -> In heap_no (lock_rec_set_bits l)) ->
  accept_transaction_id container (trx_get_id_for_print trx) = true ->
  accept_thread_id_event_id container
    (lock_psi_thread_id l) (lock_psi_event_id l) = true ->
  accept_object container (parse_table_path (lock_get_table_name l)) = true ->
  accept_lock_id container (print_lock_id l heap_no engine_lock_id_size)
  = true ->
  In (lock_addr l, print_lock_id l heap_no engine_lock_id_size)
     (trx_row_ids container (Some (lock_identity l heap_no)) trx).
Proof.
  intros Hl Hbit Ht Hth Hob Hid. unfold trx_row_ids. rewrite Ht.
  apply in_flat_map. exists l. split.
  - apply filter_In. split; [exact Hl|].
    unfold lock_selected, lock_identity. rewrite Hth, Hob.
    destruct (lock_get_type l) eqn:Hty; cbn; rewrite ?Z.eqb_refl; reflexivity.
  - unfold lock_row_ids, print_lock_id in *.
    destruct (lock_get_type l) eqn:Hty.
    + rewrite Hid. left. reflexivity.
    + apply in_map_iff. exists heap_no. split; [reflexivity|].
      apply filter_In. split; [auto|].
      unfold slot_selected, lock_identity. rewrite Hty.
      cbn [id_heap_id]. rewrite Z.eqb_refl. exact Hid.
Qed.

(** X7.  [fetch] finds a lock by the identifier printed for it.  Take a
    transaction that the transaction system holds, one of its locks whose
    fields fit the decoder, and for a record lock one of its set row
    slots: if the container accepts the engine, the transaction, the
    lock's thread and event, its table and its identifier, then [fetch] of
    that identifier returns [true], keeps the rows it is given, releases
    both mutexes, and among the rows it adds is one with the address of
    the lock as identity and the identifier asked for. *)
Theorem fetch_finds_printed_lock (trx_sys : trx_sys_t) (trx : trx_t)
    (l : lock_t) (heap_no : Z) (e : effects data_lock_row) :
  trx_sys_holds trx_sys trx ->
  In l (trx_locks (lock trx)) ->
  lock_get_trx_id l = trx_get_id_for_print trx ->
  fits_long l heap_no ->
  (lock_get_type l = LOCK_REC -> In heap_no (lock_rec_set_bits l)) ->
  accept_engine container g_engine = true ->
  accept_transaction_id container (trx_get_id_for_print trx) = true ->
  accept_thread_id_event_id container
    (lock_psi_thread_id l) (lock_psi_event_id l) = true ->
  accept_object container (parse_table_path (lock_get_table_name l)) = true ->
  accept_lock_id container (print_lock_id l heap_no engine_lock_id_size)
  = true ->
  exists e' new,
    fetch container with_lock_data trx_sys
      (print_lock_id l heap_no engine_lock_id_size) e
    = Ret (true, e')
    /\ rows e' = (rows e ++ new)%list
    /\ mutex_log e'
       = (mutex_log e
          ++ [lock_mutex_enter; trx_sys_mutex_enter;
              trx_sys_mutex_exit; lock_mutex_exit])%list
    /\ exists r,
         In r new
         /\ row_identity r = lock_addr l
         /\ row_engine_lock_id r
            = print_lock_id l heap_no engine_lock_id_size
         /\ row_trx_id r = trx_get_id_for_print trx.
Proof.
  intros Hheld Hl Hown Hfits Hbit Heng Ht Hth Hob Hid.
  unfold fetch. rewrite Heng. cbn [negb].
  rewrite (decode_printed l heap_no engine_lock_id_size
             engine_lock_id_size_enough Hfits).
  assert (Htrx : id_trx_id (lock_identity l heap_no)
                 = trx_get_id_for_print trx)
    by (unfold lock_identity; destruct (lock_get_type l); exact Hown).
  rewrite Htrx, (trx_sys_holds_found trx_sys trx Hheld).
  rewrite scan_trx_exact. cbn [snd rows mutex_log mutex_op set_rows].
  eexists.
  exists (trx_rows container with_lock_data
            (Some (lock_identity l heap_no)) trx).
  split; [reflexivity|]. cbn [rows mutex_log]. split; [reflexivity|].
  split; [unfold mutex_op, set_rows; cbn [mutex_log rows];
          rewrite <- ?app_assoc; reflexivity|].
  destruct (scan_trx_reports_rows_aux container with_lock_data trx
              (Some (lock_identity l heap_no))) as (Hids & Hall).
  pose proof (trx_row_ids_own_lock trx l heap_no Hl Hbit Ht Hth Hob Hid)
    as Hin.
  rewrite <- Hids in Hin. apply in_map_iff in Hin.
  destruct Hin as (r & Hr & Hin). exists r. split; [exact Hin|].
  unfold row_id in Hr. inversion Hr as [[Ha Hs]].
  rewrite Forall_forall in Hall. destruct (Hall r Hin) as (_ & Hrt & _).
  rewrite Ha, Hs. auto.
Qed.

End DataLockFetchFinds.

Lemma fetch_finds_printed_lock_witness :
  exists e' new,
    Innodb_data_lock_iterator.fetch (H := one_blocker) accept_all_locks false
      waiting_trx_sys "10:5:3:2" no_effects
    = Ret (true, e')
    /\ rows e' = (rows no_effects ++ new)%list
    /\ mutex_log e'
       = (mutex_log no_effects
          ++ [lock_mutex_enter; trx_sys_mutex_enter;
              trx_sys_mutex_exit; lock_mutex_exit])%list
    /\ exists r,
         In r new
         /\ Innodb_data_lock_iterator.row_identity r = 100
         /\ Innodb_data_lock_iterator.row_engine_lock_id r = "10:5:3:2"
         /\ Innodb_data_lock_iterator.row_trx_id r = 10.
Proof.
  apply (fetch_finds_printed_lock (H := one_blocker) accept_all_locks false
           waiting_trx_sys waiting_trx awaited_lock 2 no_effects).
  - left. split; [left; reflexivity|]. split; [reflexivity|].
    intros t [<-|[]] _ _. reflexivity.
  - right. left. reflexivity.
  - reflexivity.
  - unfold fits_long. cbn. repeat split; vm_compute; discriminate.
  - intros _. vm_compute. left. reflexivity.
  - reflexivity.
  - reflexivity.
  - reflexivity.
  - reflexivity.
  - reflexivity.
Defined.

Section WaitFetch.

Import Innodb_data_lock_wait_iterator.
Context `{lock_sys_api}.
Variable container : PSI_server_data_lock_wait_container.

(** The rows [scan_trx] of the wait iterator adds under a filter. *)
Lemma scan_trx_filtered (trx : trx_t) (rq bk : lock_id_fields)
    (rs : list data_lock_wait_row) :
  match scan_trx container trx (Some (rq, bk)) rs with
  | Ret (n, rs') =>
      exists new,
        rs' = (rs ++ new)%list
        /\ Forall
             (fun r =>
                exists wl curr,
                  wait_lock (lock trx) = Some wl
                  /\ In curr (lock_queue_prev wl)
                  /\ lock_has_to_wait wl curr = true
                  /\ r = wait_row trx wl curr
                  /\ same_resource wl rq = true
                  /\ same_resource curr bk = true)
             new
  | Fatal =>
      is_lock_wait (que_state (lock trx)) = true
      /\ wait_lock (lock trx) = None
  | OutOfFuel => False
  end.
Proof.
  destruct (is_lock_wait (que_state (lock trx))) eqn:Hq.
  - destruct (wait_lock (lock trx)) as [wl|] eqn:Hw.
    + rewrite (scan_trx_waiting container trx wl _ rs Hq Hw). cbv zeta.
      eexists. split; [reflexivity|].
      apply Forall_forall. intros r Hr. apply in_map_iff in Hr.
      destruct Hr as (curr & <- & Hin). apply filter_In in Hin.
      destruct Hin as (Hin & Hedge). unfold wait_edge in Hedge.
      rewrite !andb_true_iff in Hedge. destruct Hedge as ((Hw' & Hrq) & Hbk).
      unfold requesting_accepted in Hrq. rewrite !andb_true_iff in Hrq.
      unfold blocking_accepted in Hbk. rewrite !andb_true_iff in Hbk.
      cbn [option_map fst snd matches_filter] in Hrq, Hbk.
      exists wl, curr. tauto.
    + unfold scan_trx. rewrite Hq, Hw. cbn [negb]. split; reflexivity.
  - unfold scan_trx. rewrite Hq. cbn [negb]. exists [].
    rewrite app_nil_r. split; [reflexivity|constructor].
Qed.

(** X8.  [fetch] of the wait iterator fails the assertion only when the
    transaction it finds is in the lock-wait state without an awaited
    lock.  When it returns it returns [true], keeps
    the rows it is given, and has taken and released the two mutexes
    exactly when the engine is accepted and both identifiers decode.
    Every row it adds is the row of a wait edge: the awaited lock of a
    transaction with the decoded requesting transaction id, and a lock
    ahead of it in its queue that it has to wait for; the awaited lock
    matches the requesting identifier and the blocking lock the blocking
    identifier, each in kind, table id or space id and page number, and
    in its own first set row slot. *)
Theorem wait_fetch_reports_the_edge_asked_for (trx_sys : trx_sys_t)
    (requesting_id blocking_id : string) (e : effects data_lock_wait_row) :
  match fetch container trx_sys requesting_id blocking_id e with
  | Ret (b, e') =>
      b = true
      /\ exists new,
           rows e' = (rows e ++ new)%list
           /\ mutex_log e'
              = (if accept_engine container g_engine
                 then match scan_lock_id requesting_id,
                            scan_lock_id blocking_id with
                      | Some _, Some _ =>
                          (mutex_log e
                           ++ [lock_mutex_enter; trx_sys_mutex_enter;
                               trx_sys_mutex_exit; lock_mutex_exit])%list
                      | _, _ => mutex_log e
                      end
                 else mutex_log e)
           /\ Forall
                (fun r =>
                   exists rq bk trx wl curr,
                     scan_lock_id requesting_id = Some rq
                     /\ scan_lock_id blocking_id = Some bk
                     /\ (In trx (rw_trx_list trx_sys)
                         \/ In trx (mysql_trx_list trx_sys))
                     /\ trx_get_id_for_print trx = id_trx_id rq
                     /\ wait_lock (lock trx) = Some wl
                     /\ In curr (lock_queue_prev wl)
                     /\ lock_has_to_wait wl curr = true
                     /\ r = wait_row trx wl curr
                     /\ same_resource wl rq = true
                     /\ same_resource curr bk = true)
                new
  | Fatal =>
      exists rq trx,
        scan_lock_id requesting_id = Some rq
        /\ (In trx (rw_trx_list trx_sys) \/ In trx (mysql_trx_list trx_sys))
        /\ trx_get_id_for_print trx = id_trx_id rq
        /\ is_lock_wait (que_state (lock trx)) = true
        /\ wait_lock (lock trx) = None
  | OutOfFuel => False
  end.
Proof.
  unfold fetch.
  destruct (accept_engine container g_engine); cbn [negb].
  2: { split; [reflexivity|]. exists []. rewrite app_nil_r.
       repeat split; constructor. }
  destruct (scan_lock_id requesting_id) as [rq|].
  2: { split; [reflexivity|]. exists []. rewrite app_nil_r.
       repeat split; constructor. }
  destruct (scan_lock_id blocking_id) as [bk|].
  2: { split; [reflexivity|]. exists []. rewrite app_nil_r.
       repeat split; constructor. }
  pose proof (fetch_trx_in_lists trx_sys (id_trx_id rq)) as Hfound.
  destruct (match fetch_trx_in_trx_list (id_trx_id rq) true
                    (rw_trx_list trx_sys) with
            | Some t => Some t
            | None => fetch_trx_in_trx_list (id_trx_id rq) false
                        (mysql_trx_list trx_sys)
            end) as [trx|].
  - destruct (Hfound trx eq_refl) as (Hin & Hid).
    pose proof (scan_trx_filtered trx rq bk
                  (rows (mutex_op trx_sys_mutex_enter
                           (mutex_op lock_mutex_enter e)))) as Hscan.
    destruct (scan_trx container trx (Some (rq, bk)) _) as [[n rs']| |];
      cbn [bind].
    + destruct Hscan as (new & -> & Hall). split; [reflexivity|].
      exists new. unfold mutex_op, set_rows. cbn [rows mutex_log snd].
      split; [reflexivity|]. split; [rewrite <- ?app_assoc; reflexivity|].
      eapply Forall_impl; [|exact Hall]. cbv beta.
      intros r (wl & curr & Hr). exists rq, bk, trx, wl, curr. tauto.
    + exists rq, trx. tauto.
    + exact Hscan.
  - cbn [bind]. split; [reflexivity|]. exists [].
    unfold mutex_op. cbn [rows mutex_log]. rewrite app_nil_r.
    split; [reflexivity|]. split; [rewrite <- ?app_assoc; reflexivity|].
    constructor.
Qed.

End WaitFetch.

Section WaitFetchFinds.

Import Innodb_data_lock_wait_iterator.
Context `{lock_sys_api}.
Variable container : PSI_server_data_lock_wait_container.

(** A lock matches the decoded form of its own identifier when the slot
    printed is its first set row slot; a table lock always does. *)
Lemma same_resource_own (l : lock_t) (heap_no : Z) :
  same_resource l (lock_identity l heap_no) = true
  <-> (lock_get_type l = LOCK_REC -> lock_rec_find_set_bit l = heap_no).
Proof.
  unfold same_resource, lock_identity.
  destruct (lock_get_type l) eqn:Hty; cbn.
  - rewrite Z.eqb_refl. split; [discriminate|reflexivity].
  - rewrite !Z.eqb_refl. cbn. rewrite Z.eqb_eq. tauto.
Qed.

(** X9.  Looking a wait edge up by the two identifiers reported for it.
    Take a transaction that the transaction system holds and that waits
    for [wl], and a lock [curr] ahead of [wl] in its queue that [wl] has
    to wait for; let the fields of both fit the decoder and the container
    accept engine, both transactions, both thread and event pairs and
    both identifiers.  [fetch] of the identifiers of this edge (both
    carry the row slot of [wl]) returns [true] and adds the rows of the
    edges it selects, and it selects [curr] if and only if [curr] is a
    table lock or the first set row slot of [curr] is the slot awaited:
    a blocking record lock that also covers a lower slot of the page is
    not found. *)
Theorem wait_fetch_finds_edge (trx_sys : trx_sys_t) (trx : trx_t)
    (wl curr : lock_t) (e : effects data_lock_wait_row) :
  trx_sys_holds trx_sys trx ->
  is_lock_wait (que_state (lock trx)) = true ->
  wait_lock (lock trx) = Some wl ->
  lock_get_trx_id wl = trx_get_id_for_print trx ->
  In curr (lock_queue_prev wl) ->
  lock_has_to_wait wl curr = true ->
  fits_long wl (requesting_heap_no wl) ->
  fits_long curr (requesting_heap_no wl) ->
  accept_engine container g_engine = true ->
  accept_requesting_transaction_id container (trx_get_id_for_print trx)
  = true ->
  accept_requesting_thread_id_event_id container
    (lock_psi_thread_id wl) (lock_psi_event_id wl) = true ->
  accept_requesting_lock_id container
    (print_lock_id wl (requesting_heap_no wl) engine_lock_id_size) = true ->
  accept_blocking_transaction_id container (lock_get_trx_id curr) = true ->
  accept_blocking_thread_id_event_id container
    (lock_psi_thread_id curr) (lock_psi_event_id curr) = true ->
  accept_blocking_lock_id container
    (print_lock_id curr (requesting_heap_no wl) engine_lock_id_size) = true ->
  exists e' edges,
    fetch container trx_sys
      (print_lock_id wl (requesting_heap_no wl) engine_lock_id_size)
      (print_lock_id curr (requesting_heap_no wl) engine_lock_id_size) e
    = Ret (true, e')
    /\ rows e' = (rows e ++ map (wait_row trx wl) edges)%list
    /\ (forall c, In c edges -> In c (lock_queue_prev wl))
    /\ (In curr edges <->
        (lock_get_type curr = LOCK_REC ->
         lock_rec_find_set_bit curr = requesting_heap_no wl)).
Proof.
  intros Hheld Hq Hw Hown Hin Hwait Hfw Hfc Heng Hrt Hrth Hrid Hbt Hbth Hbid.
  unfold fetch. rewrite Heng. cbn [negb].
  rewrite (decode_printed wl _ _ engine_lock_id_size_enough Hfw).
  rewrite (decode_printed curr _ _ engine_lock_id_size_enough Hfc).
  assert (Htrx : id_trx_id (lock_identity wl (requesting_heap_no wl))
                 = trx_get_id_for_print trx)
    by (unfold lock_identity; destruct (lock_get_type wl); exact Hown).
  rewrite Htrx, (trx_sys_holds_found trx_sys trx Hheld).
  rewrite (scan_trx_waiting container trx wl _ _ Hq Hw). cbv zeta.
  cbn [bind snd]. eexists. eexists. split; [reflexivity|].
  unfold mutex_op, set_rows. cbn [rows mutex_log].
  split; [reflexivity|]. split.
  - intros c Hc. apply filter_In in Hc. tauto.
  - rewrite filter_In. unfold wait_edge, requesting_accepted,
      blocking_accepted.
    cbn [option_map fst snd matches_filter].
    rewrite Hwait, Hrt, Hrth, Hrid, Hbt, Hbth, Hbid.
    assert (Hreq : same_resource wl (lock_identity wl (requesting_heap_no wl))
                   = true).
    { apply same_resource_own. intros Hty. unfold requesting_heap_no.
      rewrite Hty. reflexivity. }
    rewrite Hreq. cbn [andb]. rewrite !andb_true_r.
    rewrite same_resource_own. tauto.
Qed.

End WaitFetchFinds.

Lemma wait_fetch_finds_edge_witness :
  exists e' edges,
    Innodb_data_lock_wait_iterator.fetch (H := one_blocker) accept_all_waits
      waiting_trx_sys "10:5:3:2" "11:5:3:2" {| rows := []; mutex_log := [] |}
    = Ret (true, e')
    /\ rows e'
       = ([] ++ map (Innodb_data_lock_wait_iterator.wait_row
                       waiting_trx awaited_lock) edges)%list
    /\ (forall c, In c edges -> In c [blocking_lock])
    /\ (In blocking_lock edges <-> (LOCK_REC = LOCK_REC -> 1 = 2)).
Proof.
  apply (wait_fetch_finds_edge (H := one_blocker) accept_all_waits
           waiting_trx_sys waiting_trx awaited_lock blocking_lock
           {| rows := []; mutex_log := [] |}).
  - left. split; [left; reflexivity|]. split; [reflexivity|].
    intros t [<-|[]] _ _. reflexivity.
  - reflexivity.
  - reflexivity.
  - reflexivity.
  - left. reflexivity.
  - reflexivity.
  - unfold fits_long. cbn. repeat split; vm_compute; discriminate.
  - unfold fits_long. cbn. repeat split; vm_compute; discriminate.
  - reflexivity.
  - reflexivity.
  - reflexivity.
  - reflexivity.
  - reflexivity.
  - reflexivity.
  - reflexivity.
Defined.

(* ================================================================= *)
(** * Further properties: a whole scan *)

Lemma prepare_start_hint (s s' : Innodb_trx_scan_state) :
  range_wf s -> m_next_trx_id_range s <> TRX_ID_MAX ->
  prepare_next_scan s = Ret s' ->
  m_start_trx_id_range s' <= m_next_trx_id_range s.
Proof.
  intros Hwf Hh Hs.
  destruct Hwf as (H0 & _ & He & _ & [Hn|Hn]); [contradiction|].
  destruct (floor_range_bounds (m_next_trx_id_range s)) as (Hb & Hb' & _);
    [unfold SCAN_RANGE in *; lia|].
  unfold prepare_next_scan in Hs. apply Z.eqb_neq in Hh. rewrite Hh in Hs.
  cbn [negb] in Hs. inversion Hs; subst s'; clear Hs.
  cbn [m_start_trx_id_range]. rewrite wrap64_small;
    unfold SCAN_RANGE in *; lia.
Qed.

Lemma prepare_no_hint (s s' : Innodb_trx_scan_state) :
  m_next_trx_id_range s = TRX_ID_MAX ->
  prepare_next_scan s = Ret s' ->
  next_pass (m_scan_pass s) = Some (m_scan_pass s')
  /\ (m_scan_pass s <> SCANNING_MYSQL_TRX_LIST ->
      m_start_trx_id_range s' = 0).
Proof.
  intros Hh. unfold prepare_next_scan. rewrite Hh, Z.eqb_refl. cbn [negb].
  destruct (m_scan_pass s); intros [=<-]; cbn; split; congruence.
Qed.

Lemma trx_id_in_range_within (trx_id : Z) (s : Innodb_trx_scan_state) :
  fst (trx_id_in_range trx_id s)
  = within (m_start_trx_id_range s) (m_end_trx_id_range s) trx_id.
Proof.
  unfold trx_id_in_range, within.
  destruct ((m_start_trx_id_range s <=? trx_id)
            && (trx_id <? m_end_trx_id_range s)); [reflexivity|].
  destruct ((m_end_trx_id_range s <=? trx_id)
            && (trx_id <? m_next_trx_id_range s)); reflexivity.
Qed.

(** The hint only goes down, and ends at or below an id that is at or
    above the end of the range. *)
Lemma trx_id_in_range_min (trx_id : Z) (s : Innodb_trx_scan_state) :
  m_next_trx_id_range (snd (trx_id_in_range trx_id s))
  <= m_next_trx_id_range s
  /\ (m_end_trx_id_range s <= trx_id ->
      m_next_trx_id_range (snd (trx_id_in_range trx_id s)) <= trx_id).
Proof.
  unfold trx_id_in_range.
  destruct ((m_start_trx_id_range s <=? trx_id)
            && (trx_id <? m_end_trx_id_range s)) eqn:E1.
  - cbn [snd]. apply andb_true_iff in E1. split; lia.
  - destruct ((m_end_trx_id_range s <=? trx_id)
              && (trx_id <? m_next_trx_id_range s)) eqn:E2;
      cbn [snd m_next_trx_id_range].
    + apply andb_true_iff in E2. split; lia.
    + apply andb_false_iff in E2. destruct E2 as [E2|E2]; split; lia.
Qed.

Section WalkFacts.

Import Innodb_data_lock_iterator.
Context `{lock_sys_api}.
Variable container : PSI_server_data_lock_container.
Variable with_lock_data : bool.

(** The rows of one walk: those of the transactions in range. *)
Lemma walk_rows (read_write : bool) (l : list trx_t) (first last : Z) :
  forall st found rs,
    m_start_trx_id_range st = first -> m_end_trx_id_range st = last ->
    let r := scan_trx_list_from container with_lock_data read_write l st
               found rs in
    fst (fst r)
    = (found + List.length (selected_rows
        (trx_rows container with_lock_data None) read_write
        (within first last) l))%nat
    /\ snd r = (rs ++ selected_rows
        (trx_rows container with_lock_data None) read_write
        (within first last) l)%list.
Proof.
  unfold selected_rows.
  induction l as [|t l IH]; intros st found rs Hs He; cbv zeta.
  - cbn. rewrite Nat.add_0_r, app_nil_r. auto.
  - cbn [scan_trx_list_from List.filter].
    destruct (discard_trx t read_write); cbn [negb andb];
      [apply IH; assumption|].
    pose proof (trx_id_in_range_frame (trx_get_id_for_print t) st) as Hfr.
    pose proof (trx_id_in_range_within (trx_get_id_for_print t) st) as Hin.
    rewrite Hs, He in Hin.
    destruct (trx_id_in_range (trx_get_id_for_print t) st) as [b st1].
    cbn [fst snd] in Hfr, Hin. cbv zeta in Hfr.
    destruct Hfr as (_ & Hs1 & He1). rewrite <- Hin.
    destruct b; cbn [negb].
    + rewrite scan_trx_exact. cbn [flat_map].
      destruct (IH st1 (found + List.length
                          (trx_rows container with_lock_data None t))%nat
                  (rs ++ trx_rows container with_lock_data None t)%list)
        as (Hf & Hr); [congruence|congruence|].
      cbv zeta in Hf, Hr. rewrite Hf, Hr.
      rewrite length_app, <- app_assoc. split; [lia|reflexivity].
    + apply IH; congruence.
Qed.

(** The hint after a walk is at most the hint before and at most the id
    of any transaction of the list that is not discarded and lies at or
    above the end of the range. *)
Lemma walk_hint (read_write : bool) (l : list trx_t) :
  forall st found rs,
    let st' := snd (fst (scan_trx_list_from container with_lock_data
                           read_write l st found rs)) in
    m_next_trx_id_range st' <= m_next_trx_id_range st
    /\ forall t, In t l -> discard_trx t read_write = false ->
                 m_end_trx_id_range st <= trx_get_id_for_print t ->
                 m_next_trx_id_range st' <= trx_get_id_for_print t.
Proof.
  induction l as [|t l IH]; intros st found rs; cbv zeta.
  - cbn. split; [lia|]. intros t [].
  - cbn [scan_trx_list_from].
    destruct (discard_trx t read_write) eqn:Hd.
    + destruct (IH st found rs) as (Hle & Hmin). split; [exact Hle|].
      intros t' [<-|Hin] Hd' Hid; [congruence|auto].
    + pose proof (trx_id_in_range_frame (trx_get_id_for_print t) st) as Hfr.
      pose proof (trx_id_in_range_min (trx_get_id_for_print t) st) as Hst1.
      destruct (trx_id_in_range (trx_get_id_for_print t) st) as [b st1].
      cbn [snd] in Hfr, Hst1. cbv zeta in Hfr, Hst1.
      destruct Hfr as (_ & _ & He1). destruct Hst1 as (Hle1 & Hmin1).
      assert (Hgoal : forall found rs,
                let st' := snd (fst (scan_trx_list_from container
                                       with_lock_data read_write l st1
                                       found rs)) in
                m_next_trx_id_range st' <= m_next_trx_id_range st
                /\ forall t', In t' (t :: l) ->
                     discard_trx t' read_write = false ->
                     m_end_trx_id_range st <= trx_get_id_for_print t' ->
                     m_next_trx_id_range st' <= trx_get_id_for_print t').
      { intros f r. destruct (IH st1 f r) as (Hle & Hmin). cbv zeta.
        split; [lia|]. intros t' [<-|Hin] Hd' Hid.
        - specialize (Hmin1 Hid). lia.
        - apply Hmin; [assumption|assumption|lia]. }
      destruct (negb b); [apply Hgoal|].
      destruct (scan_trx container with_lock_data t None rs) as [n rs1].
      apply Hgoal.
Qed.

(** What one walk of a list does to rows and scan state. *)
Lemma walk_spec (read_write : bool) (l : list trx_t)
    (st : Innodb_trx_scan_state) (found : nat) (rs : list data_lock_row) :
  exists st',
    scan_trx_list_from container with_lock_data read_write l st found rs
    = ((found
        + List.length
            (selected_rows (trx_rows container with_lock_data None) read_write
               (within (m_start_trx_id_range st) (m_end_trx_id_range st)) l))
       %nat,
       st',
       (rs ++ selected_rows (trx_rows container with_lock_data None) read_write
                (within (m_start_trx_id_range st) (m_end_trx_id_range st)) l)
       %list)
    /\ m_scan_pass st' = m_scan_pass st
    /\ m_start_trx_id_range st' = m_start_trx_id_range st
    /\ m_end_trx_id_range st' = m_end_trx_id_range st
    /\ m_next_trx_id_range st' <= m_next_trx_id_range st
    /\ (forall t, In t l -> discard_trx t read_write = false ->
                  m_end_trx_id_range st <= trx_get_id_for_print t ->
                  m_next_trx_id_range st' <= trx_get_id_for_print t)
    /\ (m_next_trx_id_range st' = m_next_trx_id_range st
        \/ exists t,
             In t l /\ discard_trx t read_write = false
             /\ m_end_trx_id_range st <= trx_get_id_for_print t
             /\ m_next_trx_id_range st' = trx_get_id_for_print t).
Proof.
  pose proof (walk_rows read_write l _ _ st found rs eq_refl eq_refl)
    as Hrows.
  pose proof (walk_hint read_write l st found rs) as Hhint.
  pose proof (scan_trx_list_from_state container with_lock_data read_write l
                st found rs) as Hst.
  destruct (scan_trx_list_from container with_lock_data read_write l st
              found rs) as [[found' st'] rs'].
  cbn [fst snd] in *. cbv zeta in *.
  destruct Hrows as (-> & ->). destruct Hhint as (Hle & Hmin).
  destruct Hst as (Hp & Hs & He & Hh).
  exists st'.
  repeat (split; [assumption || reflexivity|]).
  destruct Hh as [Hh|(t & Hin & Hd & Hn & Hge)]; [auto|].
  right. exists t. auto.
Qed.

(** X10.  One walk of [scan_trx_list] over a list reports, in list order,
    exactly the rows of the transactions that are not discarded and whose
    id lies in the current range, and returns their number.  It leaves
    pass and range as they are.  The hint it leaves is the smallest among
    the hint it started with and the ids of the transactions that are not
    discarded and lie at or above the end of the range: the next range
    cannot skip a transaction. *)
Theorem scan_trx_list_reports_range (read_write : bool) (l : list trx_t)
    (st : Innodb_trx_scan_state) (rs : list data_lock_row) :
  exists st' new,
    scan_trx_list container with_lock_data read_write l st rs
    = (List.length new, st', (rs ++ new)%list)
    /\ new = selected_rows (trx_rows container with_lock_data None) read_write
               (within (m_start_trx_id_range st) (m_end_trx_id_range st)) l
    /\ m_scan_pass st' = m_scan_pass st
    /\ m_start_trx_id_range st' = m_start_trx_id_range st
    /\ m_end_trx_id_range st' = m_end_trx_id_range st
    /\ m_next_trx_id_range st' <= m_next_trx_id_range st
    /\ (forall t, In t l -> discard_trx t read_write = false ->
                  m_end_trx_id_range st <= trx_get_id_for_print t ->
                  m_next_trx_id_range st' <= trx_get_id_for_print t)
    /\ (m_next_trx_id_range st' < m_next_trx_id_range st ->
        exists t,
          In t l /\ discard_trx t read_write = false
          /\ m_end_trx_id_range st <= trx_get_id_for_print t
          /\ m_next_trx_id_range st' = trx_get_id_for_print t).
Proof.
  unfold scan_trx_list.
  destruct (walk_spec read_write l st O rs)
    as (st' & Hwalk & Hp & Hs & He & Hle & Hmin & Hh).
  exists st'. eexists. rewrite Hwalk, Nat.add_0_l.
  split; [reflexivity|]. split; [reflexivity|].
  split; [exact Hp|]. split; [exact Hs|].
  split; [exact He|]. split; [exact Hle|]. split; [exact Hmin|].
  intros Hlt. destruct Hh as [Hh|Hh]; [lia|exact Hh].
Qed.

End WalkFacts.

Section SelectedRowsFacts.

Context {A : Type}.
Variable per_trx : trx_t -> list A.

Lemma selected_rows_ext (read_write : bool) (sel sel' : Z -> bool)
    (l : list trx_t) :
  (forall t, In t l -> discard_trx t read_write = false ->
             sel (trx_get_id_for_print t) = sel' (trx_get_id_for_print t)) ->
  selected_rows per_trx read_write sel l
  = selected_rows per_trx read_write sel' l.
Proof.
  intros Hsel. unfold selected_rows. f_equal. apply filter_ext_in.
  intros t Hin. destruct (discard_trx t read_write) eqn:Hd; [reflexivity|].
  cbn [negb andb]. auto.
Qed.

Lemma selected_rows_none (read_write : bool) (sel : Z -> bool)
    (l : list trx_t) :
  (forall t, In t l -> discard_trx t read_write = false ->
             sel (trx_get_id_for_print t) = false) ->
  selected_rows per_trx read_write sel l = [].
Proof.
  intros Hsel.
  rewrite (selected_rows_ext read_write sel (fun _ => false) l Hsel).
  unfold selected_rows. rewrite filter_none; [reflexivity|].
  intros t. apply andb_false_r.
Qed.

(** The rows from [first] on are those of the range [[first, last)] and
    those from [last] on. *)
Lemma rows_from_split (read_write : bool) (l : list trx_t) (first last : Z) :
  first <= last ->
  Permutation
    (selected_rows per_trx read_write (within first last) l
     ++ rows_from per_trx read_write l last)
    (rows_from per_trx read_write l first).
Proof.
  intros Hle. unfold rows_from, selected_rows, within.
  induction l as [|t l IH]; [constructor|].
  cbn [List.filter].
  destruct (discard_trx t read_write); cbn [negb andb]; [exact IH|].
  destruct (first <=? trx_get_id_for_print t) eqn:E1;
    destruct (trx_get_id_for_print t <? last) eqn:E2;
    destruct (last <=? trx_get_id_for_print t) eqn:E3;
    cbn [andb flat_map]; try lia; try exact IH.
  - rewrite <- app_assoc. apply Permutation_app_head. exact IH.
  - etransitivity; [apply Permutation_app_swap_app|].
    apply Permutation_app_head. exact IH.
Qed.

Lemma rows_from_zero (read_write : bool) (l : list trx_t) :
  trx_ids_below_top l ->
  rows_from per_trx read_write l 0
  = selected_rows per_trx read_write (fun _ => true) l.
Proof.
  intros Hids. unfold rows_from. apply selected_rows_ext. intros t Hin _.
  unfold trx_ids_below_top in Hids. rewrite Forall_forall in Hids.
  specialize (Hids t Hin). apply Z.leb_le. lia.
Qed.

(** Nothing is left at or above [last] when no transaction that is not
    discarded has its id there. *)
Lemma rows_from_none (read_write : bool) (l : list trx_t) (last : Z) :
  (forall t, In t l -> discard_trx t read_write = false ->
             trx_get_id_for_print t < last) ->
  rows_from per_trx read_write l last = [].
Proof.
  intros Hlt. unfold rows_from. apply selected_rows_none.
  intros t Hin Hd. apply Z.leb_gt. auto.
Qed.

(** Moving the start of the range up over ids that no transaction has
    changes nothing. *)
Lemma rows_from_same (read_write : bool) (l : list trx_t) (first first' : Z) :
  (forall t, In t l -> discard_trx t read_write = false ->
             (first <= trx_get_id_for_print t
              <-> first' <= trx_get_id_for_print t)) ->
  rows_from per_trx read_write l first = rows_from per_trx read_write l first'.
Proof.
  intros Hiff. unfold rows_from. apply selected_rows_ext. intros t Hin Hd.
  specialize (Hiff t Hin Hd).
  destruct (first <=? trx_get_id_for_print t) eqn:E1;
    destruct (first' <=? trx_get_id_for_print t) eqn:E2; try reflexivity; lia.
Qed.

End SelectedRowsFacts.

Section FullScanFacts.

Import Innodb_data_lock_iterator.
Context `{lock_sys_api}.
Variable container : PSI_server_data_lock_container.
Variable with_lock_data : bool.

(** One loop of [scan], entered in its own pass with nothing found yet:
    it ends either in the same pass with rows found, or in the next pass
    with the list exhausted; the rows it adds and those from the start of
    the range it leaves are the rows from the start of the range it was
    entered with. *)
Lemma scan_while_rows (pass : scan_pass) (read_write : bool)
    (l : list trx_t) :
  pass <> DONE_SCANNING -> trx_ids_below_top l ->
  forall fuel st rs,
    scan_entry_wf st -> m_scan_pass st = pass ->
    (pending read_write l (m_end_trx_id_range st) < fuel)%nat ->
    exists st' new,
      scan_while container with_lock_data fuel pass read_write l st O rs
      = Ret (st', List.length new, (rs ++ new)%list)
      /\ scan_entry_wf st'
      /\ ((m_scan_pass st' = pass /\ new <> []
           /\ Permutation
                (new ++ rows_from
                    (trx_rows container with_lock_data None) read_write l
                          (m_start_trx_id_range st'))
                (rows_from (trx_rows container with_lock_data None) read_write l
                   (m_start_trx_id_range st)))
          \/ (next_pass pass = Some (m_scan_pass st')
              /\ (pass <> SCANNING_MYSQL_TRX_LIST ->
                  m_start_trx_id_range st' = 0)
              /\ Permutation new
                   (rows_from (trx_rows container with_lock_data None)
                       read_write l
                      (m_start_trx_id_range st)))).
Proof.
  intros Hpass Hids.
  induction fuel as [|fuel IH]; intros st rs Hwf Hp Hfuel; [lia|].
  cbn [scan_while]. unfold get_pass. rewrite Hp, scan_pass_eqb_refl.
  cbn [andb Nat.eqb].
  unfold scan_trx_list.
  destruct (walk_spec container with_lock_data read_write l st O rs)
    as (st1 & Hwalk & Hp1 & Hs1 & He1 & Hle1 & Hmin1 & Hh1).
  rewrite Hwalk, Nat.add_0_l.
  set (new1 := selected_rows (trx_rows container with_lock_data None) read_write
                 (within (m_start_trx_id_range st) (m_end_trx_id_range st)) l)
    in *.
  destruct Hwf as (Hwf & Hhint).
  assert (Hse : m_start_trx_id_range st <= m_end_trx_id_range st)
    by (destruct Hwf as (_ & _ & He & _); unfold SCAN_RANGE in He; lia).
  pose proof (rows_from_split (trx_rows container with_lock_data None)
                read_write l _ _ Hse) as Hsplit.
  fold new1 in Hsplit.
  assert (Hwf1 : range_wf st1).
  { destruct Hwf as (H0 & Hal & He & Hlt & _).
    unfold range_wf. rewrite Hs1, He1. repeat split; auto.
    destruct Hh1 as [Hh1|(trx & Hin & _ & Hle & Hn)]; [left; congruence|].
    right. rewrite Hn. split; [exact Hle|].
    unfold trx_ids_below_top in Hids. rewrite Forall_forall in Hids.
    apply (Hids trx Hin). }
  destruct (prepare_returns st1) as [st2 Hprep]; [congruence|].
  rewrite Hprep. cbn [bind].
  pose proof (prepare_clears_hint _ _ Hprep) as Hclear.
  destruct (range_wf_prepare _ _ Hwf1 Hprep) as (Hwf2 & _ & Hab).
  destruct (Z.eq_dec (m_next_trx_id_range st1) TRX_ID_MAX) as [Hmax|Hmax].
  - (* nothing at or above the end of the range: the pass is over *)
    destruct (prepare_no_hint _ _ Hmax Hprep) as (Hnext & Hzero).
    rewrite Hp1, Hp in Hnext, Hzero.
    rewrite scan_while_exit.
    2: { apply andb_false_intro1. unfold get_pass.
         destruct pass; simpl in Hnext; inversion Hnext as [Hq];
           reflexivity. }
    exists st2, new1. split; [reflexivity|]. split; [split; assumption|].
    right. split; [exact Hnext|]. split; [exact Hzero|].
    assert (Hnone : rows_from (trx_rows container with_lock_data None)
        read_write l
                      (m_end_trx_id_range st) = []).
    2: { rewrite Hnone, app_nil_r in Hsplit. exact Hsplit. }
    apply rows_from_none. intros t Hin Hd.
    { destruct (Z.lt_ge_cases (trx_get_id_for_print t)
                  (m_end_trx_id_range st)) as [Hlt|Hge]; [exact Hlt|].
      specialize (Hmin1 t Hin Hd Hge).
      unfold trx_ids_below_top in Hids. rewrite Forall_forall in Hids.
      specialize (Hids t Hin). unfold TRX_ID_MAX, SCAN_RANGE in *. lia. }
  - (* the next range is the one of the smallest id left *)
    destruct (prepare_with_hint _ _ Hwf1 Hmax Hprep) as (Hp2 & Hee & Hlt).
    pose proof (prepare_start_hint _ _ Hwf1 Hmax Hprep) as Hstart.
    specialize (Hab Hp2). rewrite He1 in Hab, Hee.
    assert (Hsame : rows_from (trx_rows container with_lock_data None)
        read_write l
                      (m_start_trx_id_range st2)
                    = rows_from
                        (trx_rows container with_lock_data None) read_write l
                        (m_end_trx_id_range st)).
    { apply rows_from_same. intros t Hin Hd.
      destruct (Z.lt_ge_cases (trx_get_id_for_print t)
                  (m_end_trx_id_range st)) as [Hlo|Hge]; [lia|].
      specialize (Hmin1 t Hin Hd Hge). lia. }
    destruct new1 as [|r new1'] eqn:Hnew.
    + (* no row in this range: the loop goes on *)
      cbn [List.length]. rewrite app_nil_r.
      destruct Hh1 as [Hh1|(trx & Hin & Hd & Hle & Hn)]; [congruence|].
      destruct (IH st2 rs) as (st' & new & Hloop & Hwf' & Hcases).
      * split; assumption.
      * congruence.
      * assert (Hdec : (pending read_write l (m_end_trx_id_range st2)
                        < pending read_write l (m_end_trx_id_range st))%nat).
        { apply (pending_lt read_write l _ _ trx); try assumption; lia. }
        lia.
      * exists st', new. split; [exact Hloop|]. split; [exact Hwf'|].
        cbn [app] in Hsplit. rewrite Hsame in Hcases.
        destruct Hcases as [(Hq & Hne & Hperm)|(Hq & Hz & Hperm)].
        -- left. repeat split; auto.
           etransitivity; [exact Hperm|exact Hsplit].
        -- right. repeat split; auto.
           etransitivity; [exact Hperm|exact Hsplit].
    + (* rows found: the loop ends in the same pass *)
      rewrite scan_while_exit.
      2: { apply andb_false_intro2. reflexivity. }
      exists st2, (r :: new1'). split; [reflexivity|].
      split; [split; assumption|].
      left. split; [congruence|]. split; [discriminate|].
      rewrite Hsame. exact Hsplit.
Qed.

(** The two loops of [scan]: the rows added and the rows left are the
    rows that were left, and either rows were added or the scan is
    over. *)
Lemma scan_loops_rows (trx_sys : trx_sys_t) (st : Innodb_trx_scan_state)
    (e : effects data_lock_row) :
  scan_entry_wf st ->
  trx_ids_below_top (rw_trx_list trx_sys) ->
  trx_ids_below_top (mysql_trx_list trx_sys) ->
  m_scan_pass st = SCANNING_RW_TRX_LIST
  \/ m_scan_pass st = SCANNING_MYSQL_TRX_LIST ->
  exists st' new,
    bind (scan_while container with_lock_data (scan_fuel trx_sys)
            SCANNING_RW_TRX_LIST true (rw_trx_list trx_sys) st O
            (rows (mutex_op trx_sys_mutex_enter
                     (mutex_op lock_mutex_enter e))))
      (fun '(st, found, rs) =>
         bind (scan_while container with_lock_data (scan_fuel trx_sys)
                 SCANNING_MYSQL_TRX_LIST false
                 (mysql_trx_list trx_sys) st found rs)
           (fun '(st, found, rs) =>
              Ret (false, st,
                   mutex_op lock_mutex_exit
                     (mutex_op trx_sys_mutex_exit
                        (set_rows
                           (mutex_op trx_sys_mutex_enter
                              (mutex_op lock_mutex_enter e)) rs)))))
    = Ret (false, st',
           {| rows := (rows e ++ new)%list;
              mutex_log :=
                (mutex_log e
                 ++ [lock_mutex_enter; trx_sys_mutex_enter;
                     trx_sys_mutex_exit; lock_mutex_exit])%list |})
    /\ scan_entry_wf st'
    /\ m_scan_pass st' <> INIT_SCANNING
    /\ Permutation (new ++ remaining
        (trx_rows container with_lock_data None) trx_sys st')
         (remaining (trx_rows container with_lock_data None) trx_sys st)
    /\ (new <> [] \/ m_scan_pass st' = DONE_SCANNING).
Proof.
  intros Hwf Hrw Hmy Hp.
  assert (Hf1 : forall s, (pending true (rw_trx_list trx_sys) s
                           < scan_fuel trx_sys)%nat).
  { intros s. pose proof (pending_length true (rw_trx_list trx_sys) s).
    unfold scan_fuel. lia. }
  assert (Hf2 : forall s, (pending false (mysql_trx_list trx_sys) s
                           < scan_fuel trx_sys)%nat).
  { intros s. pose proof (pending_length false (mysql_trx_list trx_sys) s).
    unfold scan_fuel. lia. }
  assert (Hlog : forall rs,
            mutex_op lock_mutex_exit
              (mutex_op trx_sys_mutex_exit
                 (set_rows
                    (mutex_op trx_sys_mutex_enter
                       (mutex_op lock_mutex_enter e)) rs))
            = {| rows := rs;
                 mutex_log :=
                   (mutex_log e
                    ++ [lock_mutex_enter; trx_sys_mutex_enter;
                        trx_sys_mutex_exit; lock_mutex_exit])%list |}).
  { intros rs. unfold mutex_op, set_rows. cbn [rows mutex_log].
    rewrite <- !app_assoc. reflexivity. }
  assert (Hrows : rows (mutex_op trx_sys_mutex_enter
                          (mutex_op lock_mutex_enter e)) = rows e)
    by reflexivity.
  rewrite Hrows.
  (* the loop over the MySQL list, entered in its pass with nothing found *)
  assert (Hsecond : forall st1 rs,
            scan_entry_wf st1 ->
            m_scan_pass st1 = SCANNING_MYSQL_TRX_LIST ->
            exists st' new,
              scan_while container with_lock_data (scan_fuel trx_sys)
                SCANNING_MYSQL_TRX_LIST false (mysql_trx_list trx_sys)
                st1 O rs
              = Ret (st', List.length new, (rs ++ new)%list)
              /\ scan_entry_wf st'
              /\ m_scan_pass st' <> INIT_SCANNING
              /\ Permutation
                   (new ++ remaining
                       (trx_rows container with_lock_data None) trx_sys st')
                   (remaining (trx_rows container with_lock_data None)
                       trx_sys st1)
              /\ (new <> [] \/ m_scan_pass st' = DONE_SCANNING)).
  { intros st1 rs Hwf1 Hp1.
    destruct (scan_while_rows SCANNING_MYSQL_TRX_LIST false
                (mysql_trx_list trx_sys) ltac:(discriminate) Hmy
                (scan_fuel trx_sys) st1 rs Hwf1 Hp1 (Hf2 _))
      as (st' & new & Hloop & Hwf' & Hcases).
    exists st', new. split; [exact Hloop|]. split; [exact Hwf'|].
    unfold remaining. rewrite Hp1.
    destruct Hcases as [(Hq & Hne & Hperm)|(Hq & _ & Hperm)].
    - rewrite Hq. split; [discriminate|]. split; [exact Hperm|auto].
    - cbn in Hq. injection Hq as Hq'. rewrite <- Hq'.
      split; [discriminate|]. rewrite app_nil_r. auto. }
  destruct Hp as [Hp|Hp].
  - (* entered in the pass over the RW list *)
    destruct (scan_while_rows SCANNING_RW_TRX_LIST true
                (rw_trx_list trx_sys) ltac:(discriminate) Hrw
                (scan_fuel trx_sys) st (rows e) Hwf Hp (Hf1 _))
      as (st1 & new1 & Hloop1 & Hwf1 & Hcases).
    rewrite Hloop1. cbn [bind].
    destruct Hcases as [(Hq & Hne & Hperm)|(Hq & Hz & Hperm)].
    + rewrite scan_while_exit.
      2: { apply andb_false_intro1. unfold get_pass. rewrite Hq.
           reflexivity. }
      cbn [bind]. rewrite Hlog. exists st1, new1.
      split; [reflexivity|]. split; [exact Hwf1|].
      split; [rewrite Hq; discriminate|]. split; [|auto].
      unfold remaining. rewrite Hq, Hp. rewrite app_assoc.
      apply Permutation_app_tail. exact Hperm.
    + cbn in Hq. injection Hq as Hq'. symmetry in Hq'.
      specialize (Hz ltac:(discriminate)).
      assert (Hrem1 : remaining (trx_rows container with_lock_data None)
          trx_sys st1
                      = selected_rows
                          (trx_rows container with_lock_data None) false
                          (fun _ => true) (mysql_trx_list trx_sys)).
      { unfold remaining. rewrite Hq', Hz. apply rows_from_zero. exact Hmy. }
      destruct new1 as [|r new1'].
      * cbn [List.length]. rewrite app_nil_r.
        destruct (Hsecond st1 (rows e) Hwf1 Hq')
          as (st' & new & Hloop2 & Hwf' & Hni & Hperm2 & Hprog).
        rewrite Hloop2. cbn [bind]. rewrite Hlog. exists st', new.
        split; [reflexivity|]. split; [exact Hwf'|]. split; [exact Hni|].
        split; [|exact Hprog].
        unfold remaining at 2. rewrite Hp.
        apply Permutation_nil in Hperm. rewrite Hperm. cbn [app].
        rewrite <- Hrem1. exact Hperm2.
      * rewrite scan_while_exit.
        2: { apply andb_false_intro2. reflexivity. }
        cbn [bind]. rewrite Hlog. exists st1, (r :: new1').
        split; [reflexivity|]. split; [exact Hwf1|].
        split; [rewrite Hq'; discriminate|].
        split; [|left; discriminate].
        rewrite Hrem1. unfold remaining. rewrite Hp.
        apply Permutation_app_tail. exact Hperm.
  - (* entered in the pass over the MySQL list *)
    rewrite scan_while_exit.
    2: { apply andb_false_intro1. unfold get_pass. rewrite Hp.
         reflexivity. }
    cbn [bind].
    destruct (Hsecond st (rows e) Hwf Hp)
      as (st' & new & Hloop2 & Hwf' & Hni & Hperm2 & Hprog).
    rewrite Hloop2. cbn [bind]. rewrite Hlog. exists st', new. auto.
Qed.

(** One call of [scan] that is not entered with the scan over. *)
Lemma scan_call_rows (trx_sys : trx_sys_t) (st : Innodb_trx_scan_state)
    (e : effects data_lock_row) :
  accept_engine container g_engine = true ->
  scan_entry_wf st ->
  trx_ids_below_top (rw_trx_list trx_sys) ->
  trx_ids_below_top (mysql_trx_list trx_sys) ->
  m_scan_pass st <> DONE_SCANNING ->
  exists st' new,
    scan container with_lock_data (scan_fuel trx_sys) trx_sys st e
    = Ret (false, st',
           {| rows := (rows e ++ new)%list;
              mutex_log :=
                (mutex_log e
                 ++ [lock_mutex_enter; trx_sys_mutex_enter;
                     trx_sys_mutex_exit; lock_mutex_exit])%list |})
    /\ scan_entry_wf st'
    /\ m_scan_pass st' <> INIT_SCANNING
    /\ Permutation (new ++ remaining
        (trx_rows container with_lock_data None) trx_sys st')
         (remaining (trx_rows container with_lock_data None) trx_sys st)
    /\ (new <> [] \/ m_scan_pass st' = DONE_SCANNING).
Proof.
  intros Heng Hwf Hrw Hmy Hnd.
  unfold scan, get_pass. rewrite Heng. cbn [negb].
  destruct (m_scan_pass st) eqn:Hp; cbn [scan_pass_eqb]; [| | |contradiction].
  - (* first call *)
    destruct Hwf as (Hwf & Hhint).
    destruct (prepare_returns st) as [st0 Hprep]; [congruence|].
    rewrite Hprep. cbn [bind].
    destruct (prepare_no_hint _ _ Hhint Hprep) as (Hnext & Hzero).
    rewrite Hp in Hnext, Hzero. cbn in Hnext. injection Hnext as Hp0.
    symmetry in Hp0. rewrite Hp0. cbn [scan_pass_eqb].
    specialize (Hzero ltac:(discriminate)).
    assert (Hwf0 : scan_entry_wf st0).
    { split; [apply (range_wf_prepare _ _ Hwf Hprep)|].
      apply (prepare_clears_hint _ _ Hprep). }
    destruct (scan_loops_rows trx_sys st0 e Hwf0 Hrw Hmy (or_introl Hp0))
      as (st' & new & Hret & Hwf' & Hni & Hperm & Hprog).
    exists st', new. split; [exact Hret|]. split; [exact Hwf'|].
    split; [exact Hni|]. split; [|exact Hprog].
    unfold remaining at 2. rewrite Hp. unfold all_rows.
    rewrite <- (rows_from_zero _ true _ Hrw).
    unfold remaining at 1 in Hperm. unfold remaining in Hperm.
    rewrite Hp0, Hzero in Hperm. exact Hperm.
  - cbn [bind]. rewrite Hp. cbn [scan_pass_eqb].
    apply scan_loops_rows; auto.
  - cbn [bind]. rewrite Hp. cbn [scan_pass_eqb].
    apply scan_loops_rows; auto.
Qed.

(** X11.  One call of [scan] on an iterator that is not done, with a
    container that accepts the engine and transaction ids below
    [2 ^ 64 - 256]: the call returns [false], takes and releases both
    mutexes, and keeps the rows it is given.  The rows it adds, together
    with the rows the iterator has still to report afterwards, are the
    rows it had still to report before, up to their order; and a call
    that adds no row leaves the iterator done. *)
Theorem scan_call_reports_rows_left (trx_sys : trx_sys_t)
    (st : Innodb_trx_scan_state) (e : effects data_lock_row) :
  accept_engine container g_engine = true ->
  scan_entry_wf st ->
  trx_ids_below_top (rw_trx_list trx_sys) ->
  trx_ids_below_top (mysql_trx_list trx_sys) ->
  m_scan_pass st <> DONE_SCANNING ->
  exists st' e' new,
    scan container with_lock_data (scan_fuel trx_sys) trx_sys st e
    = Ret (false, st', e')
    /\ rows e' = (rows e ++ new)%list
    /\ mutex_log e'
       = (mutex_log e
          ++ [lock_mutex_enter; trx_sys_mutex_enter;
              trx_sys_mutex_exit; lock_mutex_exit])%list
    /\ scan_entry_wf st'
    /\ Permutation
         (new ++ remaining (trx_rows container with_lock_data None)
                   trx_sys st')
         (remaining (trx_rows container with_lock_data None) trx_sys st)
    /\ (new = [] -> m_scan_pass st' = DONE_SCANNING).
Proof.
  intros Heng Hwf Hrw Hmy Hnd.
  destruct (scan_call_rows trx_sys st e Heng Hwf Hrw Hmy Hnd)
    as (st' & new & Hret & Hwf' & _ & Hperm & Hprog).
  exists st'. eexists. exists new.
  split; [exact Hret|]. split; [reflexivity|]. split; [reflexivity|].
  split; [exact Hwf'|]. split; [exact Hperm|].
  intros Hnil. destruct Hprog as [Hne|Hd]; [contradiction|exact Hd].
Qed.

(** Calls in a row, from any state a scan can be in. *)
Lemma scan_until_done_rows (trx_sys : trx_sys_t) :
  accept_engine container g_engine = true ->
  trx_ids_below_top (rw_trx_list trx_sys) ->
  trx_ids_below_top (mysql_trx_list trx_sys) ->
  forall calls st e,
    scan_entry_wf st ->
    (match m_scan_pass st with
     | DONE_SCANNING => 1
     | _ => List.length (remaining
         (trx_rows container with_lock_data None) trx_sys st) + 2
     end <= calls)%nat ->
    exists e' new,
      scan_until_done container with_lock_data calls trx_sys st e = Ret e'
      /\ rows e' = (rows e ++ new)%list
      /\ Permutation new (remaining
          (trx_rows container with_lock_data None) trx_sys st).
Proof.
  intros Heng Hrw Hmy.
  induction calls as [|calls IH]; intros st e Hwf Hcalls.
  - destruct (m_scan_pass st); lia.
  - cbn [scan_until_done].
    destruct (scan_pass_eqb (m_scan_pass st) DONE_SCANNING) eqn:Hdone.
    + apply scan_pass_eqb_eq in Hdone.
      rewrite (scan_when_done container with_lock_data _ trx_sys st e Hdone).
      cbn [bind]. exists e, []. rewrite app_nil_r.
      split; [reflexivity|]. split; [reflexivity|].
      unfold remaining. rewrite Hdone. constructor.
    + assert (Hnd : m_scan_pass st <> DONE_SCANNING).
      { intros Hd. rewrite Hd in Hdone. discriminate. }
      destruct (scan_call_rows trx_sys st e Heng Hwf Hrw Hmy Hnd)
        as (st' & new & Hret & Hwf' & Hni & Hperm & Hprog).
      rewrite Hret. cbn [bind].
      pose proof (Permutation_length Hperm) as Hlen.
      rewrite length_app in Hlen.
      destruct (IH st' {| rows := (rows e ++ new)%list;
                          mutex_log :=
                            (mutex_log e
                             ++ [lock_mutex_enter; trx_sys_mutex_enter;
                                 trx_sys_mutex_exit; lock_mutex_exit])%list |}
                  Hwf')
        as (e' & new' & Hrest & Hrows' & Hperm').
      * assert (Hc : (List.length
                        (remaining
                            (trx_rows container with_lock_data None)
                            trx_sys st) + 2
                      <= S calls)%nat).
        { revert Hcalls Hnd.
          generalize (remaining (trx_rows container with_lock_data None)
              trx_sys st).
          intros rem. destruct (m_scan_pass st); intros Hcalls Hnd;
            try exact Hcalls. contradiction. }
        destruct (m_scan_pass st') eqn:Hp'; try lia;
          (destruct Hprog as [Hne|Hd]; [|discriminate]);
          (destruct new; [contradiction|cbn [List.length] in Hlen; lia]).
      * exists e', (new ++ new')%list. split; [exact Hrest|].
        split; [rewrite Hrows'; cbn [rows]; symmetry; apply app_assoc|].
        etransitivity; [|exact Hperm].
        apply Permutation_app_head. exact Hperm'.
Qed.

(** X12.  A whole scan reports every lock once.  Over a transaction system
    that does not change, with transaction ids below [2 ^ 64 - 256] and a
    container that accepts the engine, calling [scan] again and again on a
    new iterator reaches a call that answers that the iterator is done
    within as many calls as there are rows, plus two.  The rows it was
    given are kept, and the rows added are, up to their order, the rows
    of the transactions of the RW list that are not discarded followed by
    those of the MySQL list: no row is missing and none is reported
    twice. *)
Theorem scan_reports_every_row_once (trx_sys : trx_sys_t)
    (e : effects data_lock_row) (calls : nat) :
  accept_engine container g_engine = true ->
  trx_ids_below_top (rw_trx_list trx_sys) ->
  trx_ids_below_top (mysql_trx_list trx_sys) ->
  (List.length (all_rows (trx_rows container with_lock_data None) trx_sys)
      + 2 <= calls)%nat ->
  exists e' new,
    scan_until_done container with_lock_data calls trx_sys scan_state_init e
    = Ret e'
    /\ rows e' = (rows e ++ new)%list
    /\ Permutation new (all_rows (trx_rows container with_lock_data None)
        trx_sys).
Proof.
  intros Heng Hrw Hmy Hcalls.
  apply (scan_until_done_rows trx_sys Heng Hrw Hmy calls scan_state_init e
           scan_entry_wf_init).
  exact Hcalls.
Qed.

End FullScanFacts.

Lemma scan_reports_every_row_once_witness :
  exists e' new,
    scan_until_done (H := one_blocker) accept_all_locks false 5
      small_trx_sys scan_state_init no_effects
    = Ret e'
    /\ rows e' = (rows no_effects ++ new)%list
    /\ Permutation new
         (all_rows (trx_rows (H := one_blocker) accept_all_locks
             false None) small_trx_sys).
Proof.
  apply (scan_reports_every_row_once (H := one_blocker) accept_all_locks
           false small_trx_sys no_effects 5).
  - reflexivity.
  - repeat constructor; vm_compute; congruence.
  - repeat constructor; vm_compute; congruence.
  - vm_compute. lia.
Defined.

Lemma scan_call_reports_rows_left_witness :
  exists st' e' new,
    Innodb_data_lock_iterator.scan (H := one_blocker) accept_all_locks false
      (scan_fuel small_trx_sys) small_trx_sys scan_state_init no_effects
    = Ret (false, st', e')
    /\ rows e' = (rows no_effects ++ new)%list
    /\ mutex_log e'
       = (mutex_log no_effects
          ++ [lock_mutex_enter; trx_sys_mutex_enter;
              trx_sys_mutex_exit; lock_mutex_exit])%list
    /\ scan_entry_wf st'
    /\ Permutation
         (new ++ remaining (trx_rows (H := one_blocker) accept_all_locks
                              false None)
                   small_trx_sys st')
         (remaining (trx_rows (H := one_blocker) accept_all_locks false None)
            small_trx_sys scan_state_init)
    /\ (new = [] ->
        m_scan_pass st' = DONE_SCANNING).
Proof.
  apply (scan_call_reports_rows_left (H := one_blocker) accept_all_locks
           false small_trx_sys scan_state_init no_effects).
  - reflexivity.
  - split; [exact range_wf_init|reflexivity].
  - repeat constructor; vm_compute; congruence.
  - repeat constructor; vm_compute; congruence.
  - discriminate.
Defined.

(* ================================================================= *)
(** * Further properties: a whole scan of the wait iterator *)

Section WaitScanFacts.

Import Innodb_data_lock_wait_iterator.
Context `{lock_sys_api}.
Variable container : PSI_server_data_lock_wait_container.

(** Without a filter, [scan_trx] adds the rows of the wait edges of the
    transaction; it returns for a transaction that has an awaited lock
    when it is in the lock-wait state. *)
Lemma wait_scan_trx_unfiltered (trx : trx_t) (rs : list data_lock_wait_row) :
  (is_lock_wait (que_state (lock trx)) = true ->
   wait_lock (lock trx) <> None) ->
  scan_trx container trx None rs
  = Ret (List.length (wait_trx_rows container trx),
         (rs ++ wait_trx_rows container trx)%list).
Proof.
  intros Hcons. unfold wait_trx_rows.
  destruct (is_lock_wait (que_state (lock trx))) eqn:Hq.
  - destruct (wait_lock (lock trx)) as [wl|] eqn:Hw;
      [|exfalso; apply Hcons; reflexivity].
    rewrite (scan_trx_waiting container trx wl None rs Hq Hw). cbv zeta.
    rewrite length_map. reflexivity.
  - unfold scan_trx. rewrite Hq. cbn [negb List.length].
    rewrite app_nil_r. reflexivity.
Qed.

(** What one walk of a list does to rows and scan state. *)
Lemma wait_walk_spec (read_write : bool) (l : list trx_t) (first last : Z) :
  waits_have_lock l ->
  forall st found rs,
    m_start_trx_id_range st = first -> m_end_trx_id_range st = last ->
    exists st',
      scan_trx_list_from container read_write l st found rs
      = Ret ((found
              + List.length
                  (selected_rows (wait_trx_rows container) read_write
                     (within first last) l))%nat,
             st',
             (rs ++ selected_rows (wait_trx_rows container) read_write
                      (within first last) l)%list)
      /\ m_scan_pass st' = m_scan_pass st
      /\ m_start_trx_id_range st' = first
      /\ m_end_trx_id_range st' = last
      /\ m_next_trx_id_range st' <= m_next_trx_id_range st
      /\ (forall t, In t l -> discard_trx t read_write = false ->
                    last <= trx_get_id_for_print t ->
                    m_next_trx_id_range st' <= trx_get_id_for_print t)
      /\ (m_next_trx_id_range st' = m_next_trx_id_range st
          \/ exists t,
               In t l /\ discard_trx t read_write = false
               /\ last <= trx_get_id_for_print t
               /\ m_next_trx_id_range st' = trx_get_id_for_print t).
Proof.
  unfold selected_rows.
  induction l as [|t l IH]; intros Hcons st found rs Hs He.
  - exists st. cbn. rewrite Nat.add_0_r, app_nil_r.
    split; [reflexivity|]. split; [reflexivity|]. split; [exact Hs|].
    split; [exact He|]. split; [lia|].
    split; [intros t []|left; reflexivity].
  - pose proof (Forall_inv Hcons) as Hct.
    pose proof (Forall_inv_tail Hcons) as Hcl. cbv beta in Hct.
    cbn [scan_trx_list_from List.filter].
    destruct (discard_trx t read_write) eqn:Hd; cbn [negb andb].
    + destruct (IH Hcl st found rs Hs He)
        as (st' & Hwalk & Hp' & Hs' & He' & Hle & Hmin & Hh).
      exists st'. repeat (split; [assumption|]). split.
      * intros t' [<-|Hin] Hd' Hid; [congruence|auto].
      * destruct Hh as [Hh|(t' & Hin & Hd' & Hge & Hn)]; [auto|].
        right. exists t'. simpl. auto.
    + pose proof (trx_id_in_range_frame (trx_get_id_for_print t) st) as Hfr.
      pose proof (trx_id_in_range_within (trx_get_id_for_print t) st) as Hin.
      pose proof (trx_id_in_range_min (trx_get_id_for_print t) st) as Hmn.
      pose proof (trx_id_in_range_hint (trx_get_id_for_print t) st) as Hhi.
      rewrite Hs, He in Hin. rewrite He in Hmn, Hhi.
      destruct (trx_id_in_range (trx_get_id_for_print t) st) as [b st1].
      cbn [fst snd] in Hfr, Hin, Hmn, Hhi. cbv zeta in Hfr, Hhi.
      destruct Hfr as (Hp1 & Hs1 & He1). destruct Hmn as (Hle1 & Hmin1).
      rewrite <- Hin.
      assert (Hstate : forall st',
                m_scan_pass st' = m_scan_pass st1
                /\ m_start_trx_id_range st' = first
                /\ m_end_trx_id_range st' = last
                /\ m_next_trx_id_range st' <= m_next_trx_id_range st1
                /\ (forall t', In t' l -> discard_trx t' read_write = false ->
                               last <= trx_get_id_for_print t' ->
                               m_next_trx_id_range st'
                               <= trx_get_id_for_print t')
                /\ (m_next_trx_id_range st' = m_next_trx_id_range st1
                    \/ exists t',
                         In t' l /\ discard_trx t' read_write = false
                         /\ last <= trx_get_id_for_print t'
                         /\ m_next_trx_id_range st'
                            = trx_get_id_for_print t') ->
                m_scan_pass st' = m_scan_pass st
                /\ m_start_trx_id_range st' = first
                /\ m_end_trx_id_range st' = last
                /\ m_next_trx_id_range st' <= m_next_trx_id_range st
                /\ (forall t', In t' (t :: l) ->
                               discard_trx t' read_write = false ->
                               last <= trx_get_id_for_print t' ->
                               m_next_trx_id_range st'
                               <= trx_get_id_for_print t')
                /\ (m_next_trx_id_range st' = m_next_trx_id_range st
                    \/ exists t',
                         In t' (t :: l) /\ discard_trx t' read_write = false
                         /\ last <= trx_get_id_for_print t'
                         /\ m_next_trx_id_range st'
                            = trx_get_id_for_print t')).
      { intros st' (Hp' & Hs' & He' & Hle & Hmin & Hh).
        split; [congruence|]. split; [exact Hs'|]. split; [exact He'|].
        split; [lia|]. split.
        - intros t' [<-|Hin'] Hd' Hid.
          + specialize (Hmin1 Hid). lia.
          + auto.
        - destruct Hh as [Hh|(t' & Hin' & Hd' & Hge & Hn)].
          + destruct Hhi as [Hhi|[Hhi Hge]]; [left; congruence|].
            right. exists t. simpl. repeat split; auto. congruence.
          + right. exists t'. simpl. auto. }
      destruct b; cbn [negb].
      * rewrite (wait_scan_trx_unfiltered t rs Hct). cbn [bind flat_map].
        destruct (IH Hcl st1
                    (found + List.length (wait_trx_rows container t))%nat
                    (rs ++ wait_trx_rows container t)%list)
          as (st' & Hwalk & Hrest); [congruence|congruence|].
        exists st'. split; [|apply Hstate; exact Hrest].
        rewrite Hwalk, length_app, <- app_assoc. do 3 f_equal. lia.
      * destruct (IH Hcl st1 found rs) as (st' & Hwalk & Hrest);
          [congruence|congruence|].
        exists st'. split; [exact Hwalk|apply Hstate; exact Hrest].
Qed.

Lemma wait_scan_while_exit (fuel : nat) (pass : scan_pass)
    (read_write : bool) (l : list trx_t) (st : Innodb_trx_scan_state)
    (found : nat) (rs : list data_lock_wait_row) :
  scan_pass_eqb (get_pass st) pass && (found =? 0)%nat = false ->
  scan_while container fuel pass read_write l st found rs
  = Ret (st, found, rs).
Proof. intros Hc. destruct fuel; simpl; rewrite Hc; reflexivity. Qed.

(** [scan] on an iterator that is done: nothing happens. *)
Lemma wait_scan_when_done (fuel : nat) (trx_sys : trx_sys_t)
    (st : Innodb_trx_scan_state) (e : effects data_lock_wait_row) :
  m_scan_pass st = DONE_SCANNING ->
  scan container fuel trx_sys st e = Ret (true, st, e).
Proof.
  intros Hp. unfold scan, get_pass. rewrite Hp. cbn [scan_pass_eqb bind].
  rewrite Hp. reflexivity.
Qed.

(** One loop of [scan], entered in its own pass with nothing found yet:
    it ends either in the same pass with rows found, or in the next pass
    with the list exhausted; the rows it adds and those from the start of
    the range it leaves are the rows from the start of the range it was
    entered with. *)
Lemma wait_scan_while_rows (pass : scan_pass) (read_write : bool)
    (l : list trx_t) :
  pass <> DONE_SCANNING -> trx_ids_below_top l -> waits_have_lock l ->
  forall fuel st rs,
    scan_entry_wf st -> m_scan_pass st = pass ->
    (pending read_write l (m_end_trx_id_range st) < fuel)%nat ->
    exists st' new,
      scan_while container fuel pass read_write l st O rs
      = Ret (st', List.length new, (rs ++ new)%list)
      /\ scan_entry_wf st'
      /\ ((m_scan_pass st' = pass /\ new <> []
           /\ Permutation
                (new ++ rows_from (wait_trx_rows container) read_write l
                          (m_start_trx_id_range st'))
                (rows_from (wait_trx_rows container) read_write l
                   (m_start_trx_id_range st)))
          \/ (next_pass pass = Some (m_scan_pass st')
              /\ (pass <> SCANNING_MYSQL_TRX_LIST ->
                  m_start_trx_id_range st' = 0)
              /\ Permutation new
                   (rows_from (wait_trx_rows container) read_write l
                      (m_start_trx_id_range st)))).
Proof.
  intros Hpass Hids Hcons.
  induction fuel as [|fuel IH]; intros st rs Hwf Hp Hfuel; [lia|].
  cbn [scan_while]. unfold get_pass. rewrite Hp, scan_pass_eqb_refl.
  cbn [andb Nat.eqb].
  unfold scan_trx_list.
  destruct (wait_walk_spec read_write l _ _ Hcons st O rs eq_refl eq_refl)
    as (st1 & Hwalk & Hp1 & Hs1 & He1 & Hle1 & Hmin1 & Hh1).
  rewrite Hwalk, Nat.add_0_l. cbn [bind].
  set (new1 := selected_rows (wait_trx_rows container) read_write
                 (within (m_start_trx_id_range st) (m_end_trx_id_range st)) l)
    in *.
  destruct Hwf as (Hwf & Hhint).
  assert (Hse : m_start_trx_id_range st <= m_end_trx_id_range st)
    by (destruct Hwf as (_ & _ & He & _); unfold SCAN_RANGE in He; lia).
  pose proof (rows_from_split (wait_trx_rows container)
                read_write l _ _ Hse) as Hsplit.
  fold new1 in Hsplit.
  assert (Hwf1 : range_wf st1).
  { destruct Hwf as (H0 & Hal & He & Hlt & _).
    unfold range_wf. rewrite Hs1, He1. repeat split; auto.
    destruct Hh1 as [Hh1|(trx & Hin & _ & Hle & Hn)]; [left; congruence|].
    right. rewrite Hn. split; [exact Hle|].
    unfold trx_ids_below_top in Hids. rewrite Forall_forall in Hids.
    apply (Hids trx Hin). }
  destruct (prepare_returns st1) as [st2 Hprep]; [congruence|].
  rewrite Hprep. cbn [bind].
  pose proof (prepare_clears_hint _ _ Hprep) as Hclear.
  destruct (range_wf_prepare _ _ Hwf1 Hprep) as (Hwf2 & _ & Hab).
  destruct (Z.eq_dec (m_next_trx_id_range st1) TRX_ID_MAX) as [Hmax|Hmax].
  - (* nothing at or above the end of the range: the pass is over *)
    destruct (prepare_no_hint _ _ Hmax Hprep) as (Hnext & Hzero).
    rewrite Hp1, Hp in Hnext, Hzero.
    rewrite wait_scan_while_exit.
    2: { apply andb_false_intro1. unfold get_pass.
         destruct pass; simpl in Hnext; inversion Hnext as [Hq];
           reflexivity. }
    exists st2, new1. split; [reflexivity|]. split; [split; assumption|].
    right. split; [exact Hnext|]. split; [exact Hzero|].
    assert (Hnone : rows_from (wait_trx_rows container) read_write l
                      (m_end_trx_id_range st) = []).
    2: { rewrite Hnone, app_nil_r in Hsplit. exact Hsplit. }
    apply rows_from_none. intros t Hin Hd.
    { destruct (Z.lt_ge_cases (trx_get_id_for_print t)
                  (m_end_trx_id_range st)) as [Hlt|Hge]; [exact Hlt|].
      specialize (Hmin1 t Hin Hd Hge).
      unfold trx_ids_below_top in Hids. rewrite Forall_forall in Hids.
      specialize (Hids t Hin). unfold TRX_ID_MAX, SCAN_RANGE in *. lia. }
  - (* the next range is the one of the smallest id left *)
    destruct (prepare_with_hint _ _ Hwf1 Hmax Hprep) as (Hp2 & Hee & Hlt).
    pose proof (prepare_start_hint _ _ Hwf1 Hmax Hprep) as Hstart.
    specialize (Hab Hp2). rewrite He1 in Hab, Hee.
    assert (Hsame : rows_from (wait_trx_rows container) read_write l
                      (m_start_trx_id_range st2)
                    = rows_from (wait_trx_rows container) read_write l
                        (m_end_trx_id_range st)).
    { apply rows_from_same. intros t Hin Hd.
      destruct (Z.lt_ge_cases (trx_get_id_for_print t)
                  (m_end_trx_id_range st)) as [Hlo|Hge]; [lia|].
      specialize (Hmin1 t Hin Hd Hge). lia. }
    destruct new1 as [|r new1'] eqn:Hnew.
    + (* no row in this range: the loop goes on *)
      cbn [List.length]. rewrite app_nil_r.
      destruct Hh1 as [Hh1|(trx & Hin & Hd & Hle & Hn)]; [congruence|].
      destruct (IH st2 rs) as (st' & new & Hloop & Hwf' & Hcases).
      * split; assumption.
      * congruence.
      * assert (Hdec : (pending read_write l (m_end_trx_id_range st2)
                        < pending read_write l (m_end_trx_id_range st))%nat).
        { apply (pending_lt read_write l _ _ trx); try assumption; lia. }
        lia.
      * exists st', new. split; [exact Hloop|]. split; [exact Hwf'|].
        cbn [app] in Hsplit. rewrite Hsame in Hcases.
        destruct Hcases as [(Hq & Hne & Hperm)|(Hq & Hz & Hperm)].
        -- left. repeat split; auto.
           etransitivity; [exact Hperm|exact Hsplit].
        -- right. repeat split; auto.
           etransitivity; [exact Hperm|exact Hsplit].
    + (* rows found: the loop ends in the same pass *)
      rewrite wait_scan_while_exit.
      2: { apply andb_false_intro2. reflexivity. }
      exists st2, (r :: new1'). split; [reflexivity|].
      split; [split; assumption|].
      left. split; [congruence|]. split; [discriminate|].
      rewrite Hsame. exact Hsplit.
Qed.

(** The two loops of [scan]: the rows added and the rows left are the
    rows that were left, and either rows were added or the scan is
    over. *)
Lemma wait_scan_loops_rows (trx_sys : trx_sys_t) (st : Innodb_trx_scan_state)
    (e : effects data_lock_wait_row) :
  scan_entry_wf st ->
  trx_ids_below_top (rw_trx_list trx_sys) ->
  trx_ids_below_top (mysql_trx_list trx_sys) ->
  waits_have_lock (rw_trx_list trx_sys) ->
  waits_have_lock (mysql_trx_list trx_sys) ->
  m_scan_pass st = SCANNING_RW_TRX_LIST
  \/ m_scan_pass st = SCANNING_MYSQL_TRX_LIST ->
  exists st' new,
    bind (scan_while container (scan_fuel trx_sys)
            SCANNING_RW_TRX_LIST true (rw_trx_list trx_sys) st O
            (rows (mutex_op trx_sys_mutex_enter
                     (mutex_op lock_mutex_enter e))))
      (fun '(st, found, rs) =>
         bind (scan_while container (scan_fuel trx_sys)
                 SCANNING_MYSQL_TRX_LIST false
                 (mysql_trx_list trx_sys) st found rs)
           (fun '(st, found, rs) =>
              Ret (false, st,
                   mutex_op lock_mutex_exit
                     (mutex_op trx_sys_mutex_exit
                        (set_rows
                           (mutex_op trx_sys_mutex_enter
                              (mutex_op lock_mutex_enter e)) rs)))))
    = Ret (false, st',
           {| rows := (rows e ++ new)%list;
              mutex_log :=
                (mutex_log e
                 ++ [lock_mutex_enter; trx_sys_mutex_enter;
                     trx_sys_mutex_exit; lock_mutex_exit])%list |})
    /\ scan_entry_wf st'
    /\ m_scan_pass st' <> INIT_SCANNING
    /\ Permutation (new ++ remaining (wait_trx_rows container) trx_sys st')
         (remaining (wait_trx_rows container) trx_sys st)
    /\ (new <> [] \/ m_scan_pass st' = DONE_SCANNING).
Proof.
  intros Hwf Hrw Hmy Hcrw Hcmy Hp.
  assert (Hf1 : forall s, (pending true (rw_trx_list trx_sys) s
                           < scan_fuel trx_sys)%nat).
  { intros s. pose proof (pending_length true (rw_trx_list trx_sys) s).
    unfold scan_fuel. lia. }
  assert (Hf2 : forall s, (pending false (mysql_trx_list trx_sys) s
                           < scan_fuel trx_sys)%nat).
  { intros s. pose proof (pending_length false (mysql_trx_list trx_sys) s).
    unfold scan_fuel. lia. }
  assert (Hlog : forall rs,
            mutex_op lock_mutex_exit
              (mutex_op trx_sys_mutex_exit
                 (set_rows
                    (mutex_op trx_sys_mutex_enter
                       (mutex_op lock_mutex_enter e)) rs))
            = {| rows := rs;
                 mutex_log :=
                   (mutex_log e
                    ++ [lock_mutex_enter; trx_sys_mutex_enter;
                        trx_sys_mutex_exit; lock_mutex_exit])%list |}).
  { intros rs. unfold mutex_op, set_rows. cbn [rows mutex_log].
    rewrite <- !app_assoc. reflexivity. }
  assert (Hrows : rows (mutex_op trx_sys_mutex_enter
                          (mutex_op lock_mutex_enter e)) = rows e)
    by reflexivity.
  rewrite Hrows.
  (* the loop over the MySQL list, entered in its pass with nothing found *)
  assert (Hsecond : forall st1 rs,
            scan_entry_wf st1 ->
            m_scan_pass st1 = SCANNING_MYSQL_TRX_LIST ->
            exists st' new,
              scan_while container (scan_fuel trx_sys)
                SCANNING_MYSQL_TRX_LIST false (mysql_trx_list trx_sys)
                st1 O rs
              = Ret (st', List.length new, (rs ++ new)%list)
              /\ scan_entry_wf st'
              /\ m_scan_pass st' <> INIT_SCANNING
              /\ Permutation
                   (new ++ remaining (wait_trx_rows container) trx_sys st')
                   (remaining (wait_trx_rows container) trx_sys st1)
              /\ (new <> [] \/ m_scan_pass st' = DONE_SCANNING)).
  { intros st1 rs Hwf1 Hp1.
    destruct (wait_scan_while_rows SCANNING_MYSQL_TRX_LIST false
                (mysql_trx_list trx_sys) ltac:(discriminate) Hmy Hcmy
                (scan_fuel trx_sys) st1 rs Hwf1 Hp1 (Hf2 _))
      as (st' & new & Hloop & Hwf' & Hcases).
    exists st', new. split; [exact Hloop|]. split; [exact Hwf'|].
    unfold remaining. rewrite Hp1.
    destruct Hcases as [(Hq & Hne & Hperm)|(Hq & _ & Hperm)].
    - rewrite Hq. split; [discriminate|]. split; [exact Hperm|auto].
    - cbn in Hq. injection Hq as Hq'. rewrite <- Hq'.
      split; [discriminate|]. rewrite app_nil_r. auto. }
  destruct Hp as [Hp|Hp].
  - (* entered in the pass over the RW list *)
    destruct (wait_scan_while_rows SCANNING_RW_TRX_LIST true
                (rw_trx_list trx_sys) ltac:(discriminate) Hrw Hcrw
                (scan_fuel trx_sys) st (rows e) Hwf Hp (Hf1 _))
      as (st1 & new1 & Hloop1 & Hwf1 & Hcases).
    rewrite Hloop1. cbn [bind].
    destruct Hcases as [(Hq & Hne & Hperm)|(Hq & Hz & Hperm)].
    + rewrite wait_scan_while_exit.
      2: { apply andb_false_intro1. unfold get_pass. rewrite Hq.
           reflexivity. }
      cbn [bind]. rewrite Hlog. exists st1, new1.
      split; [reflexivity|]. split; [exact Hwf1|].
      split; [rewrite Hq; discriminate|]. split; [|auto].
      unfold remaining. rewrite Hq, Hp. rewrite app_assoc.
      apply Permutation_app_tail. exact Hperm.
    + cbn in Hq. injection Hq as Hq'. symmetry in Hq'.
      specialize (Hz ltac:(discriminate)).
      assert (Hrem1 : remaining (wait_trx_rows container) trx_sys st1
                      = selected_rows (wait_trx_rows container) false
                          (fun _ => true) (mysql_trx_list trx_sys)).
      { unfold remaining. rewrite Hq', Hz. apply rows_from_zero. exact Hmy. }
      destruct new1 as [|r new1'].
      * cbn [List.length]. rewrite app_nil_r.
        destruct (Hsecond st1 (rows e) Hwf1 Hq')
          as (st' & new & Hloop2 & Hwf' & Hni & Hperm2 & Hprog).
        rewrite Hloop2. cbn [bind]. rewrite Hlog. exists st', new.
        split; [reflexivity|]. split; [exact Hwf'|]. split; [exact Hni|].
        split; [|exact Hprog].
        unfold remaining at 2. rewrite Hp.
        apply Permutation_nil in Hperm. rewrite Hperm. cbn [app].
        rewrite <- Hrem1. exact Hperm2.
      * rewrite wait_scan_while_exit.
        2: { apply andb_false_intro2. reflexivity. }
        cbn [bind]. rewrite Hlog. exists st1, (r :: new1').
        split; [reflexivity|]. split; [exact Hwf1|].
        split; [rewrite Hq'; discriminate|].
        split; [|left; discriminate].
        rewrite Hrem1. unfold remaining. rewrite Hp.
        apply Permutation_app_tail. exact Hperm.
  - (* entered in the pass over the MySQL list *)
    rewrite wait_scan_while_exit.
    2: { apply andb_false_intro1. unfold get_pass. rewrite Hp.
         reflexivity. }
    cbn [bind].
    destruct (Hsecond st (rows e) Hwf Hp)
      as (st' & new & Hloop2 & Hwf' & Hni & Hperm2 & Hprog).
    rewrite Hloop2. cbn [bind]. rewrite Hlog. exists st', new. auto.
Qed.

(** One call of [scan] that is not entered with the scan over. *)
Lemma wait_scan_call_rows (trx_sys : trx_sys_t) (st : Innodb_trx_scan_state)
    (e : effects data_lock_wait_row) :
  accept_engine container g_engine = true ->
  scan_entry_wf st ->
  trx_ids_below_top (rw_trx_list trx_sys) ->
  trx_ids_below_top (mysql_trx_list trx_sys) ->
  waits_have_lock (rw_trx_list trx_sys) ->
  waits_have_lock (mysql_trx_list trx_sys) ->
  m_scan_pass st <> DONE_SCANNING ->
  exists st' new,
    scan container (scan_fuel trx_sys) trx_sys st e
    = Ret (false, st',
           {| rows := (rows e ++ new)%list;
              mutex_log :=
                (mutex_log e
                 ++ [lock_mutex_enter; trx_sys_mutex_enter;
                     trx_sys_mutex_exit; lock_mutex_exit])%list |})
    /\ scan_entry_wf st'
    /\ m_scan_pass st' <> INIT_SCANNING
    /\ Permutation (new ++ remaining (wait_trx_rows container) trx_sys st')
         (remaining (wait_trx_rows container) trx_sys st)
    /\ (new <> [] \/ m_scan_pass st' = DONE_SCANNING).
Proof.
  intros Heng Hwf Hrw Hmy Hcrw Hcmy Hnd.
  unfold scan, get_pass. rewrite Heng. cbn [negb].
  destruct (m_scan_pass st) eqn:Hp; cbn [scan_pass_eqb]; [| | |contradiction].
  - (* first call *)
    destruct Hwf as (Hwf & Hhint).
    destruct (prepare_returns st) as [st0 Hprep]; [congruence|].
    rewrite Hprep. cbn [bind].
    destruct (prepare_no_hint _ _ Hhint Hprep) as (Hnext & Hzero).
    rewrite Hp in Hnext, Hzero. cbn in Hnext. injection Hnext as Hp0.
    symmetry in Hp0. rewrite Hp0. cbn [scan_pass_eqb].
    specialize (Hzero ltac:(discriminate)).
    assert (Hwf0 : scan_entry_wf st0).
    { split; [apply (range_wf_prepare _ _ Hwf Hprep)|].
      apply (prepare_clears_hint _ _ Hprep). }
    destruct (wait_scan_loops_rows trx_sys st0 e Hwf0 Hrw Hmy Hcrw Hcmy
                (or_introl Hp0))
      as (st' & new & Hret & Hwf' & Hni & Hperm & Hprog).
    exists st', new. split; [exact Hret|]. split; [exact Hwf'|].
    split; [exact Hni|]. split; [|exact Hprog].
    unfold remaining at 2. rewrite Hp. unfold all_rows.
    rewrite <- (rows_from_zero _ true _ Hrw).
    unfold remaining at 1 in Hperm. unfold remaining in Hperm.
    rewrite Hp0, Hzero in Hperm. exact Hperm.
  - cbn [bind]. rewrite Hp. cbn [scan_pass_eqb].
    apply wait_scan_loops_rows; auto.
  - cbn [bind]. rewrite Hp. cbn [scan_pass_eqb].
    apply wait_scan_loops_rows; auto.
Qed.

(** Calls in a row, from any state a scan can be in. *)
Lemma wait_scan_until_done_rows (trx_sys : trx_sys_t) :
  accept_engine container g_engine = true ->
  trx_ids_below_top (rw_trx_list trx_sys) ->
  trx_ids_below_top (mysql_trx_list trx_sys) ->
  waits_have_lock (rw_trx_list trx_sys) ->
  waits_have_lock (mysql_trx_list trx_sys) ->
  forall calls st e,
    scan_entry_wf st ->
    (match m_scan_pass st with
     | DONE_SCANNING => 1
     | _ => List.length (remaining (wait_trx_rows container) trx_sys st) + 2
     end <= calls)%nat ->
    exists e' new,
      wait_scan_until_done container calls trx_sys st e = Ret e'
      /\ rows e' = (rows e ++ new)%list
      /\ Permutation new (remaining (wait_trx_rows container) trx_sys st).
Proof.
  intros Heng Hrw Hmy Hcrw Hcmy.
  induction calls as [|calls IH]; intros st e Hwf Hcalls.
  - destruct (m_scan_pass st); lia.
  - cbn [wait_scan_until_done].
    destruct (scan_pass_eqb (m_scan_pass st) DONE_SCANNING) eqn:Hdone.
    + apply scan_pass_eqb_eq in Hdone.
      rewrite (wait_scan_when_done _ trx_sys st e Hdone).
      cbn [bind]. exists e, []. rewrite app_nil_r.
      split; [reflexivity|]. split; [reflexivity|].
      unfold remaining. rewrite Hdone. constructor.
    + assert (Hnd : m_scan_pass st <> DONE_SCANNING).
      { intros Hd. rewrite Hd in Hdone. discriminate. }
      destruct (wait_scan_call_rows trx_sys st e Heng Hwf Hrw Hmy Hcrw Hcmy Hnd)
        as (st' & new & Hret & Hwf' & Hni & Hperm & Hprog).
      rewrite Hret. cbn [bind].
      pose proof (Permutation_length Hperm) as Hlen.
      rewrite length_app in Hlen.
      destruct (IH st' {| rows := (rows e ++ new)%list;
                          mutex_log :=
                            (mutex_log e
                             ++ [lock_mutex_enter; trx_sys_mutex_enter;
                                 trx_sys_mutex_exit; lock_mutex_exit])%list |}
                  Hwf')
        as (e' & new' & Hrest & Hrows' & Hperm').
      * assert (Hc : (List.length
                        (remaining (wait_trx_rows container) trx_sys st) + 2
                      <= S calls)%nat).
        { revert Hcalls Hnd.
          generalize (remaining (wait_trx_rows container) trx_sys st).
          intros rem. destruct (m_scan_pass st); intros Hcalls Hnd;
            try exact Hcalls. contradiction. }
        destruct (m_scan_pass st') eqn:Hp'; try lia;
          (destruct Hprog as [Hne|Hd]; [|discriminate]);
          (destruct new; [contradiction|cbn [List.length] in Hlen; lia]).
      * exists e', (new ++ new')%list. split; [exact Hrest|].
        split; [rewrite Hrows'; cbn [rows]; symmetry; apply app_assoc|].
        etransitivity; [|exact Hperm].
        apply Permutation_app_head. exact Hperm'.
Qed.

(** X13.  A whole scan of the wait iterator reports every wait edge
    once.  Over a transaction system that does not change, with
    transaction ids below [2 ^ 64 - 256], where every transaction in the
    lock-wait state has an awaited lock, and with a container that accepts
    the engine, calling [scan] again and again on a new iterator reaches a
    call that answers that the iterator is done within as many calls as
    there are rows, plus two.  No call fails the assertion.  The rows it
    was given are kept, and the rows added are, up to their order, the
    rows of the wait edges of the transactions of the RW list that are
    not discarded followed by those of the MySQL list. *)
Theorem wait_scan_reports_every_edge_once (trx_sys : trx_sys_t)
    (e : effects data_lock_wait_row) (calls : nat) :
  accept_engine container g_engine = true ->
  trx_ids_below_top (rw_trx_list trx_sys) ->
  trx_ids_below_top (mysql_trx_list trx_sys) ->
  waits_have_lock (rw_trx_list trx_sys) ->
  waits_have_lock (mysql_trx_list trx_sys) ->
  (List.length (all_rows (wait_trx_rows container) trx_sys) + 2 <= calls)%nat ->
  exists e' new,
    wait_scan_until_done container calls trx_sys scan_state_init e = Ret e'
    /\ rows e' = (rows e ++ new)%list
    /\ Permutation new (all_rows (wait_trx_rows container) trx_sys).
Proof.
  intros Heng Hrw Hmy Hcrw Hcmy Hcalls.
  apply (wait_scan_until_done_rows trx_sys Heng Hrw Hmy Hcrw Hcmy calls
           scan_state_init e scan_entry_wf_init).
  exact Hcalls.
Qed.

End WaitScanFacts.

Lemma wait_scan_reports_every_edge_once_witness :
  exists e' new,
    wait_scan_until_done (H := one_blocker) accept_all_waits 3
      waiting_trx_sys scan_state_init {| rows := []; mutex_log := [] |}
    = Ret e'
    /\ rows e' = ([] ++ new)%list
    /\ Permutation new
         (all_rows (wait_trx_rows (H := one_blocker) accept_all_waits)
            waiting_trx_sys).
Proof.
  apply (wait_scan_reports_every_edge_once (H := one_blocker)
           accept_all_waits waiting_trx_sys
           {| rows := []; mutex_log := [] |} 3).
  - reflexivity.
  - repeat constructor; vm_compute; congruence.
  - repeat constructor.
  - repeat constructor. intros _. discriminate.
  - repeat constructor.
  - vm_compute. lia.
Defined.
